(** * RetroNAS maintenance scripts: the CSV reader and the two line patchers

    A shallow embedding of
      scripts/maint/update_retrobat_rgs_systems.py   (variant A, module [RGS])
      scripts/maint/update_retrobat_systems.py       (variant B, module [SRC])

    Python strings are lists of characters ([str]); a character is an
    [ascii], read as a code point below 256.  A Python [dict] is an
    association list in insertion order.  Exceptions are the left summand
    of [result]. *)

From Stdlib Require Import Ascii String List Bool Arith Lia.
From Stdlib Require Import Sorting.Sorted Sorting.Permutation.
Import ListNotations.

Local Open Scope list_scope.

(** ** Strings *)

Definition str := list ascii.

Definition txt (s : string) : str := list_ascii_of_string s.

Definition chr (n : nat) : ascii := ascii_of_nat n.
Definition ord (c : ascii) : nat := nat_of_ascii c.

Definition quote : ascii := Eval cbv in chr 34.
Definition backslash : ascii := Eval cbv in chr 92.

Fixpoint str_eqb (a b : str) : bool :=
  match a, b with
  | [], [] => true
  | x :: a', y :: b' => Ascii.eqb x y && str_eqb a' b'
  | _, _ => false
  end.

(** [s.startswith(p)] *)
Fixpoint starts_with (p s : str) : bool :=
  match p, s with
  | [], _ => true
  | x :: p', y :: s' => Ascii.eqb x y && starts_with p' s'
  | _ :: _, [] => false
  end.

(** [p in s] for two strings: [p] occurs in [s] as a contiguous substring. *)
Fixpoint contains (p s : str) : bool :=
  starts_with p s ||
  match s with
  | [] => false
  | _ :: s' => contains p s'
  end.

(** [s.replace(old, new)]: the non-overlapping occurrences of [old] are
    found from left to right and each is replaced by [new].  [skip] counts
    the characters of the occurrence just replaced that are still to be
    passed over.  For an empty [old] Python puts [new] before every
    character and at the end. *)
Fixpoint replace_from (old new : str) (skip : nat) (s : str) : str :=
  match s with
  | [] => match old with [] => new | _ :: _ => [] end
  | c :: s' =>
      match skip with
      | S k => replace_from old new k s'
      | O =>
          if starts_with old s then
            match old with
            | [] => new ++ c :: replace_from old new 0 s'
            | _ :: old' => new ++ replace_from old new (length old') s'
            end
          else c :: replace_from old new 0 s'
      end
  end.

Definition str_replace (old new s : str) : str := replace_from old new 0 s.

(** ** Exceptions *)

Inductive exn : Type :=
| StopIteration   (* next() on an exhausted iterator *)
| IndexError      (* list index out of range *)
| KeyError        (* dict lookup of a missing key *)
| TemplateError.  (* re.error or IndexError from the replacement template *)

Definition result (A : Type) : Type := (exn + A)%type.

Definition Ok {A} (a : A) : result A := inr a.
Definition Raise {A} (e : exn) : result A := inl e.

Definition bind {A B} (r : result A) (f : A -> result B) : result B :=
  match r with
  | inl e => inl e
  | inr a => f a
  end.

Declare Scope result_scope.
Delimit Scope result_scope with result.
Notation "x <- r ;; k" := (bind r (fun x => k))
  (at level 61, r at next level, right associativity) : result_scope.
Local Open Scope result_scope.

(** [row[i]] *)
Definition index {A} (l : list A) (i : nat) : result A :=
  match nth_error l i with
  | Some a => Ok a
  | None => Raise IndexError
  end.

(** ** The mapping table *)

Record system_record : Type := {
  full_name : str;
  src : str;
  retrobat_path : str
}.

(** A [dict] keyed by system id, in insertion order. *)
Definition mappings := list (str * system_record).

(** [m[k] = v]: an existing key keeps its position and takes the new
    value, a new key goes to the end. *)
Fixpoint dict_set (k : str) (v : system_record) (m : mappings) : mappings :=
  match m with
  | [] => [(k, v)]
  | (k', v') :: m' =>
      if str_eqb k k' then (k, v) :: m' else (k', v') :: dict_set k v m'
  end.

Fixpoint dict_find (k : str) (m : mappings) : option system_record :=
  match m with
  | [] => None
  | (k', v') :: m' => if str_eqb k k' then Some v' else dict_find k m'
  end.

(** [m[k]] *)
Definition dict_get (m : mappings) (k : str) : result system_record :=
  match dict_find k m with
  | Some v => Ok v
  | None => Raise KeyError
  end.

(** [k in m] *)
Definition dict_mem (k : str) (m : mappings) : bool :=
  match dict_find k m with
  | Some _ => true
  | None => false
  end.

(** [m.keys()] *)
Definition dict_keys (m : mappings) : list str := map fst m.

(** ** The CSV reader ([read_csv_mappings], the same in both scripts)

    The argument is the sequence of rows that [csv.reader] yields for the
    file when it reads it to its end, the header row included.  A reader
    that raises on its way is [read_csv_reader], further down. *)

Definition roms_prefix : str := txt "/roms/".

Fixpoint read_rows (rows : list (list str)) (m : mappings) : result mappings :=
  match rows with
  | [] => Ok m
  | row :: rest =>
      if length row <? 4 then read_rows rest m
      else
        full_name <- index row 0 ;;
        system_name <- index row 1 ;;
        retrobat_path <- index row 2 ;;
        retronas_path <- index row 3 ;;
        let src_path := str_replace roms_prefix [] retronas_path in
        read_rows rest
          (dict_set system_name
             {| full_name := full_name;
                src := src_path;
                retrobat_path := retrobat_path |} m)
  end.

Definition read_csv_mappings (reader : list (list str)) : result mappings :=
  match reader with
  | [] => Raise StopIteration              (* next(reader) *)
  | _header :: rows => read_rows rows []
  end.

(** ** Regular expressions ([re])

    The patterns of the two scripts are sequences of single characters,
    [\s*], and a starred or plussed class of every character but the
    double quote.  [match_here] is the backtracking
    matcher for such sequences: a starred item is greedy and gives
    characters back one at a time when the rest of the pattern fails.  It
    returns the text consumed by each item. *)

Inductive cls : Type :=
| CChar (c : ascii)   (* the character itself *)
| CSpace              (* \s *)
| CNotQuote.          (* every character but the double quote *)

Inductive item : Type :=
| One (k : cls)
| Star (k : cls)
| Plus (k : cls).

(** [\s] on a [str] pattern: the characters for which [str.isspace] holds. *)
Definition is_space (c : ascii) : bool :=
  let n := ord c in
  ((9 <=? n) && (n <=? 13)) || ((28 <=? n) && (n <=? 32))
  || (n =? 133) || (n =? 160).

Definition cls_ok (k : cls) (c : ascii) : bool :=
  match k with
  | CChar x => Ascii.eqb x c
  | CSpace => is_space c
  | CNotQuote => negb (Ascii.eqb c quote)
  end.

Fixpoint star_match (k : cls) (cont : str -> option (list str)) (s : str)
  : option (str * list str) :=
  match s with
  | c :: s' =>
      if cls_ok k c then
        match star_match k cont s' with
        | Some (g, gs) => Some (c :: g, gs)
        | None => option_map (pair []) (cont s)
        end
      else option_map (pair []) (cont s)
  | [] => option_map (pair []) (cont [])
  end.

Fixpoint match_here (r : list item) (s : str) : option (list str) :=
  match r with
  | [] => Some []
  | One k :: r' =>
      match s with
      | c :: s' =>
          if cls_ok k c then option_map (cons [c]) (match_here r' s') else None
      | [] => None
      end
  | Star k :: r' =>
      option_map (fun p => fst p :: snd p) (star_match k (match_here r') s)
  | Plus k :: r' =>
      match s with
      | c :: s' =>
          if cls_ok k c then
            option_map (fun p => (c :: fst p) :: snd p)
                       (star_match k (match_here r') s')
          else None
      | [] => None
      end
  end.

(** A compiled pattern: its items and, when it has a capturing group, the
    position and number of the items inside the parentheses. *)
Record regex : Type := {
  re_items : list item;
  re_group : option (nat * nat)
}.

Definition re_groups (re : regex) : nat :=
  match re_group re with Some _ => 1 | None => 0 end.

(** A match object: the text before the match and the text of each item. *)
Record re_match : Type := {
  m_pre : str;
  m_parts : list str
}.

Definition group0 (parts : list str) : str := concat parts.

Definition group1 (re : regex) (parts : list str) : str :=
  match re_group re with
  | Some (lo, n) => concat (firstn n (skipn lo parts))
  | None => []
  end.

(** [re.search]: the leftmost position at which the pattern matches. *)
Fixpoint search_from (r : list item) (s : str) : option re_match :=
  match match_here r s with
  | Some parts => Some {| m_pre := []; m_parts := parts |}
  | None =>
      match s with
      | [] => None
      | c :: s' =>
          match search_from r s' with
          | Some m => Some {| m_pre := c :: m_pre m; m_parts := m_parts m |}
          | None => None
          end
      end
  end.

Definition re_search (re : regex) (s : str) : option re_match :=
  search_from (re_items re) s.

(** [m.group(1)] of a search result *)
Definition search_group1 (re : regex) (s : str) : option str :=
  option_map (fun m => group1 re (m_parts m)) (re_search re s).

(** *** Replacement templates

    [re.sub] compiles a replacement that contains a backslash before it
    looks for matches ([re._parser.parse_template]); a replacement without
    backslash is taken literally. *)

Inductive piece : Type :=
| PChar (c : ascii)
| PGroup (n : nat).

Inductive tstate : Type :=
| TNormal
| TName (name : str).   (* inside \g<...>: the name so far, reversed *)

Definition is_digit (c : ascii) : bool := (48 <=? ord c) && (ord c <=? 57).
Definition is_octdigit (c : ascii) : bool := (48 <=? ord c) && (ord c <=? 55).
Definition is_ascii_letter (c : ascii) : bool :=
  ((65 <=? ord c) && (ord c <=? 90)) || ((97 <=? ord c) && (ord c <=? 122)).
Definition digit_val (c : ascii) : nat := ord c - 48.

Definition decimal (ds : str) : nat :=
  fold_left (fun n d => 10 * n + digit_val d) ds 0.

(** The escapes that stand for a character. *)
Definition escape_char (c : ascii) : option ascii :=
  match ord c with
  | 97 => Some (chr 7)       (* \a *)
  | 98 => Some (chr 8)       (* \b *)
  | 102 => Some (chr 12)     (* \f *)
  | 110 => Some (chr 10)     (* \n *)
  | 114 => Some (chr 13)     (* \r *)
  | 116 => Some (chr 9)      (* \t *)
  | 118 => Some (chr 11)     (* \v *)
  | 92 => Some backslash
  | _ => None
  end.

Definition add_group (groups index : nat) (rest : result (list piece))
  : result (list piece) :=
  if groups <? index then Raise TemplateError
  else ps <- rest ;; Ok (PGroup index :: ps).

Definition add_char (c : ascii) (rest : result (list piece))
  : result (list piece) :=
  ps <- rest ;; Ok (PChar c :: ps).

(** The replacement template, read as [re.sub] reads it.  The name
    between [\g<] and [>] is that of a numbered group when it is made of
    ASCII digits only, as from Python 3.12 on; earlier versions read the
    number with [int], which takes a sign, spaces and underscores as
    well.  The scripts have no named group. *)
Fixpoint parse_from (groups : nat) (st : tstate) (t : str)
  : result (list piece) :=
  match st, t with
  | TNormal, [] => Ok []
  | TName _, [] => Raise TemplateError                   (* missing > *)
  | TName name, c :: t' =>
      if Ascii.eqb c ">" then
        match name with
        | [] => Raise TemplateError                      (* missing group name *)
        | _ :: _ =>
            if forallb is_digit name
            then add_group groups (decimal (rev name))
                           (parse_from groups TNormal t')
            else Raise TemplateError                     (* no named groups *)
        end
      else parse_from groups (TName (c :: name)) t'
  | TNormal, c :: t' =>
      if negb (Ascii.eqb c backslash) then add_char c (parse_from groups TNormal t')
      else
        match t' with
        | [] => Raise TemplateError                      (* bad escape (end) *)
        | e :: t1 =>
            if Ascii.eqb e "g" then
              match t1 with
              | lt :: t2 =>
                  if Ascii.eqb lt "<" then parse_from groups (TName []) t2
                  else Raise TemplateError               (* missing < *)
              | [] => Raise TemplateError
              end
            else if Ascii.eqb e "0" then
              (* \0, \0o, \0oo: an octal escape *)
              match t1 with
              | o1 :: t2 =>
                  if is_octdigit o1 then
                    match t2 with
                    | o2 :: t3 =>
                        if is_octdigit o2
                        then add_char (chr (8 * digit_val o1 + digit_val o2))
                                      (parse_from groups TNormal t3)
                        else add_char (chr (digit_val o1))
                                      (parse_from groups TNormal t2)
                    | [] => add_char (chr (digit_val o1))
                                     (parse_from groups TNormal t2)
                    end
                  else add_char (chr 0) (parse_from groups TNormal t1)
              | [] => add_char (chr 0) (parse_from groups TNormal t1)
              end
            else if is_digit e then
              (* \d, \dd: a group; \ooo: an octal escape *)
              match t1 with
              | d2 :: t2 =>
                  if is_digit d2 then
                    match t2 with
                    | d3 :: t3 =>
                        if is_octdigit e && is_octdigit d2 && is_octdigit d3 then
                          let v := 64 * digit_val e + 8 * digit_val d2
                                   + digit_val d3 in
                          if 255 <? v then Raise TemplateError
                          else add_char (chr v) (parse_from groups TNormal t3)
                        else add_group groups (10 * digit_val e + digit_val d2)
                                       (parse_from groups TNormal t2)
                    | [] => add_group groups (10 * digit_val e + digit_val d2)
                                      (parse_from groups TNormal t2)
                    end
                  else add_group groups (digit_val e)
                                 (parse_from groups TNormal t1)
              | [] => add_group groups (digit_val e)
                                (parse_from groups TNormal t1)
              end
            else
              match escape_char e with
              | Some x => add_char x (parse_from groups TNormal t1)
              | None =>
                  if is_ascii_letter e then Raise TemplateError   (* bad escape *)
                  else add_char backslash
                         (add_char e (parse_from groups TNormal t1))
              end
        end
  end.

Definition parse_template (re : regex) (repl : str) : result (list piece) :=
  parse_from (re_groups re) TNormal repl.

Definition expand_piece (re : regex) (parts : list str) (p : piece) : str :=
  match p with
  | PChar c => [c]
  | PGroup 0 => group0 parts
  | PGroup _ => group1 re parts
  end.

Definition expand (re : regex) (tpl : list piece) (parts : list str) : str :=
  concat (map (expand_piece re parts) tpl).

(** *** Substitution

    [sub_from] replaces the non-overlapping matches from left to right;
    [skip] counts the characters of the last match still to be passed
    over.  An empty match is replaced and the next character copied. *)

Fixpoint sub_from (r : list item) (repl : list str -> str) (skip : nat) (s : str)
  : str :=
  match skip with
  | S n =>
      match s with
      | [] => []
      | _ :: s' => sub_from r repl n s'
      end
  | O =>
      match match_here r s with
      | Some parts =>
          repl parts ++
          match s with
          | [] => []
          | c :: s' =>
              match length (concat parts) with
              | O => c :: sub_from r repl 0 s'
              | S n => sub_from r repl n s'
              end
          end
      | None =>
          match s with
          | [] => []
          | c :: s' => c :: sub_from r repl 0 s'
          end
      end
  end.

(** [re.sub(pattern, repl, s)] *)
Definition re_sub (re : regex) (repl : str) (s : str) : result str :=
  tpl <- parse_template re repl ;;
  Ok (sub_from (re_items re) (expand re tpl) 0 s).

(** *** The patterns of the two scripts *)

Definition lit (s : str) : list item := map (fun c => One (CChar c)) s.

(** name, [\s*], a double quote, the value item, a double quote *)
Definition field_items (name : str) (value : item) : list item :=
  lit name ++ [Star CSpace; One (CChar quote); value; One (CChar quote)].

(** The same with the value in parentheses, or without a group. *)
Definition field_re (name : str) (value : item) (captured : bool) : regex :=
  {| re_items := field_items name value;
     re_group := if captured then Some (length name + 2, 1) else None |}.

Definition quoted (s : str) : str := quote :: s ++ [quote].

Definition newline : ascii := Eval cbv in chr 10.

(** [f.readlines()]: the lines of the text, each with its line end. *)
Fixpoint readlines (s : str) : list str :=
  match s with
  | [] => []
  | c :: s' =>
      if Ascii.eqb c newline then [c] :: readlines s'
      else
        match readlines s' with
        | [] => [[c]]
        | l :: ls => (c :: l) :: ls
        end
  end.

(** ** Variant A: update_retrobat_rgs_systems.py *)

Module RGS.

(** The lines the script prints for a change. *)
Inductive event : Type :=
| Updated (system current_rgs : str)
| Added (system : str).

(** the search for the retrobat_rgs field, value in group 1 *)
Definition rgs_re : regex := field_re (txt "retrobat_rgs:") (Star CNotQuote) true.
(** the search for the src field, value in group 1 *)
Definition src_re : regex := field_re (txt "src:") (Plus CNotQuote) true.
(** the patterns of the three [re.sub] calls *)
Definition src_sub_re : regex := field_re (txt "src:") (Plus CNotQuote) false.
Definition rgs_sub_re : regex := field_re (txt "retrobat_rgs:") (Star CNotQuote) false.
Definition marker_re : regex :=
  let items := field_items (txt "retrobat:") (Star CNotQuote)
               ++ [One (CChar ",")] in
  {| re_items := items; re_group := Some (0, length items) |}.

Definition marker_text (system_name : str) : str :=
  txt "retrobat: " ++ quoted system_name.
Definition src_text (path : str) : str := txt "src: " ++ quoted path.
Definition rgs_text (system_name : str) : str :=
  txt "retrobat_rgs: " ++ quoted system_name.
Definition insert_template (system_name : str) : str :=
  backslash :: txt "1 retrobat_rgs: " ++ quoted system_name ++ txt ",".

(** The inner loop over [mappings.keys()], up to its [break]. *)
Fixpoint find_match (m : mappings) (keys : list str) (line : str)
  : result (option str) :=
  match keys with
  | [] => Ok None
  | system_name :: rest =>
      if contains (marker_text system_name) line then Ok (Some system_name)
      else
        rec <- dict_get m system_name ;;
        let expected_src := src rec in
        if contains (src_text expected_src) line then Ok (Some system_name)
        else find_match m rest line
  end.

(** The test of the inner loop for one id: the line holds the id's
    marker text or its source text. *)
Definition hit (m : mappings) (line : str) (system_name : str) : bool :=
  contains (marker_text system_name) line ||
  match dict_find system_name m with
  | Some rec => contains (src_text (src rec)) line
  | None => false
  end.

(** No id of the table passes the test of the inner loop. *)
Definition unmatched (m : mappings) (line : str) : Prop :=
  forall k, In k (dict_keys m) -> hit m line k = false.

(** One turn of the loop over the lines: the new line, the increment of
    [updated_count] and what is printed. *)
Definition patch_line (m : mappings) (line : str)
  : result (str * nat * list event) :=
  matched <- find_match m (dict_keys m) line ;;
  match matched with
  | None | Some [] => Ok (line, 0, [])          (* if not matched_system *)
  | Some matched_system =>
      rec <- dict_get m matched_system ;;
      let new_src := src rec in
      let rgs_match := search_group1 rgs_re line in
      match search_group1 src_re line with
      | None => Ok (line, 0, [])                  (* if not src_match *)
      | Some current_src =>
          line1 <- (if str_eqb current_src new_src then Ok line
                    else re_sub src_sub_re (src_text new_src) line) ;;
          match rgs_match with
          | Some current_rgs =>
              if str_eqb current_rgs matched_system then Ok (line1, 0, [])
              else
                line2 <- re_sub rgs_sub_re (rgs_text matched_system) line1 ;;
                Ok (line2, 1, [Updated matched_system current_rgs])
          | None =>
              if contains (txt "retrobat:") line1 then
                line2 <- re_sub marker_re (insert_template matched_system) line1 ;;
                Ok (line2, 1, [Added matched_system])
              else Ok (line1, 0, [])
          end
      end
  end.

Fixpoint patch_lines (m : mappings) (lines : list str)
  : result (list str * nat * list event) :=
  match lines with
  | [] => Ok ([], 0, [])
  | line :: rest =>
      r <- patch_line m line ;;
      rs <- patch_lines m rest ;;
      let '(line', n, ev) := r in
      let '(rest', n', ev') := rs in
      Ok (line' :: rest', n + n', ev ++ ev')
  end.

(** What [update_yaml_file] leaves behind: the lines written back, the
    two values it returns and what it printed. *)
Record report : Type := {
  written : list str;
  updated_count : nat;
  not_found : list str;
  printed : list event
}.

Definition unresolved (m : mappings) (yaml_content : str) : list str :=
  filter (fun system_name => negb (contains (rgs_text system_name) yaml_content))
         (dict_keys m).

Definition update_yaml_file (m : mappings) (lines : list str) : result report :=
  r <- patch_lines m lines ;;
  let '(lines', n, ev) := r in
  Ok {| written := lines';
        updated_count := n;
        not_found := unresolved m (concat lines');
        printed := ev |}.

(** [main]: [None] stands for a file that does not exist, [Some] holds the
    rows of the CSV and the text of the YAML file.  The value is the exit
    status; an exception leaves [main] uncaught. *)
Definition main (csv : option (list (list str))) (yaml : option str)
  : result nat :=
  match csv, yaml with
  | None, _ => Ok 1
  | Some _, None => Ok 1
  | Some reader, Some text =>
      m <- read_csv_mappings reader ;;
      r <- update_yaml_file m (readlines text) ;;
      match not_found r with
      | _ :: _ => Ok 1
      | [] => Ok 0
      end
  end.

End RGS.

(** ** Variant B: update_retrobat_systems.py *)

Module SRC.

Inductive event : Type :=
| Warning (system : str) (lineno : nat)
| Updated (system current_src new_src : str).

(** the search for the retrobat field, id in group 1 *)
Definition marker_re : regex := field_re (txt "retrobat:") (Plus CNotQuote) true.
Definition src_re : regex := field_re (txt "src:") (Plus CNotQuote) true.
Definition src_sub_re : regex := field_re (txt "src:") (Plus CNotQuote) false.

Definition marker_text (system_name : str) : str :=
  txt "retrobat: " ++ quoted system_name.
Definition src_text (path : str) : str := txt "src: " ++ quoted path.

(** The line has no marker field, or one whose id is not in the table. *)
Definition unmatched (m : mappings) (line : str) : Prop :=
  match search_group1 marker_re line with
  | None => True
  | Some system_name => dict_mem system_name m = false
  end.

(** One turn of the loop over [enumerate(lines)]. *)
Definition patch_line (m : mappings) (i : nat) (line : str)
  : result (str * nat * list event) :=
  match search_group1 marker_re line with
  | None => Ok (line, 0, [])
  | Some system_name =>
      if negb (dict_mem system_name m) then Ok (line, 0, [])
      else
        match search_group1 src_re line with
        | None => Ok (line, 0, [Warning system_name (i + 1)])
        | Some current_src =>
            rec <- dict_get m system_name ;;
            let new_src := src rec in
            if str_eqb current_src new_src then Ok (line, 0, [])
            else
              new_line <- re_sub src_sub_re (src_text new_src) line ;;
              Ok (new_line, 1, [Updated system_name current_src new_src])
        end
  end.

Fixpoint patch_lines (m : mappings) (i : nat) (lines : list str)
  : result (list str * nat * list event) :=
  match lines with
  | [] => Ok ([], 0, [])
  | line :: rest =>
      r <- patch_line m i line ;;
      rs <- patch_lines m (S i) rest ;;
      let '(line', n, ev) := r in
      let '(rest', n', ev') := rs in
      Ok (line' :: rest', n + n', ev ++ ev')
  end.

Record report : Type := {
  written : list str;
  updated_count : nat;
  not_found : list str;
  printed : list event
}.

Definition unresolved (m : mappings) (yaml_content : str) : list str :=
  filter (fun system_name => negb (contains (marker_text system_name) yaml_content))
         (dict_keys m).

Definition update_yaml_file (m : mappings) (lines : list str) : result report :=
  r <- patch_lines m 0 lines ;;
  let '(lines', n, ev) := r in
  Ok {| written := lines';
        updated_count := n;
        not_found := unresolved m (concat lines');
        printed := ev |}.

Definition main (csv : option (list (list str))) (yaml : option str)
  : result nat :=
  match csv, yaml with
  | None, _ => Ok 1
  | Some _, None => Ok 1
  | Some reader, Some text =>
      m <- read_csv_mappings reader ;;
      r <- update_yaml_file m (readlines text) ;;
      match not_found r with
      | _ :: _ => Ok 1
      | [] => Ok 0
      end
  end.

End SRC.

(** ** Definitions used in the statements and proofs *)

(** The keys after [m[k] = v]: a new key is appended, a known key stays
    where it is. *)
Definition add_key (k : str) (ks : list str) : list str :=
  if existsb (str_eqb k) ks then ks else ks ++ [k].

(** The entry a row with four or more columns contributes. *)
Definition entry_of (row : list str) : option (str * system_record) :=
  match row with
  | full_name :: system_name :: retrobat_path :: retronas_path :: _ =>
      Some (system_name,
            {| full_name := full_name;
               src := str_replace roms_prefix [] retronas_path;
               retrobat_path := retrobat_path |})
  | _ => None
  end.

Fixpoint entries (rows : list (list str)) : list (str * system_record) :=
  match rows with
  | [] => []
  | row :: rest =>
      match entry_of row with
      | Some e => e :: entries rest
      | None => entries rest
      end
  end.

Definition store (m : mappings) (e : str * system_record) : mappings :=
  dict_set (fst e) (snd e) m.

(** First occurrences, in order: what the keys of a dict filled from a
    list of ids are. *)
Fixpoint first_occurrences (l : list str) : list str :=
  match l with
  | [] => []
  | x :: l' => x :: filter (fun y => negb (str_eqb x y)) (first_occurrences l')
  end.

(** The last entry for a key. *)
Definition last_entry (k : str) (es : list (str * system_record))
  : option system_record :=
  dict_find k (rev es).

(** The longest prefix whose characters satisfy [f], and the rest. *)
Fixpoint span (f : ascii -> bool) (s : str) : str * str :=
  match s with
  | c :: s' =>
      if f c then (c :: fst (span f s'), snd (span f s')) else ([], s)
  | [] => ([], [])
  end.

Definition stops (f : ascii -> bool) (r : str) : Prop :=
  match r with
  | [] => True
  | c :: _ => f c = false
  end.

(** The match found is the leftmost one. *)
Definition leftmost (r : list item) (pre rest : str) : Prop :=
  forall p1 p2, pre = p1 ++ p2 -> p2 <> [] -> match_here r (p2 ++ rest) = None.

Definition not_quote (c : ascii) : bool := negb (Ascii.eqb c quote).

Definition value_item (plus : bool) : item :=
  if plus then Plus CNotQuote else Star CNotQuote.

Definition is_nil (s : str) : bool :=
  match s with [] => true | _ :: _ => false end.

(** What follows the field name: white space, a quoted value, [tail]. *)
Definition after_name (plus : bool) (tail : str) (s1 : str)
  : option (str * str * str) :=
  let ws := fst (span is_space s1) in
  match snd (span is_space s1) with
  | c :: s3 =>
      if Ascii.eqb quote c then
        let v := fst (span not_quote s3) in
        match snd (span not_quote s3) with
        | _ :: s5 =>
            if plus && is_nil v then None
            else if starts_with tail s5
                 then Some (ws, v, skipn (length tail) s5)
                 else None
        | [] => None
        end
      else None
  | [] => None
  end.

(** The field at the start of [s]: white space, value and what follows. *)
Definition field_at (name : str) (plus : bool) (tail : str) (s : str)
  : option (str * str * str) :=
  if starts_with name s then after_name plus tail (skipn (length name) s)
  else None.

Definition chars (s : str) : list str := map (fun c => [c]) s.

Definition field_parts (name ws v tail : str) : list str :=
  chars name ++ [ws; [quote]; v; [quote]] ++ chars tail.

Definition field_pattern (name : str) (plus : bool) (tail : str) : list item :=
  lit name
  ++ [Star CSpace; One (CChar quote); value_item plus; One (CChar quote)]
  ++ lit tail.

Definition plain (t : str) : Prop :=
  forallb (fun c => negb (Ascii.eqb c backslash)) t = true.

(** A field name that ends in a character which is neither white space
    nor a double quote (the colon of the three names in the scripts). *)
Definition name_end_ok (name : str) : Prop :=
  exists n0 e, name = n0 ++ [e] /\ is_space e = false /\ not_quote e = true.

(** The text a rewritten field is replaced by: name, one space, the
    quoted value. *)
Definition field_text (name v : str) : str := name ++ " "%char :: quoted v.

(** Modelled from the spec: the canonical path with the root prefix
    removed once, as a leading prefix. *)
Definition strip_leading (prefix s : str) : str :=
  if starts_with prefix s then skipn (length prefix) s else s.

(** The paths of a table that can be written into a src field and read
    back: not empty, without double quote and without backslash. *)
Definition wf_paths (m : mappings) : Prop :=
  forall k rec, dict_find k m = Some rec ->
    src rec <> [] /\ forallb not_quote (src rec) = true /\ plain (src rec).

(** ** Record lines

    The lines the scripts are written for: a sequence of quoted values,
    each after a gap that ends in the name of its field. *)

(** A line as the scripts expect it: quoted values, each after a gap
    that holds the name of the field. *)
Record field : Type := { gap : str; val : str }.

(** The text of a field, and of a line: its fields and what follows the
    last one. *)
Definition render_field (f : field) : str := gap f ++ quoted (val f).

Fixpoint render (fs : list field) (tl : str) : str :=
  match fs with
  | [] => tl
  | f :: fs' => render_field f ++ render fs' tl
  end.

(** A text without double quote; without colon. *)
Definition quote_free (s : str) : Prop := forallb not_quote s = true.

Definition not_colon (c : ascii) : bool := negb (Ascii.eqb c ":").

Definition colon_free (s : str) : Prop := forallb not_colon s = true.

(** The gaps and the values hold no double quote, the values no colon
    either: the fields of the line are where the patterns find them. *)
Definition wf_field (f : field) : Prop :=
  quote_free (gap f) /\ quote_free (val f) /\ colon_free (val f).

Definition record_line (fs : list field) (tl : str) : Prop :=
  Forall wf_field fs /\ quote_free tl.

(** A field name: it ends in a colon and holds no double quote. *)
Definition field_name (name : str) : Prop :=
  exists n0, name = n0 ++ [":"%char] /\ quote_free n0.

(** The gap ends in the name and white space: what is before the name,
    and the white space. *)
Fixpoint split_name (name g : str) : option (str * str) :=
  if starts_with name g && forallb is_space (skipn (length name) g)
  then Some ([], skipn (length name) g)
  else
    match g with
    | [] => None
    | c :: g' =>
        match split_name name g' with
        | Some (pre, ws) => Some (c :: pre, ws)
        | None => None
        end
    end.

(** The value and what follows it pass the tests of the pattern. *)
Definition value_ok (plus : bool) (tail v R : str) : bool :=
  negb (plus && is_nil v) && starts_with tail R.

(** The texts of the items of the first match. *)
Definition search_parts (r : list item) (s : str) : option (list str) :=
  option_map m_parts (search_from r s).

(** [o is not None] *)
Definition is_some {A} (o : option A) : bool :=
  match o with Some _ => true | None => false end.

(** The field has the name and a value the pattern accepts. *)
Definition qual (name : str) (plus : bool) (f : field) : bool :=
  is_some (split_name name (gap f)) && negb (plus && is_nil (val f)).

(** The field after [re.sub] has written value [v] into the fields
    [name]. *)
Definition retarget (name : str) (plus : bool) (v : str) (f : field) : field :=
  match split_name name (gap f) with
  | Some (pre, ws) =>
      if negb (plus && is_nil (val f))
      then {| gap := pre ++ name ++ [" "%char]; val := v |}
      else f
  | None => f
  end.

(** The field the insertion writes. *)
Definition new_field (k : str) : field :=
  {| gap := txt ", retrobat_rgs: "; val := k |}.

(** The line after the insertion: a new field after each retrobat field
    that is followed by a comma. *)
Fixpoint insert_rgs (k : str) (fs : list field) (tl : str) : list field :=
  match fs with
  | [] => []
  | f :: fs' =>
      if is_some (split_name (txt "retrobat:") (gap f))
         && starts_with (txt ",") (render fs' tl)
      then f :: new_field k :: insert_rgs k fs' tl
      else f :: insert_rgs k fs' tl
  end.

(** Two names that differ in the character before the colon. *)
Definition apart (n1 n2 : str) : Prop :=
  exists m1 c1 m2 c2,
    n1 = m1 ++ [c1; ":"%char] /\ n2 = m2 ++ [c2; ":"%char] /\ c1 <> c2.

(** A text that can stand between double quotes as a value. *)
Definition word (s : str) : Prop := quote_free s /\ colon_free s /\ plain s.

(** The ids and the paths of the table are words, and no path is empty. *)
Definition wf_table (m : mappings) : Prop :=
  forall k rec, dict_find k m = Some rec ->
                word k /\ word (src rec) /\ src rec <> [].

(** The line is the text of well-formed fields. *)
Definition is_record (line : str) : Prop :=
  exists fs tl, line = render fs tl /\ record_line fs tl.

(** [g] ends in [p]. *)
Fixpoint ends_with (p g : str) : bool :=
  str_eqb g p ||
  match g with
  | [] => false
  | _ :: g' => ends_with p g'
  end.

(** The field is written [name], one space, and the value [k] in
    quotes. *)
Definition has_field (name k : str) (f : field) : bool :=
  ends_with (name ++ [" "%char]) (gap f) && str_eqb (val f) k.

(** The line holds the marker text of [k]; the source text of [p]. *)
Definition marker_hit (fs : list field) (k : str) : bool :=
  existsb (has_field (txt "retrobat:") k) fs.
Definition src_hit (fs : list field) (p : str) : bool :=
  existsb (has_field (txt "src:") p) fs.

(** No two ids of the table have the same path. *)
Definition distinct_paths (m : mappings) : Prop :=
  forall j k rj rk,
    dict_find j m = Some rj -> dict_find k m = Some rk ->
    j <> k -> src rj <> src rk.

(** The line has a retrobat_rgs field, or no retrobat text at all. *)
Definition rgs_present (line : str) : bool :=
  is_some (search_group1 RGS.rgs_re line)
  || negb (contains (txt "retrobat:") line).



(** ** The scripts on the files

    [update_yaml_file] and [main] with the files they read and write:
    the reader of the CSV file, the backup, and the list of the ids not
    found.  The three paths of a script are three files.  The CSV file is
    what [csv.reader] makes of it: the rows it yields, and how it ends,
    exhausted or with an exception of its own.  The two other files hold
    text.  [open] is in text mode on a POSIX system: a text read has its
    line ends translated, a text written is stored as it is. *)

Definition carriage_return : ascii := Eval cbv in chr 13.

(** Reading in text mode (universal newlines): a carriage return, with
    the line feed that follows it if there is one, is read as one line
    feed. *)
Fixpoint universal_newlines (s : str) : str :=
  match s with
  | [] => []
  | c :: s' =>
      if Ascii.eqb c carriage_return then
        newline ::
        match s' with
        | d :: s'' =>
            if Ascii.eqb d newline then universal_newlines s''
            else universal_newlines s'
        | [] => []
        end
      else c :: universal_newlines s'
  end.

(** The exceptions [next(reader)] raises for a file it cannot read:
    [_csv.Error], the UnicodeDecodeError of the utf-8-sig decoding, and
    the OSError of a read that fails. *)
Inductive reader_error : Type :=
| CsvError
| UnicodeDecodeError
| OSError.

(** After its last row the reader is exhausted, or it raises. *)
Inductive reader_end : Type :=
| Exhausted
| Fails (e : reader_error).

Definition csv_reader : Type := (list (list str) * reader_end)%type.

Record files : Type := {
  csv_source : option csv_reader;
  yaml_file : option str;
  backup_file : option str
}.

(** The rows of the CSV file, when the reader reads it to its end. *)
Definition csv_file (fs : files) : option (list (list str)) :=
  match csv_source fs with
  | Some (rows, Exhausted) => Some rows
  | Some (_, Fails _) | None => None
  end.

(** What leaves a script: an exception of the pure part, the
    FileNotFoundError of [open] on a path that does not exist, or an
    exception of the reader. *)
Inductive error : Type :=
| Python (e : exn)
| FileNotFoundError
| ReaderError (e : reader_error).

Definition io (A : Type) : Type := files -> (error + A) * files.

Definition io_ret {A} (a : A) : io A := fun fs => (inr a, fs).

Definition io_bind {A B} (c : io A) (f : A -> io B) : io B :=
  fun fs =>
    match c fs with
    | (inl e, fs') => (inl e, fs')
    | (inr a, fs') => f a fs'
    end.

Definition io_lift {A} (r : result A) : io A :=
  fun fs =>
    match r with
    | inl e => (inl (Python e), fs)
    | inr a => (inr a, fs)
    end.

Declare Scope io_scope.
Delimit Scope io_scope with io.
Notation "x <- c ;; k" := (io_bind c (fun x => k))
  (at level 61, c at next level, right associativity) : io_scope.

(** [path.exists()] *)
Definition csv_exists : io bool := fun fs => (inr (is_some (csv_source fs)), fs).
Definition yaml_exists : io bool := fun fs => (inr (is_some (yaml_file fs)), fs).

(** [csv.reader(open(csv_path, 'r', encoding='utf-8-sig'))] *)
Definition open_csv : io csv_reader :=
  fun fs =>
    match csv_source fs with
    | Some reader => (inr reader, fs)
    | None => (inl FileNotFoundError, fs)
    end.

(** [next(reader)] *)
Definition next_row (reader : csv_reader) : error + (list str * csv_reader) :=
  match reader with
  | (row :: rest, ending) => inr (row, (rest, ending))
  | ([], Exhausted) => inl (Python StopIteration)
  | ([], Fails e) => inl (ReaderError e)
  end.

(** The body of [read_csv_mappings] on a reader: the header is skipped
    with [next], the loop stores the rows the reader yields, and ends
    when the reader is exhausted; an exception of the reader ends the
    function. *)
Definition read_csv_reader (reader : csv_reader) : error + mappings :=
  match next_row reader with                       (* next(reader) *)
  | inl e => inl e
  | inr (_header, (rows, ending)) =>
      match read_rows rows [] with                 (* for row in reader: *)
      | inl e => inl (Python e)
      | inr m =>
          match ending with
          | Exhausted => inr m
          | Fails e => inl (ReaderError e)
          end
      end
  end.

(** [open(yaml_path, 'r').read()] *)
Definition read_yaml : io str :=
  fun fs =>
    match yaml_file fs with
    | Some text => (inr (universal_newlines text), fs)
    | None => (inl FileNotFoundError, fs)
    end.

(** [open(yaml_path, 'w').write(text)] and the same for the backup *)
Definition write_yaml (text : str) : io unit :=
  fun fs => (inr tt, {| csv_source := csv_source fs;
                        yaml_file := Some text;
                        backup_file := backup_file fs |}).
Definition write_backup (text : str) : io unit :=
  fun fs => (inr tt, {| csv_source := csv_source fs;
                        yaml_file := yaml_file fs;
                        backup_file := Some text |}).

(** The order of [str]: by code point, a proper prefix first. *)
Fixpoint str_ltb (a b : str) : bool :=
  match a, b with
  | _, [] => false
  | [], _ :: _ => true
  | x :: a', y :: b' =>
      (ord x <? ord y) || ((ord x =? ord y) && str_ltb a' b')
  end.

(** [sorted(l)] *)
Fixpoint insert_sorted (x : str) (l : list str) : list str :=
  match l with
  | [] => [x]
  | y :: l' => if str_ltb y x then y :: insert_sorted x l' else x :: l
  end.

Definition sorted (l : list str) : list str := fold_right insert_sorted [] l.

(** The lines of the warning: each id not found, in sorted order, with
    [mappings[sys]['full_name']]. *)
Fixpoint warning_lines (m : mappings) (l : list str) : result (list (str * str)) :=
  match l with
  | [] => Ok []
  | sys :: rest =>
      rec <- dict_get m sys ;;
      ws <- warning_lines m rest ;;
      Ok ((sys, full_name rec) :: ws)
  end.

Module RGS_IO.

Local Open Scope io_scope.

Definition read_csv_mappings : io mappings :=
  reader <- open_csv ;;
  fun fs => (read_csv_reader reader, fs).

(** [update_yaml_file]: the report and the lines of the warning. *)
Definition update_yaml_file (m : mappings)
  : io (RGS.report * list (str * str)) :=
  text <- read_yaml ;;
  r <- io_lift (RGS.patch_lines m (readlines text)) ;;
  let '(lines', n, ev) := r in
  _ <- write_yaml (concat lines') ;;                     (* f.writelines(lines) *)
  let not_found := RGS.unresolved m (concat lines') in
  ws <- io_lift (warning_lines m (sorted not_found)) ;;
  io_ret ({| RGS.written := lines';
             RGS.updated_count := n;
             RGS.not_found := not_found;
             RGS.printed := ev |}, ws).

(** [main]: the value is the exit status of the process. *)
Definition main : io nat :=
  csv_ok <- csv_exists ;;
  if negb csv_ok then io_ret 1                           (* sys.exit(1) *)
  else
    yaml_ok <- yaml_exists ;;
    if negb yaml_ok then io_ret 1                        (* sys.exit(1) *)
    else
      m <- read_csv_mappings ;;
      text <- read_yaml ;;
      _ <- write_backup text ;;
      r <- update_yaml_file m ;;
      match RGS.not_found (fst r) with
      | _ :: _ => io_ret 1
      | [] => io_ret 0
      end.

End RGS_IO.

Module SRC_IO.

Local Open Scope io_scope.

Definition read_csv_mappings : io mappings :=
  reader <- open_csv ;;
  fun fs => (read_csv_reader reader, fs).

Definition update_yaml_file (m : mappings)
  : io (SRC.report * list (str * str)) :=
  text <- read_yaml ;;
  r <- io_lift (SRC.patch_lines m 0 (readlines text)) ;;
  let '(lines', n, ev) := r in
  _ <- write_yaml (concat lines') ;;
  let not_found := SRC.unresolved m (concat lines') in
  ws <- io_lift (warning_lines m (sorted not_found)) ;;
  io_ret ({| SRC.written := lines';
             SRC.updated_count := n;
             SRC.not_found := not_found;
             SRC.printed := ev |}, ws).

Definition main : io nat :=
  csv_ok <- csv_exists ;;
  if negb csv_ok then io_ret 1
  else
    yaml_ok <- yaml_exists ;;
    if negb yaml_ok then io_ret 1
    else
      m <- read_csv_mappings ;;
      text <- read_yaml ;;
      _ <- write_backup text ;;
      r <- update_yaml_file m ;;
      match SRC.not_found (fst r) with
      | _ :: _ => io_ret 1
      | [] => io_ret 0
      end.

End SRC_IO.

(** ** Definitions used in the further statements *)

(** The lines printed by variant B for a rewrite. *)
Definition is_updated (e : SRC.event) : bool :=
  match e with
  | SRC.Updated _ _ _ => true
  | SRC.Warning _ _ => false
  end.

(** The id a line printed by variant A is for. *)
Definition event_system (e : RGS.event) : str :=
  match e with
  | RGS.Updated k _ => k
  | RGS.Added k => k
  end.

(** The number of places at which two files differ. *)
Definition changed_lines (a b : list str) : nat :=
  length (filter (fun p => negb (str_eqb (fst p) (snd p))) (combine a b)).

(** The ids and paths of the table hold no backslash. *)
Definition plain_table (m : mappings) : Prop :=
  forall k rec, dict_find k m = Some rec -> plain k /\ plain (src rec).

(** A character of the body of a line: neither line feed nor carriage
    return. *)
Definition line_char (c : ascii) : bool :=
  negb (Ascii.eqb c newline) && negb (Ascii.eqb c carriage_return).

(** A line with its line end. *)
Definition terminated (l : str) : Prop :=
  exists body, l = body ++ [newline] /\ forallb line_char body = true.

(** The lines [readlines] gives: each with its line end, but for the
    last one, which may be without. *)
Fixpoint file_lines (ls : list str) : Prop :=
  match ls with
  | [] => True
  | l :: rest =>
      (terminated l \/ (rest = [] /\ l <> [] /\ forallb line_char l = true))
      /\ file_lines rest
  end.

(** The gaps and values of the fields are made of characters [P]. *)
Definition fields_free (P : ascii -> bool) (fs : list field) : Prop :=
  Forall (fun f => forallb P (gap f) = true /\ forallb P (val f) = true) fs.

(** The ids and paths of the table hold no line end. *)
Definition line_table (m : mappings) : Prop :=
  forall k rec, dict_find k m = Some rec ->
                forallb line_char k = true /\ forallb line_char (src rec) = true.

(** The files after the backup, and after the lines are written. *)
Definition with_backup (fs : files) (text : str) : files :=
  {| csv_source := csv_source fs; yaml_file := yaml_file fs;
     backup_file := Some text |}.
Definition with_yaml (fs : files) (text : str) : files :=
  {| csv_source := csv_source fs; yaml_file := Some text;
     backup_file := backup_file fs |}.

(** The exit status for a list of ids not found. *)
Definition status_of (not_found : list str) : nat :=
  match not_found with
  | _ :: _ => 1
  | [] => 0
  end.

(** A text without carriage return. *)
Definition cr_free (s : str) : bool :=
  forallb (fun c => negb (Ascii.eqb c carriage_return)) s.

(** An exception of the pure part, as it leaves the script. *)
Definition raised {A} (r : result A) : error + A :=
  match r with
  | inl e => inl (Python e)
  | inr a => inr a
  end.

(** The exceptions that leave a [main] whose pass over the lines is
    [update]. *)
Definition leaves_main (fs : files)
           (update : mappings -> list str -> option exn) (e : error) : Prop :=
  exists reader raw,
    csv_source fs = Some reader /\ yaml_file fs = Some raw /\
    ((reader = ([], Exhausted) /\ e = Python StopIteration) \/
     (exists rows er, reader = (rows, Fails er) /\ e = ReaderError er) \/
     (exists header rows,
         reader = (header :: rows, Exhausted) /\
         update (fold_left store (entries rows) [])
                (readlines (universal_newlines raw)) = Some TemplateError /\
         e = Python TemplateError)).

(** A line of a file, with or without line end. *)
Definition line_end_kept (line line' : str) : Prop :=
  (terminated line -> terminated line') /\
  (line <> [] /\ forallb line_char line = true ->
   line' <> [] /\ forallb line_char line' = true).

(** ** The example of the specification, as data *)

Definition sega_rows : list (list str) :=
  [ [txt "Full name"; txt "System"; txt "Retrobat"; txt "Retronas"];
    [txt "Sega 32X"; txt "sega32x"; txt "roms\sega32x"; txt "/roms/sega/sega32x"] ].

Definition sega_record : system_record :=
  {| full_name := txt "Sega 32X";
     src := txt "sega/sega32x";
     retrobat_path := txt "roms\sega32x" |}.

Definition sega_table : mappings := [(txt "sega32x", sega_record)].

(** A line with an old path and no retrobat_rgs field, as fields. *)
Definition sega_fields : list field :=
  [ {| gap := txt "  - { src: "; val := txt "sega/oldpath" |};
    {| gap := txt ", retrobat: "; val := txt "sega32x" |} ].

Definition sega_tail : str := txt ", }" ++ [newline].

Definition sega_line : str := render sega_fields sega_tail.

(** The same line with the path of the table. *)
Definition sega_fields_src : list field :=
  [ {| gap := txt "  - { src: "; val := txt "sega/sega32x" |};
    {| gap := txt ", retrobat: "; val := txt "sega32x" |} ].

(** A line with the marker and no src field. *)
Definition sega_line_no_src : str :=
  txt "  - { retrobat: " ++ quoted (txt "sega32x") ++ txt ", }" ++ [newline].

(** * Properties *)

(** ** Strings *)

Lemma str_eqb_spec (a b : str) : reflect (a = b) (str_eqb a b).
Proof.
  revert b; induction a as [|x a IH]; intros [|y b]; simpl;
    try (constructor; congruence).
  destruct (Ascii.eqb_spec x y) as [->|Hne]; simpl.
  - destruct (IH b) as [->|Hne]; constructor; congruence.
  - constructor; congruence.
Qed.

Lemma str_eqb_refl (a : str) : str_eqb a a = true.
Proof. destruct (str_eqb_spec a a); congruence. Qed.

Lemma str_eqb_eq (a b : str) : str_eqb a b = true <-> a = b.
Proof. destruct (str_eqb_spec a b); split; congruence. Qed.

Lemma str_eqb_neq (a b : str) : str_eqb a b = false <-> a <> b.
Proof. destruct (str_eqb_spec a b); split; congruence. Qed.

Lemma starts_with_app (p r : str) : starts_with p (p ++ r) = true.
Proof.
  induction p as [|x p IH]; simpl; [reflexivity|].
  now rewrite Ascii.eqb_refl.
Qed.

Lemma starts_with_inv (p s : str) :
  starts_with p s = true -> exists r, s = p ++ r.
Proof.
  revert s; induction p as [|x p IH]; intros s H; simpl in *.
  - now exists s.
  - destruct s as [|y s]; [discriminate|].
    apply andb_true_iff in H as [Hxy Hp].
    apply Ascii.eqb_eq in Hxy as ->.
    destruct (IH _ Hp) as [r ->]. now exists r.
Qed.

Lemma starts_with_iff (p s : str) :
  starts_with p s = true <-> exists r, s = p ++ r.
Proof.
  split; [apply starts_with_inv|].
  intros [r ->]; apply starts_with_app.
Qed.

Lemma starts_with_contains (p s : str) :
  starts_with p s = true -> contains p s = true.
Proof. intros H. destruct s; simpl; now rewrite H. Qed.

(** [contains] is the substring relation. *)
Lemma contains_iff (p s : str) :
  contains p s = true <-> exists a b, s = a ++ p ++ b.
Proof.
  split.
  - induction s as [|c s IH]; simpl; intros H.
    + rewrite orb_false_r in H.
      apply starts_with_inv in H as [r Hr]. now exists [], r.
    + apply orb_true_iff in H as [H|H].
      * apply starts_with_inv in H as [r Hr]. now exists [], r.
      * destruct (IH H) as (a & b & ->). now exists (c :: a), b.
  - intros (a & b & ->).
    induction a as [|c a IH].
    + rewrite app_nil_l. apply starts_with_contains, starts_with_app.
    + simpl. rewrite IH. apply orb_true_r.
Qed.

Lemma contains_app_l (p a s : str) :
  contains p s = true -> contains p (a ++ s) = true.
Proof.
  rewrite !contains_iff. intros (x & y & ->).
  exists (a ++ x), y. now rewrite <- app_assoc.
Qed.

Lemma contains_app_r (p s b : str) :
  contains p s = true -> contains p (s ++ b) = true.
Proof.
  rewrite !contains_iff. intros (x & y & ->).
  exists x, (y ++ b). now rewrite <- !app_assoc.
Qed.

(** A string that holds [a ++ p ++ b] holds [p]. *)
Lemma contains_inner (a p b s : str) :
  contains (a ++ p ++ b) s = true -> contains p s = true.
Proof.
  rewrite !contains_iff. intros (x & y & ->).
  exists (x ++ a), (b ++ y). now rewrite <- !app_assoc.
Qed.

(** *** [str.replace] *)

Lemma replace_from_skip (old new a s : str) :
  old <> [] ->
  replace_from old new (length a) (a ++ s) = replace_from old new 0 s.
Proof.
  intros Hold. induction a as [|c a IH]; simpl; [reflexivity|exact IH].
Qed.

Lemma str_replace_nil (old new : str) :
  old <> [] -> str_replace old new [] = [].
Proof. destruct old; [congruence|reflexivity]. Qed.

Lemma str_replace_hit (old new s : str) :
  old <> [] ->
  str_replace old new (old ++ s) = new ++ str_replace old new s.
Proof.
  intros Hold. destruct old as [|c old]; [congruence|].
  unfold str_replace. change ((c :: old) ++ s) with (c :: (old ++ s)).
  cbn [replace_from].
  change (c :: old ++ s) with ((c :: old) ++ s).
  rewrite starts_with_app.
  now rewrite replace_from_skip.
Qed.

Lemma str_replace_miss (old new : str) (c : ascii) (s : str) :
  starts_with old (c :: s) = false ->
  str_replace old new (c :: s) = c :: str_replace old new s.
Proof.
  intros H. unfold str_replace. cbn [replace_from]. now rewrite H.
Qed.

Lemma contains_false_cons (p : str) (c : ascii) (s : str) :
  contains p (c :: s) = false ->
  starts_with p (c :: s) = false /\ contains p s = false.
Proof. simpl. intros H. now apply orb_false_iff in H. Qed.

(** Without an occurrence of [old] the string is returned as it is. *)
Lemma str_replace_absent (old new s : str) :
  contains old s = false -> str_replace old new s = s.
Proof.
  induction s as [|c s IH]; intros H.
  - destruct old; [discriminate|reflexivity].
  - apply contains_false_cons in H as [H1 H2].
    rewrite str_replace_miss by exact H1. now rewrite IH.
Qed.

(** A leading occurrence, and none in the rest: only the prefix goes. *)
Lemma str_replace_prefix_only (old rest : str) :
  old <> [] -> contains old rest = false ->
  str_replace old [] (old ++ rest) = rest.
Proof.
  intros Hold H. rewrite str_replace_hit by exact Hold.
  now rewrite str_replace_absent.
Qed.

(** ** The mapping table *)

Lemma dict_find_set_same (k : str) (v : system_record) (m : mappings) :
  dict_find k (dict_set k v m) = Some v.
Proof.
  induction m as [|[k' v'] m IH]; simpl.
  - now rewrite str_eqb_refl.
  - destruct (str_eqb k k') eqn:E; simpl.
    + now rewrite str_eqb_refl.
    + now rewrite E.
Qed.

Lemma dict_find_set_other (k k0 : str) (v : system_record) (m : mappings) :
  k0 <> k -> dict_find k0 (dict_set k v m) = dict_find k0 m.
Proof.
  intros Hne. induction m as [|[k' v'] m IH]; simpl.
  - apply str_eqb_neq in Hne. now rewrite Hne.
  - destruct (str_eqb_spec k k') as [<-|Hkk']; simpl.
    + apply str_eqb_neq in Hne. now rewrite Hne.
    + destruct (str_eqb k0 k'); [reflexivity|exact IH].
Qed.

Lemma dict_mem_keys (k : str) (m : mappings) :
  dict_mem k m = true <-> In k (dict_keys m).
Proof.
  unfold dict_mem. induction m as [|[k' v'] m IH]; simpl.
  - split; [discriminate|tauto].
  - destruct (str_eqb_spec k k') as [->|Hne].
    + split; auto.
    + rewrite IH. split; [auto|]. intros [H|H]; [congruence|exact H].
Qed.

Lemma dict_find_keys (k : str) (m : mappings) :
  In k (dict_keys m) -> exists v, dict_find k m = Some v.
Proof.
  intros H. apply dict_mem_keys in H. unfold dict_mem in H.
  destruct (dict_find k m) as [v|]; [now exists v|discriminate].
Qed.

Lemma dict_keys_set (k : str) (v : system_record) (m : mappings) :
  dict_keys (dict_set k v m) = add_key k (dict_keys m).
Proof.
  unfold add_key. induction m as [|[k' v'] m IH]; simpl; [reflexivity|].
  destruct (str_eqb k k') eqn:E; simpl.
  - apply str_eqb_eq in E. now subst.
  - rewrite IH. now destruct (existsb (str_eqb k) (dict_keys m)).
Qed.

(** ** The CSV reader *)

Lemma entry_of_short (row : list str) :
  length row < 4 <-> entry_of row = None.
Proof.
  destruct row as [|a [|b [|c [|d row]]]]; simpl; split;
    intros H; try reflexivity; try discriminate; try lia.
Qed.

(** The loop over the rows never raises: the column count is checked
    before the four columns are read. *)
Lemma read_rows_fold (rows : list (list str)) (m : mappings) :
  read_rows rows m = Ok (fold_left store (entries rows) m).
Proof.
  revert m; induction rows as [|row rest IH]; intros m; [reflexivity|].
  cbn [read_rows entries].
  destruct (length row <? 4) eqn:E.
  - apply Nat.ltb_lt in E. apply entry_of_short in E. rewrite E. apply IH.
  - apply Nat.ltb_ge in E.
    destruct row as [|a [|b [|c [|d row]]]]; simpl in E; try lia.
    cbn. apply IH.
Qed.

Lemma entries_app (r1 r2 : list (list str)) :
  entries (r1 ++ r2) = entries r1 ++ entries r2.
Proof.
  induction r1 as [|row r1 IH]; simpl; [reflexivity|].
  destruct (entry_of row); simpl; now rewrite IH.
Qed.

Lemma dict_find_fold_absent (k : str) (es : list (str * system_record))
      (m : mappings) :
  (forall e, In e es -> fst e <> k) ->
  dict_find k (fold_left store es m) = dict_find k m.
Proof.
  revert m; induction es as [|e es IH]; intros m H; simpl; [reflexivity|].
  rewrite IH by (intros e' He'; apply H; now right).
  unfold store. apply dict_find_set_other.
  intros ->. apply (H e); [now left|reflexivity].
Qed.

Lemma first_occurrences_filter (P : str -> bool) (l : list str) :
  first_occurrences (filter P l) = filter P (first_occurrences l).
Proof.
  induction l as [|x l IH]; simpl; [reflexivity|].
  destruct (P x) eqn:E; simpl; rewrite IH; clear IH.
  - f_equal.
    induction (first_occurrences l) as [|y r IHr]; simpl; [reflexivity|].
    destruct (P y) eqn:Ey; destruct (str_eqb x y) eqn:Exy; simpl;
      rewrite ?Ey, ?Exy; simpl; rewrite ?IHr; reflexivity.
  - induction (first_occurrences l) as [|y r IHr]; simpl; [reflexivity|].
    destruct (str_eqb_spec x y) as [<-|Hne]; simpl.
    + rewrite E. exact IHr.
    + destruct (P y); simpl; now rewrite IHr.
Qed.

Lemma filter_twice {A} (P Q : A -> bool) (l : list A) :
  filter P (filter Q l) = filter (fun x => Q x && P x) l.
Proof.
  induction l as [|x l IH]; simpl; [reflexivity|].
  destruct (Q x); simpl; [destruct (P x)|]; now rewrite IH.
Qed.

Lemma filter_all {A} (f : A -> bool) (l : list A) :
  (forall x, f x = true) -> filter f l = l.
Proof.
  intros H. induction l as [|x l IH]; simpl; [reflexivity|].
  now rewrite H, IH.
Qed.

Lemma fold_add_key (ids ks : list str) :
  fold_left (fun acc k => add_key k acc) ids ks
  = ks ++ first_occurrences
            (filter (fun k => negb (existsb (str_eqb k) ks)) ids).
Proof.
  revert ks; induction ids as [|x ids IH]; intros ks; simpl.
  - now rewrite app_nil_r.
  - rewrite IH. unfold add_key.
    destruct (existsb (str_eqb x) ks) eqn:E; simpl; [reflexivity|].
    rewrite <- app_assoc. simpl. do 2 f_equal.
    rewrite <- first_occurrences_filter, filter_twice. f_equal.
    apply filter_ext. intros k.
    rewrite existsb_app. simpl. rewrite orb_false_r, negb_orb.
    f_equal. f_equal.
    destruct (str_eqb_spec x k), (str_eqb_spec k x); congruence.
Qed.

Lemma dict_keys_fold (es : list (str * system_record)) (m : mappings) :
  dict_keys (fold_left store es m)
  = fold_left (fun acc k => add_key k acc) (map fst es) (dict_keys m).
Proof.
  revert m; induction es as [|e es IH]; intros m; simpl; [reflexivity|].
  rewrite IH. unfold store. now rewrite dict_keys_set.
Qed.

Lemma dict_find_app (k : str) (m1 m2 : mappings) :
  dict_find k (m1 ++ m2)
  = match dict_find k m1 with
    | Some v => Some v
    | None => dict_find k m2
    end.
Proof.
  induction m1 as [|[k' v'] m1 IH]; simpl; [reflexivity|].
  now destruct (str_eqb k k').
Qed.

Lemma dict_find_fold (k : str) (es : list (str * system_record))
      (m : mappings) :
  dict_find k (fold_left store es m)
  = match last_entry k es with
    | Some v => Some v
    | None => dict_find k m
    end.
Proof.
  unfold last_entry.
  revert m; induction es as [|[k' v'] es IH]; intros m; simpl; [reflexivity|].
  rewrite IH, dict_find_app. destruct (dict_find k (rev es)); [reflexivity|].
  unfold store; simpl.
  destruct (str_eqb_spec k k') as [->|Hne].
  - apply dict_find_set_same.
  - now apply dict_find_set_other.
Qed.

(** ** The matcher *)

Lemma span_app (f : ascii -> bool) (s : str) :
  fst (span f s) ++ snd (span f s) = s.
Proof.
  induction s as [|c s IH]; simpl; [reflexivity|].
  destruct (f c); simpl; [now rewrite IH|reflexivity].
Qed.

Lemma span_all (f : ascii -> bool) (s : str) :
  forallb f (fst (span f s)) = true.
Proof.
  induction s as [|c s IH]; simpl; [reflexivity|].
  destruct (f c) eqn:E; simpl; [now rewrite E|reflexivity].
Qed.

Lemma span_stop (f : ascii -> bool) (s : str) (c : ascii) (r : str) :
  snd (span f s) = c :: r -> f c = false.
Proof.
  induction s as [|x s IH]; simpl; [discriminate|].
  destruct (f x) eqn:E; simpl; [exact IH|].
  intros H; injection H as -> _. exact E.
Qed.

Lemma span_unique (f : ascii -> bool) (a r : str) :
  forallb f a = true -> stops f r -> span f (a ++ r) = (a, r).
Proof.
  intros Ha Hr. induction a as [|c a IH]; simpl in *.
  - destruct r as [|c r]; simpl in *; [reflexivity|now rewrite Hr].
  - apply andb_true_iff in Ha as [Hc Ha]. rewrite Hc, (IH Ha). reflexivity.
Qed.

(** A starred class never gives characters back when what follows it
    cannot start with a character of the class. *)
Lemma star_match_det (k : cls) (cont : str -> option (list str)) (s : str) :
  (forall c t, cls_ok k c = true -> cont (c :: t) = None) ->
  star_match k cont s
  = option_map (pair (fst (span (cls_ok k) s))) (cont (snd (span (cls_ok k) s))).
Proof.
  intros Hcont. induction s as [|c s IH]; simpl; [reflexivity|].
  destruct (cls_ok k c) eqn:E; simpl; [|reflexivity].
  rewrite IH. destruct (cont (snd (span (cls_ok k) s))); simpl; [reflexivity|].
  now rewrite Hcont.
Qed.

Lemma star_match_sound (k : cls) (cont : str -> option (list str)) :
  (forall t gs, cont t = Some gs -> exists rest, t = concat gs ++ rest) ->
  forall s g gs, star_match k cont s = Some (g, gs) ->
  exists rest, s = g ++ concat gs ++ rest.
Proof.
  intros Hcont. induction s as [|c s IH]; intros g gs H; simpl in H.
  - destruct (cont []) as [gs'|] eqn:E; [|discriminate].
    injection H as <- <-. exact (Hcont _ _ E).
  - assert (Hback : option_map (pair []) (cont (c :: s)) = Some (g, gs) ->
                    exists rest, c :: s = g ++ concat gs ++ rest).
    { destruct (cont (c :: s)) as [gs'|] eqn:E; [|discriminate].
      intros H'; injection H' as <- <-. exact (Hcont _ _ E). }
    destruct (cls_ok k c); [|now apply Hback].
    destruct (star_match k cont s) as [[g' gs']|] eqn:E; [|now apply Hback].
    injection H as <- <-.
    destruct (IH _ _ eq_refl) as [rest ->]. now exists rest.
Qed.

(** A match consumes a prefix of the string: the texts of the items, in
    order. *)
Lemma match_here_sound (r : list item) :
  forall s parts, match_here r s = Some parts ->
  exists rest, s = concat parts ++ rest.
Proof.
  induction r as [|[k|k|k] r IH]; intros s parts H; simpl in H.
  - injection H as <-. now exists s.
  - destruct s as [|c s]; [discriminate|].
    destruct (cls_ok k c); [|discriminate].
    destruct (match_here r s) as [ps|] eqn:E; [|discriminate].
    injection H as <-. destruct (IH _ _ E) as [rest ->]. now exists rest.
  - destruct (star_match k (match_here r) s) as [[g gs]|] eqn:E; [|discriminate].
    injection H as <-. simpl.
    destruct (star_match_sound k _ IH _ _ _ E) as [rest ->].
    exists rest. now rewrite <- app_assoc.
  - destruct s as [|c s]; [discriminate|].
    destruct (cls_ok k c); [|discriminate].
    destruct (star_match k (match_here r) s) as [[g gs]|] eqn:E; [|discriminate].
    injection H as <-. simpl.
    destruct (star_match_sound k _ IH _ _ _ E) as [rest ->].
    exists rest. now rewrite <- app_assoc.
Qed.

Lemma star_match_length (k : cls) (cont : str -> option (list str)) (n : nat) :
  (forall t gs, cont t = Some gs -> length gs = n) ->
  forall s g gs, star_match k cont s = Some (g, gs) -> length gs = n.
Proof.
  intros Hcont. induction s as [|c s IH]; intros g gs H; simpl in H.
  - destruct (cont []) as [gs'|] eqn:E; [|discriminate].
    injection H as _ <-. exact (Hcont _ _ E).
  - assert (Hback : option_map (pair []) (cont (c :: s)) = Some (g, gs) ->
                    length gs = n).
    { destruct (cont (c :: s)) as [gs'|] eqn:E; [|discriminate].
      intros H'; injection H' as _ <-. exact (Hcont _ _ E). }
    destruct (cls_ok k c); [|now apply Hback].
    destruct (star_match k cont s) as [[g' gs']|] eqn:E; [|now apply Hback].
    injection H as _ <-. exact (IH _ _ eq_refl).
Qed.

(** A match has one text for each item of the pattern. *)
Lemma match_here_length (r : list item) :
  forall s parts, match_here r s = Some parts -> length parts = length r.
Proof.
  induction r as [|[k|k|k] r IH]; intros s parts H; simpl in H.
  - now injection H as <-.
  - destruct s as [|c s]; [discriminate|].
    destruct (cls_ok k c); [|discriminate].
    destruct (match_here r s) as [ps|] eqn:E; [|discriminate].
    injection H as <-. simpl. now rewrite (IH _ _ E).
  - destruct (star_match k (match_here r) s) as [[g gs]|] eqn:E; [|discriminate].
    injection H as <-. simpl. now rewrite (star_match_length k _ _ IH _ _ _ E).
  - destruct s as [|c s]; [discriminate|].
    destruct (cls_ok k c); [|discriminate].
    destruct (star_match k (match_here r) s) as [[g gs]|] eqn:E; [|discriminate].
    injection H as <-. simpl. now rewrite (star_match_length k _ _ IH _ _ _ E).
Qed.

(** *** [re.search] *)

Lemma search_from_None (r : list item) (s : str) :
  search_from r s = None <->
  forall a b, s = a ++ b -> match_here r b = None.
Proof.
  induction s as [|c s IH]; simpl.
  - destruct (match_here r []) eqn:E; split; try congruence.
    + intros H. specialize (H [] [] eq_refl). congruence.
    + intros _ a b Hab. symmetry in Hab.
      apply app_eq_nil in Hab as [-> ->]. exact E.
  - destruct (match_here r (c :: s)) eqn:E.
    + split; [discriminate|]. intros H. specialize (H [] _ eq_refl). congruence.
    + destruct (search_from r s) eqn:Es.
      * split; [discriminate|]. intros H. exfalso.
        assert (Hs : Some r0 = None); [|discriminate].
        apply IH. intros a b ->. apply (H (c :: a) b). reflexivity.
      * split; [|reflexivity]. intros _ a b Hab.
        destruct a as [|x a]; simpl in Hab; [now subst|].
        injection Hab as -> ->. destruct IH as [IH _].
        now apply (IH eq_refl a b).
Qed.

Lemma leftmost_tail (r : list item) (c : ascii) (pre rest : str) :
  leftmost r (c :: pre) rest -> leftmost r pre rest.
Proof. intros H p1 p2 -> Hne. now apply (H (c :: p1) p2). Qed.

Lemma leftmost_head (r : list item) (c : ascii) (pre rest : str) :
  leftmost r (c :: pre) rest -> match_here r (c :: pre ++ rest) = None.
Proof. intros H. apply (H [] (c :: pre)); [reflexivity|discriminate]. Qed.

Lemma search_from_intro (r : list item) (pre rest : str) (parts : list str) :
  match_here r rest = Some parts -> leftmost r pre rest ->
  search_from r (pre ++ rest) = Some {| m_pre := pre; m_parts := parts |}.
Proof.
  intros Hm. induction pre as [|c pre IH]; intros Hleft.
  - destruct rest; simpl; now rewrite Hm.
  - simpl. rewrite (leftmost_head _ _ _ _ Hleft).
    now rewrite (IH (leftmost_tail _ _ _ _ Hleft)).
Qed.

Lemma search_from_elim (r : list item) (s : str) (m : re_match) :
  search_from r s = Some m ->
  exists rest,
    s = m_pre m ++ rest /\ match_here r rest = Some (m_parts m) /\
    leftmost r (m_pre m) rest.
Proof.
  assert (Hnil : forall rest, leftmost r [] rest).
  { intros rest p1 p2 Hp Hne. symmetry in Hp.
    apply app_eq_nil in Hp as [_ ->]. congruence. }
  revert m; induction s as [|c s IH]; intros m H; simpl in H.
  - destruct (match_here r []) as [ps|] eqn:E; [|discriminate].
    injection H as <-. exists []. auto.
  - destruct (match_here r (c :: s)) as [ps|] eqn:E.
    + injection H as <-. exists (c :: s). auto.
    + destruct (search_from r s) as [m'|] eqn:Es; [|discriminate].
      injection H as <-. simpl.
      destruct (IH _ eq_refl) as (rest & -> & Hm & Hleft).
      exists rest. repeat split; auto.
      intros p1 p2 Hp Hne. destruct p1 as [|y p1]; simpl in Hp.
      * subst p2. exact E.
      * injection Hp as _ Hp. now apply (Hleft p1 p2).
Qed.

(** *** [re.sub] *)

Lemma sub_from_skip (r : list item) (repl : list str -> str) (a s : str) :
  sub_from r repl (length a) (a ++ s) = sub_from r repl 0 s.
Proof. induction a as [|c a IH]; simpl; [reflexivity|exact IH]. Qed.

Lemma sub_from_miss (r : list item) (repl : list str -> str) (c : ascii) (s : str) :
  match_here r (c :: s) = None ->
  sub_from r repl 0 (c :: s) = c :: sub_from r repl 0 s.
Proof. intros H. cbn [sub_from]. now rewrite H. Qed.

Lemma sub_from_hit (r : list item) (repl : list str -> str) (s rest : str)
      (parts : list str) :
  match_here r s = Some parts -> concat parts <> [] ->
  s = concat parts ++ rest ->
  sub_from r repl 0 s = repl parts ++ sub_from r repl 0 rest.
Proof.
  intros Hm Hne Hs. destruct s as [|c s].
  - symmetry in Hs. apply app_eq_nil in Hs as [Hs _]. congruence.
  - cbn [sub_from]. rewrite Hm. f_equal.
    destruct (concat parts) as [|x g] eqn:E; [congruence|].
    simpl in Hs. injection Hs as _ ->. simpl. apply sub_from_skip.
Qed.

Lemma sub_from_leftmost (r : list item) (repl : list str -> str) (pre rest : str) :
  leftmost r pre rest ->
  sub_from r repl 0 (pre ++ rest) = pre ++ sub_from r repl 0 rest.
Proof.
  induction pre as [|c pre IH]; intros H; [reflexivity|].
  simpl app. rewrite sub_from_miss by exact (leftmost_head _ _ _ _ H).
  now rewrite (IH (leftmost_tail _ _ _ _ H)).
Qed.

(** The first replacement: the text before the leftmost match is kept,
    the match is replaced, and the substitution goes on after it. *)
Lemma sub_from_search (r : list item) (repl : list str -> str) (s : str)
      (m : re_match) :
  search_from r s = Some m -> concat (m_parts m) <> [] ->
  exists rest,
    s = m_pre m ++ concat (m_parts m) ++ rest /\
    sub_from r repl 0 s = m_pre m ++ repl (m_parts m) ++ sub_from r repl 0 rest.
Proof.
  intros Hs Hne.
  destruct (search_from_elim _ _ _ Hs) as (t & -> & Hm & Hleft).
  destruct (match_here_sound _ _ _ Hm) as [rest Ht].
  exists rest. split; [now rewrite Ht|].
  rewrite sub_from_leftmost by exact Hleft.
  now rewrite (sub_from_hit _ _ _ _ _ Hm Hne Ht).
Qed.

Lemma sub_from_no_match (r : list item) (repl : list str -> str) (s : str) :
  search_from r s = None -> sub_from r repl 0 s = s.
Proof.
  induction s as [|c s IH]; simpl.
  - destruct (match_here r []); [discriminate|reflexivity].
  - destruct (match_here r (c :: s)); [discriminate|].
    destruct (search_from r s); [discriminate|].
    intros _. now rewrite IH.
Qed.

(** *** The field patterns *)

Lemma concat_chars (s : str) : concat (chars s) = s.
Proof. induction s as [|c s IH]; simpl; [reflexivity|now rewrite IH]. Qed.

Lemma match_here_lit (name : str) (r : list item) (s : str) :
  match_here (lit name ++ r) s
  = if starts_with name s
    then option_map (app (chars name)) (match_here r (skipn (length name) s))
    else None.
Proof.
  revert s; induction name as [|x name IH]; intros s; simpl.
  - now destruct (match_here r s).
  - destruct s as [|c s]; [reflexivity|].
    destruct (Ascii.eqb x c) eqn:E; simpl; [|reflexivity].
    apply Ascii.eqb_eq in E as ->. rewrite IH.
    destruct (starts_with name s); [|reflexivity].
    now destruct (match_here r (skipn (length name) s)).
Qed.

Lemma is_space_not_quote (c : ascii) : is_space c = true -> Ascii.eqb quote c = false.
Proof.
  intros H. destruct (Ascii.eqb_spec quote c) as [<-|]; [|reflexivity].
  discriminate.
Qed.

Lemma not_quote_eqb (c : ascii) : not_quote c = true -> Ascii.eqb quote c = false.
Proof.
  unfold not_quote. rewrite Ascii.eqb_sym. now destruct (Ascii.eqb quote c).
Qed.

Lemma match_here_one (k : cls) (r : list item) (c : ascii) (s : str) :
  match_here (One k :: r) (c :: s)
  = if cls_ok k c then option_map (cons [c]) (match_here r s) else None.
Proof. reflexivity. Qed.

Lemma match_here_star (k : cls) (r : list item) (s : str) :
  match_here (Star k :: r) s
  = option_map (fun p => fst p :: snd p) (star_match k (match_here r) s).
Proof. reflexivity. Qed.

Lemma match_here_plus (k : cls) (r : list item) (c : ascii) (s : str) :
  match_here (Plus k :: r) (c :: s)
  = if cls_ok k c
    then option_map (fun p => (c :: fst p) :: snd p)
                    (star_match k (match_here r) s)
    else None.
Proof. reflexivity. Qed.

Lemma quote_then_fails (r : list item) (c : ascii) (t : str) :
  Ascii.eqb quote c = false ->
  match_here (One (CChar quote) :: r) (c :: t) = None.
Proof.
  intros H. rewrite match_here_one.
  change (cls_ok (CChar quote) c) with (Ascii.eqb quote c). now rewrite H.
Qed.

Lemma quote_then (r : list item) (t : str) :
  match_here (One (CChar quote) :: r) (quote :: t)
  = option_map (cons [quote]) (match_here r t).
Proof.
  rewrite match_here_one.
  change (cls_ok (CChar quote) quote) with (Ascii.eqb quote quote).
  now rewrite Ascii.eqb_refl.
Qed.

Lemma span_not_quote_stop (s : str) (c : ascii) (t : str) :
  snd (span not_quote s) = c :: t -> c = quote.
Proof.
  intros H. apply span_stop in H. unfold not_quote in H.
  now apply negb_false_iff, Ascii.eqb_eq in H.
Qed.

(** On a field pattern the backtracking matcher does what [field_at]
    does in one pass. *)
Lemma match_here_field (name : str) (plus : bool) (tail : str) (s : str) :
  match_here (field_pattern name plus tail) s
  = option_map (fun x => field_parts name (fst (fst x)) (snd (fst x)) tail)
               (field_at name plus tail s).
Proof.
  unfold field_pattern, field_at. rewrite match_here_lit.
  destruct (starts_with name s); [|reflexivity].
  generalize (skipn (length name) s) as s1. intros s1.
  unfold after_name, field_parts.
  change ([Star CSpace; One (CChar quote); value_item plus; One (CChar quote)]
          ++ lit tail)
    with (Star CSpace :: One (CChar quote) :: value_item plus
          :: One (CChar quote) :: lit tail).
  set (r3 := One (CChar quote) :: lit tail).
  assert (Htail : forall s5,
    match_here r3 (quote :: s5)
    = if starts_with tail s5 then Some ([quote] :: chars tail) else None).
  { intros s5. unfold r3. rewrite quote_then.
    rewrite <- (app_nil_r (lit tail)), match_here_lit.
    destruct (starts_with tail s5); [|reflexivity].
    simpl. now rewrite app_nil_r. }
  assert (Hstar : forall t,
    star_match CNotQuote (match_here r3) t
    = option_map (pair (fst (span not_quote t)))
                 (match_here r3 (snd (span not_quote t)))).
  { intros t. apply star_match_det.
    intros x u Hx. apply quote_then_fails. now apply not_quote_eqb. }
  rewrite match_here_star, star_match_det
    by (intros c t Hc; apply quote_then_fails; now apply is_space_not_quote).
  change (cls_ok CSpace) with is_space.
  destruct (snd (span is_space s1)) as [|c s3]; [reflexivity|].
  destruct (Ascii.eqb_spec quote c) as [<-|Hc].
  2:{ rewrite quote_then_fails; [reflexivity|].
      now destruct (Ascii.eqb_spec quote c). }
  rewrite quote_then.
  destruct plus; unfold value_item.
  - destruct s3 as [|c0 s3]; [reflexivity|].
    rewrite match_here_plus. cbn [span].
    change (cls_ok CNotQuote c0) with (not_quote c0).
    destruct (not_quote c0) eqn:E0; [|reflexivity].
    rewrite Hstar. cbn [fst snd is_nil andb].
    pose proof (span_not_quote_stop s3) as Hstop.
    destruct (snd (span not_quote s3)) as [|c' s5]; [reflexivity|].
    rewrite (Hstop _ _ eq_refl), Htail.
    now destruct (starts_with tail s5).
  - rewrite match_here_star, Hstar. cbn [andb].
    pose proof (span_not_quote_stop s3) as Hstop.
    destruct (snd (span not_quote s3)) as [|c' s5]; [reflexivity|].
    rewrite (Hstop _ _ eq_refl), Htail.
    now destruct (starts_with tail s5).
Qed.

Lemma span_app_split (f : ascii -> bool) (x y : str) :
  span f (x ++ y)
  = if forallb f x
    then (x ++ fst (span f y), snd (span f y))
    else (fst (span f x), snd (span f x) ++ y).
Proof.
  induction x as [|c x IH]; simpl.
  - now destruct (span f y).
  - destruct (f c); simpl; [|reflexivity].
    rewrite IH. now destruct (forallb f x).
Qed.

Lemma span_not_all (f : ascii -> bool) (x : str) :
  forallb f x = false -> snd (span f x) <> [].
Proof.
  induction x as [|c x IH]; simpl; [discriminate|].
  destruct (f c); simpl; [exact IH|discriminate].
Qed.

Lemma all_space_not_quote (ws : str) :
  forallb is_space ws = true -> forallb not_quote ws = true.
Proof.
  induction ws as [|c ws IH]; simpl; [reflexivity|].
  intros H. apply andb_true_iff in H as [Hc Hws].
  rewrite (IH Hws), andb_true_r. unfold not_quote.
  rewrite Ascii.eqb_sym. now rewrite (is_space_not_quote _ Hc).
Qed.

Lemma after_name_intro (plus : bool) (tail ws v rest : str) :
  forallb is_space ws = true -> forallb not_quote v = true ->
  (plus = true -> v <> []) ->
  after_name plus tail (ws ++ quote :: v ++ quote :: tail ++ rest)
  = Some (ws, v, rest).
Proof.
  intros Hws Hv Hplus. unfold after_name.
  rewrite (span_unique is_space ws (quote :: _) Hws) by reflexivity.
  cbn [fst snd]. rewrite Ascii.eqb_refl.
  rewrite (span_unique not_quote v (quote :: _) Hv)
    by (unfold stops, not_quote; now rewrite Ascii.eqb_refl).
  cbn [fst snd].
  replace (plus && is_nil v) with false.
  - rewrite starts_with_app.
    now rewrite skipn_app, skipn_all, Nat.sub_diag.
  - destruct plus; [|reflexivity]. destruct v; [now destruct Hplus|reflexivity].
Qed.

Lemma after_name_elim (plus : bool) (tail s ws v rest : str) :
  after_name plus tail s = Some (ws, v, rest) ->
  s = ws ++ quote :: v ++ quote :: tail ++ rest /\
  forallb is_space ws = true /\ forallb not_quote v = true /\
  (plus = true -> v <> []).
Proof.
  unfold after_name. intros H.
  pose proof (span_app is_space s) as Hs.
  pose proof (span_all is_space s) as Hall.
  destruct (snd (span is_space s)) as [|c s3]; [discriminate|].
  destruct (Ascii.eqb_spec quote c) as [<-|]; [|discriminate].
  pose proof (span_app not_quote s3) as Hs3.
  pose proof (span_all not_quote s3) as Hall3.
  pose proof (span_not_quote_stop s3) as Hstop.
  destruct (snd (span not_quote s3)) as [|c' s5]; [discriminate|].
  specialize (Hstop _ _ eq_refl). subst c'.
  destruct (plus && is_nil (fst (span not_quote s3))) eqn:Ep; [discriminate|].
  destruct (starts_with tail s5) eqn:Et; [|discriminate].
  injection H as <- <- <-.
  apply starts_with_inv in Et as [r ->].
  rewrite skipn_app, skipn_all, Nat.sub_diag. cbn [skipn app].
  repeat split; auto.
  - now rewrite <- Hs, <- Hs3 at 1.
  - intros -> Hnil. rewrite Hnil in Ep. discriminate.
Qed.

Lemma field_at_intro (name : str) (plus : bool) (tail ws v rest : str) :
  forallb is_space ws = true -> forallb not_quote v = true ->
  (plus = true -> v <> []) ->
  field_at name plus tail (name ++ ws ++ quote :: v ++ quote :: tail ++ rest)
  = Some (ws, v, rest).
Proof.
  intros Hws Hv Hplus. unfold field_at.
  rewrite starts_with_app, skipn_app, skipn_all, Nat.sub_diag.
  now apply after_name_intro.
Qed.

Lemma field_at_elim (name : str) (plus : bool) (tail s ws v rest : str) :
  field_at name plus tail s = Some (ws, v, rest) ->
  s = name ++ ws ++ quote :: v ++ quote :: tail ++ rest /\
  forallb is_space ws = true /\ forallb not_quote v = true /\
  (plus = true -> v <> []).
Proof.
  unfold field_at. destruct (starts_with name s) eqn:E; [|discriminate].
  apply starts_with_inv in E as [r ->].
  rewrite skipn_app, skipn_all, Nat.sub_diag. cbn [skipn app].
  intros H. apply after_name_elim in H as (-> & H). now split.
Qed.

(** *** A rewritten field is the first field again *)

(** [w0 ++ [e]] is what is left of the text before a field and of the
    field's name after an earlier occurrence of the name.  When no field
    starts there, none does after the field's value is changed. *)
Lemma after_name_stable (plus : bool) (w0 : str) (e : ascii)
      (ws1 a ws2 b : str) :
  is_space e = false -> not_quote e = true ->
  forallb is_space ws1 = true -> forallb is_space ws2 = true ->
  after_name plus [] (w0 ++ e :: ws1 ++ quote :: a) = None ->
  after_name plus [] (w0 ++ e :: ws2 ++ quote :: b) = None.
Proof.
  intros He1 He2 Hws1 Hws2. unfold after_name.
  rewrite !(span_app_split is_space w0).
  destruct (forallb is_space w0) eqn:Ew0.
  - cbn [span]. rewrite He1. cbn [fst snd].
    rewrite (not_quote_eqb _ He2). reflexivity.
  - cbn [fst snd]. pose proof (span_not_all _ _ Ew0) as Hne.
    destruct (snd (span is_space w0)) as [|c s3]; [congruence|].
    cbn [app]. destruct (Ascii.eqb quote c); [|reflexivity].
    rewrite !(span_app_split not_quote s3).
    destruct (forallb not_quote s3) eqn:Es3.
    + change (e :: ws1 ++ quote :: a) with ((e :: ws1) ++ quote :: a).
      rewrite (span_unique not_quote (e :: ws1) (quote :: a)).
      * cbn [fst snd]. destruct (s3 ++ e :: ws1) eqn:E.
        -- now apply app_eq_nil in E as [_ E].
        -- rewrite andb_false_r. discriminate.
      * cbn [forallb]. now rewrite He2, all_space_not_quote.
      * unfold stops, not_quote. now rewrite Ascii.eqb_refl.
    + cbn [fst snd]. pose proof (span_not_all _ _ Es3) as Hne3.
      destruct (snd (span not_quote s3)) as [|c' s5]; [congruence|].
      cbn [app starts_with].
      now destruct (plus && is_nil (fst (span not_quote s3))).
Qed.

Lemma starts_with_app_long (p x y : str) :
  length p <= length x -> starts_with p (x ++ y) = starts_with p x.
Proof.
  revert x; induction p as [|c p IH]; intros x H; [reflexivity|].
  destruct x as [|d x]; simpl in H; [lia|].
  simpl. rewrite IH by lia. reflexivity.
Qed.

Lemma field_at_before (name : str) (plus : bool) (u ws1 a ws2 b : str) :
  name_end_ok name -> u <> [] ->
  forallb is_space ws1 = true -> forallb is_space ws2 = true ->
  field_at name plus [] (u ++ name ++ ws1 ++ quote :: a) = None ->
  field_at name plus [] (u ++ name ++ ws2 ++ quote :: b) = None.
Proof.
  intros (n0 & e & Hname & He1 & He2) Hu Hws1 Hws2. unfold field_at.
  rewrite !(app_assoc u name).
  rewrite !(starts_with_app_long name (u ++ name))
    by (rewrite length_app; lia).
  destruct (starts_with name (u ++ name)); [|reflexivity].
  rewrite !(skipn_app (length name) (u ++ name)).
  replace (length name - length (u ++ name)) with 0
    by (rewrite length_app; lia).
  cbn [skipn].
  assert (Hw : exists w0, skipn (length name) (u ++ name) = w0 ++ [e]).
  { subst name. exists (skipn (length (n0 ++ [e])) (u ++ n0)).
    rewrite (app_assoc u n0 [e]), skipn_app.
    replace (length (n0 ++ [e]) - length (u ++ n0)) with 0; [reflexivity|].
    destruct u; [congruence|]. rewrite !length_app. simpl. lia. }
  destruct Hw as [w0 ->]. rewrite <- !app_assoc. cbn [app].
  now apply after_name_stable.
Qed.

Lemma field_pattern_None (name : str) (plus : bool) (tail s : str) :
  match_here (field_pattern name plus tail) s = None <->
  field_at name plus tail s = None.
Proof.
  rewrite match_here_field.
  destruct (field_at name plus tail s); simpl; split; congruence.
Qed.

(** The text before the leftmost field holds no field either when the
    field's value is replaced. *)
Lemma leftmost_replace (name : str) (plus : bool) (pre ws1 a ws2 b : str) :
  name_end_ok name ->
  forallb is_space ws1 = true -> forallb is_space ws2 = true ->
  leftmost (field_pattern name plus []) pre (name ++ ws1 ++ quote :: a) ->
  leftmost (field_pattern name plus []) pre (name ++ ws2 ++ quote :: b).
Proof.
  intros Hname Hws1 Hws2 H p1 p2 Hp Hne.
  specialize (H p1 p2 Hp Hne).
  apply field_pattern_None. apply field_pattern_None in H.
  now apply (field_at_before name plus p2 ws1 a ws2 b).
Qed.

(** *** Replacement templates without backslash *)

Lemma plain_app (a b : str) : plain (a ++ b) <-> plain a /\ plain b.
Proof. unfold plain. rewrite forallb_app. apply andb_true_iff. Qed.

Lemma parse_from_plain (groups : nat) (t : str) :
  plain t -> parse_from groups TNormal t = Ok (map PChar t).
Proof.
  unfold plain. induction t as [|c t IH]; [reflexivity|].
  cbn [forallb]. intros H. apply andb_true_iff in H as [Hc Ht].
  cbn [parse_from]. rewrite Hc, (IH Ht). reflexivity.
Qed.

Lemma expand_plain (re : regex) (t : str) (parts : list str) :
  expand re (map PChar t) parts = t.
Proof.
  unfold expand. induction t as [|c t IH]; simpl; [reflexivity|].
  now rewrite IH.
Qed.

Lemma sub_from_ext (r : list item) (f g : list str -> str) :
  (forall parts, f parts = g parts) ->
  forall s n, sub_from r f n s = sub_from r g n s.
Proof.
  intros Hfg. induction s as [|c s IH]; intros n.
  - destruct n; simpl; [|reflexivity].
    destruct (match_here r []); [now rewrite Hfg|reflexivity].
  - destruct n; simpl; [|apply IH].
    destruct (match_here r (c :: s)); [|now rewrite IH].
    rewrite Hfg. f_equal. destruct (length (concat l)); now rewrite IH.
Qed.

(** With a replacement that has no backslash, [re.sub] puts the
    replacement itself in place of each match. *)
Lemma re_sub_plain (re : regex) (repl s : str) :
  plain repl ->
  re_sub re repl s = Ok (sub_from (re_items re) (fun _ => repl) 0 s).
Proof.
  intros H. unfold re_sub, parse_template.
  rewrite parse_from_plain by exact H. cbn [bind Ok].
  f_equal. apply sub_from_ext. intros parts. apply expand_plain.
Qed.

Lemma name_end_ok_nonempty (name : str) : name_end_ok name -> name <> [].
Proof. intros (n0 & e & -> & _). now destruct n0. Qed.

Lemma concat_field_parts (name ws v tail : str) :
  concat (field_parts name ws v tail)
  = name ++ ws ++ quote :: v ++ quote :: tail.
Proof.
  unfold field_parts. rewrite !concat_app, !concat_chars. simpl.
  rewrite <- !app_assoc. cbn [app]. now rewrite <- !app_assoc.
Qed.

Lemma length_chars (s : str) : length (chars s) = length s.
Proof. apply length_map. Qed.

Lemma group1_field (name : str) (value : item) (ws v tail : str) :
  group1 (field_re name value true) (field_parts name ws v tail) = v.
Proof.
  unfold group1, field_re, field_parts. cbn [re_group].
  rewrite skipn_app, length_chars.
  replace (length name + 2 - length name) with 2 by lia.
  rewrite skipn_all2 by (rewrite length_chars; lia).
  simpl. apply app_nil_r.
Qed.

(** After [re.sub] has put [field_text name v] in place of every field
    [name], the first such field of the line starts where it started
    before and holds [v]. *)
Lemma field_rewrite (name : str) (plus : bool) (line v : str) (m : re_match) :
  name_end_ok name ->
  search_from (field_pattern name plus []) line = Some m ->
  forallb not_quote v = true -> (plus = true -> v <> []) ->
  exists rest,
    sub_from (field_pattern name plus []) (fun _ => field_text name v) 0 line
    = m_pre m ++ field_text name v ++ rest /\
    search_from (field_pattern name plus []) (m_pre m ++ field_text name v ++ rest)
    = Some {| m_pre := m_pre m; m_parts := field_parts name [" "%char] v [] |}.
Proof.
  intros Hname Hs Hv Hplus.
  destruct (search_from_elim _ _ _ Hs) as (t & Hline & Hm & Hleft).
  rewrite match_here_field in Hm.
  destruct (field_at name plus [] t) as [[[ws0 v0] rest0]|] eqn:Ef;
    [|discriminate].
  cbn [option_map fst snd] in Hm. injection Hm as Hparts.
  apply field_at_elim in Ef as (Ht & Hws0 & Hv0 & _). cbn [app] in Ht.
  assert (Hne : concat (m_parts m) <> []).
  { rewrite <- Hparts, concat_field_parts.
    pose proof (name_end_ok_nonempty _ Hname). now destruct name. }
  destruct (sub_from_search _ (fun _ => field_text name v) _ _ Hs Hne)
    as (rest & _ & Hsub).
  exists (sub_from (field_pattern name plus []) (fun _ => field_text name v) 0 rest).
  split; [exact Hsub|].
  set (X := sub_from _ _ 0 rest).
  assert (Htext : field_text name v ++ X
                  = name ++ [" "%char] ++ quote :: v ++ quote :: [] ++ X).
  { unfold field_text, quoted. rewrite <- !app_assoc. cbn [app].
    now rewrite <- app_assoc. }
  rewrite Htext.
  apply search_from_intro.
  - rewrite match_here_field, field_at_intro; auto.
  - subst t.
    now apply (leftmost_replace name plus _ ws0 (v0 ++ quote :: rest0)).
Qed.

(** ** The CSV reader: claims *)

Lemma entry_of_nth (row : list str) (e : str * system_record) :
  entry_of row = Some e -> 4 <= length row /\ nth_error row 1 = Some (fst e).
Proof.
  destruct row as [|a [|b [|c [|d row]]]]; simpl; try discriminate.
  intros H; injection H as <-. simpl. split; [lia|reflexivity].
Qed.

Lemma entries_keys (rows : list (list str)) (e : str * system_record) :
  In e (entries rows) ->
  exists row, In row rows /\ 4 <= length row /\ nth_error row 1 = Some (fst e).
Proof.
  induction rows as [|row rows IH]; simpl; [tauto|].
  destruct (entry_of row) as [e'|] eqn:E.
  - intros [<-|H].
    + exists row. split; [now left|]. now apply entry_of_nth.
    + destruct (IH H) as (r & Hr & Hl). exists r. split; [now right|exact Hl].
  - intros H. destruct (IH H) as (r & Hr & Hl).
    exists r. split; [now right|exact Hl].
Qed.

(** C1, as amended.  A row with four or more columns that is the last
    one for its system id is stored with every occurrence of "/roms/"
    removed from its fourth column, wherever it occurs; when the column
    starts with "/roms/" and holds no further occurrence, that is the
    column without its leading "/roms/". *)
Theorem read_csv_src
        (header : list str) (before after : list (list str))
        (name id ext path : str) (more : list str) :
  (forall r, In r after -> 4 <= length r -> nth_error r 1 <> Some id) ->
  exists m rec,
    read_csv_mappings
      (header :: before ++ (name :: id :: ext :: path :: more) :: after) = Ok m /\
    dict_find id m = Some rec /\
    src rec = str_replace roms_prefix [] path /\
    (forall rest, path = roms_prefix ++ rest ->
                  contains roms_prefix rest = false -> src rec = rest).
Proof.
  intros Hafter. cbn [read_csv_mappings].
  rewrite read_rows_fold, entries_app. cbn [entries entry_of].
  rewrite fold_left_app. cbn [fold_left].
  set (rec := {| full_name := name;
                 src := str_replace roms_prefix [] path;
                 retrobat_path := ext |}).
  eexists. exists rec. split; [reflexivity|].
  split; [|split; [reflexivity|]].
  - rewrite dict_find_fold_absent.
    + unfold store. cbn [fst snd]. apply dict_find_set_same.
    + intros e He Hk. destruct (entries_keys _ _ He) as (r & Hr & Hlen & Hnth).
      apply (Hafter r Hr Hlen). now rewrite Hnth, Hk.
  - intros rest -> Hrest. cbn [src rec].
    apply str_replace_prefix_only; [discriminate|exact Hrest].
Qed.

Lemma read_csv_src_witness :
  exists m rec,
    read_csv_mappings
      [ [txt "Full name"; txt "System"; txt "Retrobat"; txt "Retronas"];
        [txt "Sega 32X"; txt "sega32x"; txt "roms\sega32x"; txt "/roms/sega/sega32x"] ]
    = Ok m /\
    dict_find (txt "sega32x") m = Some rec /\
    src rec = str_replace roms_prefix [] (txt "/roms/sega/sega32x") /\
    (forall rest, txt "/roms/sega/sega32x" = roms_prefix ++ rest ->
                  contains roms_prefix rest = false -> src rec = rest).
Proof.
  apply (read_csv_src
           [txt "Full name"; txt "System"; txt "Retrobat"; txt "Retronas"]
           [] [] (txt "Sega 32X") (txt "sega32x") (txt "roms\sega32x")
           (txt "/roms/sega/sega32x") []).
  intros r [].
Defined.

(** C1 as stated fails: a second "/roms/" inside the path is removed as
    well, so the stored path is not the column without its leading
    prefix. *)
Lemma read_csv_src_counterexample :
  exists m rec,
    read_csv_mappings
      [ [txt "Full name"; txt "System"; txt "Retrobat"; txt "Retronas"];
        [txt "Disc"; txt "disc"; txt "roms\disc"; txt "/roms/a/roms/b"] ]
    = Ok m /\
    dict_find (txt "disc") m = Some rec /\
    src rec = txt "ab" /\
    strip_leading roms_prefix (txt "/roms/a/roms/b") = txt "a/roms/b" /\
    src rec <> strip_leading roms_prefix (txt "/roms/a/roms/b").
Proof.
  eexists. eexists. split; [reflexivity|].
  split; [reflexivity|]. split; [reflexivity|]. split; [reflexivity|].
  discriminate.
Qed.

(** The loop over the rows that [csv.reader] has yielded raises nothing,
    whatever the rows hold: rows of fewer than four columns are skipped
    and every other row is stored. *)
Lemma read_csv_rows_stored (header : list str) (rows : list (list str)) :
  exists m,
    read_csv_mappings (header :: rows) = Ok m /\
    m = fold_left store (entries rows) [] /\
    read_csv_mappings
      (header :: filter (fun row => negb (length row <? 4)) rows) = Ok m.
Proof.
  cbn [read_csv_mappings]. rewrite !read_rows_fold.
  eexists. split; [reflexivity|]. split; [reflexivity|].
  do 2 f_equal. induction rows as [|row rows IH]; [reflexivity|].
  cbn [filter entries].
  destruct (length row <? 4) eqn:E; cbn [negb].
  - apply Nat.ltb_lt, entry_of_short in E. now rewrite E.
  - cbn [entries]. destruct (entry_of row); now rewrite IH.
Qed.

(** C5 as stated fails: on a CSV without any row [next(reader)] raises
    StopIteration, and nothing in either script catches it. *)
Lemma empty_csv_counterexample :
  read_csv_mappings [] = Raise StopIteration /\
  RGS.main (Some []) (Some (txt "x")) = Raise StopIteration /\
  SRC.main (Some []) (Some (txt "x")) = Raise StopIteration.
Proof. repeat split. Qed.

(** ** Variant A: which id a line is matched to *)

Lemma find_first_iff {A} (f : A -> bool) (l : list A) (x : A) :
  find f l = Some x <->
  exists l1 l2, l = l1 ++ x :: l2 /\ f x = true /\
                forall y, In y l1 -> f y = false.
Proof.
  split.
  - induction l as [|a l IH]; simpl; [discriminate|].
    destruct (f a) eqn:E.
    + intros H; injection H as <-. exists [], l. repeat split; auto.
      intros y [].
    + intros H. destruct (IH H) as (l1 & l2 & -> & Hx & Hl1).
      exists (a :: l1), l2. repeat split; auto.
      intros y [<-|Hy]; auto.
  - intros (l1 & l2 & -> & Hx & Hl1).
    induction l1 as [|a l1 IH]; simpl.
    + now rewrite Hx.
    + rewrite (Hl1 a) by now left. apply IH. intros y Hy. apply Hl1. now right.
Qed.

Lemma find_same {A} (f g : A -> bool) (l : list A) :
  (forall x, f x = g x) -> find f l = find g l.
Proof.
  intros H. induction l as [|x l IH]; simpl; [reflexivity|].
  now rewrite H, IH.
Qed.

(** The inner loop returns the first id, in the order of the keys, whose
    test succeeds; the lookups in it never fail. *)
Lemma find_match_find (m : mappings) (line : str) (keys : list str) :
  (forall k, In k keys -> In k (dict_keys m)) ->
  RGS.find_match m keys line = Ok (find (RGS.hit m line) keys).
Proof.
  induction keys as [|k keys IH]; intros Hkeys; [reflexivity|].
  cbn [RGS.find_match find]. unfold RGS.hit at 1.
  destruct (contains (RGS.marker_text k) line); [reflexivity|].
  destruct (dict_find_keys k m) as [rec Hrec]; [apply Hkeys; now left|].
  unfold dict_get. rewrite Hrec. cbn [bind Ok orb].
  destruct (contains (RGS.src_text (src rec)) line); [reflexivity|].
  apply IH. intros k' Hk'. apply Hkeys. now right.
Qed.

Lemma find_match_keys (m : mappings) (line : str) :
  RGS.find_match m (dict_keys m) line
  = Ok (find (RGS.hit m line) (dict_keys m)).
Proof. now apply find_match_find. Qed.

(** C2, as amended.  The inner loop selects id [k] for a line exactly
    when [k] is the first id, in the iteration order of the mapping, for
    which the line holds the marker text of [k] (the retrobat field with
    [k] in quotes) or the source text of [k] (the src field with the
    normalized path of [k] in quotes).  The retrobat_rgs field takes no
    part in the matching.  A line for which the empty id is selected is
    then left as it is, like a line without match. *)
Theorem rgs_match_first (m : mappings) (line : str) :
  (forall k,
      RGS.find_match m (dict_keys m) line = Ok (Some k) <->
      exists before after,
        dict_keys m = before ++ k :: after /\
        RGS.hit m line k = true /\
        forall k', In k' before -> RGS.hit m line k' = false) /\
  (RGS.find_match m (dict_keys m) line = Ok (Some []) ->
   RGS.patch_line m line = Ok (line, 0, [])).
Proof.
  split.
  - intros k. rewrite find_match_keys. rewrite <- find_first_iff.
    unfold Ok. split; [now intros [= ->]|now intros ->].
  - intros H. unfold RGS.patch_line. now rewrite H.
Qed.

Lemma rgs_match_first_witness :
  RGS.find_match
    [(txt "a", {| full_name := txt "A"; src := txt "p"; retrobat_path := [] |});
     (txt "b", {| full_name := txt "B"; src := txt "q"; retrobat_path := [] |})]
    [txt "a"; txt "b"]
    (txt "src: " ++ quoted (txt "q") ++ txt ", retrobat: " ++ quoted (txt "b"))
  = Ok (Some (txt "b")).
Proof.
  apply (proj1 (rgs_match_first
           [(txt "a", {| full_name := txt "A"; src := txt "p"; retrobat_path := [] |});
            (txt "b", {| full_name := txt "B"; src := txt "q"; retrobat_path := [] |})]
           (txt "src: " ++ quoted (txt "q") ++ txt ", retrobat: " ++ quoted (txt "b")))
           (txt "b")).
  exists [txt "a"], []. split; [reflexivity|]. split; [vm_compute; reflexivity|].
  intros k' [<-|[]]. vm_compute. reflexivity.
Defined.

(** C2 as stated fails: a line whose retrobat_rgs field holds a known id
    is not matched to it when neither the retrobat field nor the src
    field point to that id. *)
Lemma rgs_field_counterexample :
  let m := [(txt "a", {| full_name := txt "A"; src := txt "p";
                         retrobat_path := [] |})] in
  let line := txt "retrobat_rgs: " ++ quoted (txt "a")
              ++ txt ", src: " ++ quoted (txt "zz") in
  search_group1 RGS.rgs_re line = Some (txt "a") /\
  contains (RGS.rgs_text (txt "a")) line = true /\
  RGS.find_match m (dict_keys m) line = Ok None /\
  RGS.patch_line m line = Ok (line, 0, []).
Proof. repeat split. Qed.

(** C10.  The keys of the mapping are the ids of the rows with four or
    more columns in the order of their first occurrence, the record of an
    id is that of its last row, and the id a line is matched to is the
    first key, in that order, whose marker text or source text occurs in
    the line.  The reader and the matching are functions of the rows and
    of the line. *)
Theorem rgs_match_deterministic
        (header : list str) (rows : list (list str)) (line : str) :
  exists m,
    read_csv_mappings (header :: rows) = Ok m /\
    dict_keys m = first_occurrences (map fst (entries rows)) /\
    (forall k, dict_find k m = last_entry k (entries rows)) /\
    RGS.find_match m (dict_keys m) line
    = Ok (find (fun k =>
                  contains (RGS.marker_text k) line ||
                  match last_entry k (entries rows) with
                  | Some rec => contains (RGS.src_text (src rec)) line
                  | None => false
                  end)
               (first_occurrences (map fst (entries rows)))).
Proof.
  cbn [read_csv_mappings]. rewrite read_rows_fold.
  eexists. split; [reflexivity|].
  set (m := fold_left store (entries rows) []).
  assert (Hkeys : dict_keys m = first_occurrences (map fst (entries rows))).
  { unfold m. rewrite dict_keys_fold, fold_add_key. cbn [dict_keys map app].
    f_equal. now apply filter_all. }
  assert (Hfind : forall k, dict_find k m = last_entry k (entries rows)).
  { intros k. unfold m. rewrite dict_find_fold.
    now destruct (last_entry k (entries rows)). }
  split; [exact Hkeys|]. split; [exact Hfind|].
  rewrite find_match_keys, Hkeys. f_equal.
  apply find_same. intros k. unfold RGS.hit. now rewrite Hfind.
Qed.

(** ** Lines that match no known id *)

Lemma find_none_iff {A} (f : A -> bool) (l : list A) :
  find f l = None <-> forall x, In x l -> f x = false.
Proof.
  induction l as [|a l IH]; simpl.
  - split; [intros _ x []|reflexivity].
  - destruct (f a) eqn:E.
    + split; [discriminate|]. intros H. rewrite (H a) in E; [discriminate|now left].
    + rewrite IH. split.
      * intros H x [<-|Hx]; auto.
      * intros H x Hx. apply H. now right.
Qed.

Lemma rgs_unmatched_find (m : mappings) (line : str) :
  RGS.unmatched m line <-> RGS.find_match m (dict_keys m) line = Ok None.
Proof.
  rewrite find_match_keys. unfold RGS.unmatched. rewrite <- find_none_iff.
  unfold Ok. split; [now intros ->|now intros [= ->]].
Qed.

Lemma rgs_patch_unmatched (m : mappings) (line : str) :
  RGS.unmatched m line -> RGS.patch_line m line = Ok (line, 0, []).
Proof.
  intros H. apply rgs_unmatched_find in H.
  unfold RGS.patch_line. now rewrite H.
Qed.

Lemma src_patch_unmatched (m : mappings) (i : nat) (line : str) :
  SRC.unmatched m line -> SRC.patch_line m i line = Ok (line, 0, []).
Proof.
  unfold SRC.unmatched, SRC.patch_line.
  destruct (search_group1 SRC.marker_re line) as [k|]; [|reflexivity].
  now intros ->.
Qed.

(** The loop over the lines patches each line where it stands. *)
Lemma rgs_patch_lines_nth (m : mappings) (lines lines' : list str) (n : nat)
      (ev : list RGS.event) (i : nat) (line : str) :
  RGS.patch_lines m lines = Ok (lines', n, ev) ->
  nth_error lines i = Some line ->
  exists line' n' ev',
    RGS.patch_line m line = Ok (line', n', ev') /\
    nth_error lines' i = Some line'.
Proof.
  revert lines' n ev i; induction lines as [|l lines IH];
    intros lines' n ev i H Hi.
  - destruct i; discriminate.
  - cbn [RGS.patch_lines] in H.
    destruct (RGS.patch_line m l) as [e|[[l' n1] ev1]] eqn:E1; [discriminate|].
    destruct (RGS.patch_lines m lines) as [e|[[ls' n2] ev2]] eqn:E2;
      [discriminate|].
    cbn in H. injection H as <- <- <-.
    destruct i as [|i]; simpl in Hi.
    + injection Hi as <-. now exists l', n1, ev1.
    + exact (IH _ _ _ _ eq_refl Hi).
Qed.

Lemma src_patch_lines_nth (m : mappings) (lines lines' : list str) (n : nat)
      (ev : list SRC.event) (j i : nat) (line : str) :
  SRC.patch_lines m j lines = Ok (lines', n, ev) ->
  nth_error lines i = Some line ->
  exists line' n' ev',
    SRC.patch_line m (j + i) line = Ok (line', n', ev') /\
    nth_error lines' i = Some line'.
Proof.
  revert lines' n ev j i; induction lines as [|l lines IH];
    intros lines' n ev j i H Hi.
  - destruct i; discriminate.
  - cbn [SRC.patch_lines] in H.
    destruct (SRC.patch_line m j l) as [e|[[l' n1] ev1]] eqn:E1; [discriminate|].
    destruct (SRC.patch_lines m (S j) lines) as [e|[[ls' n2] ev2]] eqn:E2;
      [discriminate|].
    cbn in H. injection H as <- <- <-.
    destruct i as [|i]; simpl in Hi.
    + injection Hi as <-. rewrite Nat.add_0_r. now exists l', n1, ev1.
    + destruct (IH _ _ _ _ _ E2 Hi) as (line' & n' & ev' & Hp & Hn).
      exists line', n', ev'. split; [|exact Hn].
      now replace (j + S i) with (S j + i) by lia.
Qed.

Lemma rgs_update_written (m : mappings) (lines : list str) (r : RGS.report) :
  RGS.update_yaml_file m lines = Ok r ->
  RGS.patch_lines m lines
  = Ok (RGS.written r, RGS.updated_count r, RGS.printed r) /\
  RGS.not_found r = RGS.unresolved m (concat (RGS.written r)).
Proof.
  unfold RGS.update_yaml_file.
  destruct (RGS.patch_lines m lines) as [e|[[ls n] ev]]; [discriminate|].
  cbn. intros H; injection H as <-. now split.
Qed.

Lemma src_update_written (m : mappings) (lines : list str) (r : SRC.report) :
  SRC.update_yaml_file m lines = Ok r ->
  SRC.patch_lines m 0 lines
  = Ok (SRC.written r, SRC.updated_count r, SRC.printed r) /\
  SRC.not_found r = SRC.unresolved m (concat (SRC.written r)).
Proof.
  unfold SRC.update_yaml_file.
  destruct (SRC.patch_lines m 0 lines) as [e|[[ls n] ev]]; [discriminate|].
  cbn. intros H; injection H as <-. now split.
Qed.

(** C7.  A line that matches no known system id is returned as it is,
    with no count and nothing printed, in both variants; in the file
    written back it stands unchanged at its place. *)
Theorem unmatched_line_unmodified (m : mappings) :
  (forall line, RGS.unmatched m line ->
                RGS.patch_line m line = Ok (line, 0, [])) /\
  (forall i line, SRC.unmatched m line ->
                  SRC.patch_line m i line = Ok (line, 0, [])) /\
  (forall lines r i line,
      RGS.update_yaml_file m lines = Ok r ->
      nth_error lines i = Some line -> RGS.unmatched m line ->
      nth_error (RGS.written r) i = Some line) /\
  (forall lines r i line,
      SRC.update_yaml_file m lines = Ok r ->
      nth_error lines i = Some line -> SRC.unmatched m line ->
      nth_error (SRC.written r) i = Some line).
Proof.
  split; [apply rgs_patch_unmatched|].
  split; [intros i line; apply src_patch_unmatched|].
  split.
  - intros lines r i line Hr Hi Hun.
    apply rgs_update_written in Hr as [Hr _].
    destruct (rgs_patch_lines_nth _ _ _ _ _ _ _ Hr Hi) as (l' & n' & ev' & Hp & Hn).
    rewrite (rgs_patch_unmatched _ _ Hun) in Hp. injection Hp as <- _ _.
    exact Hn.
  - intros lines r i line Hr Hi Hun.
    apply src_update_written in Hr as [Hr _].
    destruct (src_patch_lines_nth _ _ _ _ _ _ _ _ Hr Hi) as (l' & n' & ev' & Hp & Hn).
    rewrite (src_patch_unmatched _ _ _ Hun) in Hp. injection Hp as <- _ _.
    exact Hn.
Qed.

Lemma unmatched_line_unmodified_witness :
  RGS.patch_line
    [(txt "a", {| full_name := txt "A"; src := txt "p"; retrobat_path := [] |})]
    (txt "# systems known to RetroNAS")
  = Ok (txt "# systems known to RetroNAS", 0, []) /\
  SRC.patch_line
    [(txt "a", {| full_name := txt "A"; src := txt "p"; retrobat_path := [] |})]
    3 (txt "  - { src: " ++ quoted (txt "q") ++ txt ", retrobat: "
       ++ quoted (txt "other") ++ txt " }")
  = Ok (txt "  - { src: " ++ quoted (txt "q") ++ txt ", retrobat: "
        ++ quoted (txt "other") ++ txt " }", 0, []).
Proof.
  split.
  - apply (proj1 (unmatched_line_unmodified _)).
    intros k [<-|[]]. vm_compute. reflexivity.
  - apply (proj1 (proj2 (unmatched_line_unmodified _))).
    vm_compute. reflexivity.
Defined.

(** ** The reporter and the exit status *)

Lemma concat_readlines (s : str) : concat (readlines s) = s.
Proof.
  induction s as [|c s IH]; [reflexivity|].
  cbn [readlines]. destruct (Ascii.eqb c newline).
  - cbn [concat app]. now rewrite IH.
  - destruct (readlines s) as [|l ls]; cbn [concat app] in *; now rewrite <- IH.
Qed.

(** An id that does not occur in a text is in no quoted field of it. *)
Lemma absent_id_absent_field (prefix k text : str) :
  contains k text = false -> contains (prefix ++ quoted k) text = false.
Proof.
  intros H. destruct (contains (prefix ++ quoted k) text) eqn:E; [|reflexivity].
  unfold quoted in E. change (quote :: k ++ [quote]) with ([quote] ++ k ++ [quote]) in E.
  rewrite app_assoc in E. apply contains_inner in E. congruence.
Qed.

Lemma rgs_unresolved_iff (m : mappings) (text k : str) :
  In k (RGS.unresolved m text) <->
  In k (dict_keys m) /\ contains (RGS.rgs_text k) text = false.
Proof.
  unfold RGS.unresolved. rewrite filter_In, negb_true_iff. reflexivity.
Qed.

Lemma src_unresolved_iff (m : mappings) (text k : str) :
  In k (SRC.unresolved m text) <->
  In k (dict_keys m) /\ contains (SRC.marker_text k) text = false.
Proof.
  unfold SRC.unresolved. rewrite filter_In, negb_true_iff. reflexivity.
Qed.

Lemma filter_nil_iff {A} (f : A -> bool) (l : list A) :
  filter f l = [] <-> forall x, In x l -> f x = false.
Proof.
  induction l as [|a l IH]; simpl.
  - split; [intros _ x []|reflexivity].
  - destruct (f a) eqn:E.
    + split; [discriminate|]. intros H. rewrite (H a) in E; [discriminate|now left].
    + rewrite IH. split.
      * intros H x [<-|Hx]; auto.
      * intros H x Hx. apply H. now right.
Qed.

Lemma rgs_main_status (reader : list (list str)) (text : str) (m : mappings)
      (r : RGS.report) :
  read_csv_mappings reader = Ok m ->
  RGS.update_yaml_file m (readlines text) = Ok r ->
  RGS.main (Some reader) (Some text)
  = Ok (match RGS.not_found r with [] => 0 | _ :: _ => 1 end).
Proof.
  intros Hm Hr. unfold RGS.main. rewrite Hm. cbn [bind Ok]. rewrite Hr.
  cbn [bind Ok]. now destruct (RGS.not_found r).
Qed.

Lemma src_main_status (reader : list (list str)) (text : str) (m : mappings)
      (r : SRC.report) :
  read_csv_mappings reader = Ok m ->
  SRC.update_yaml_file m (readlines text) = Ok r ->
  SRC.main (Some reader) (Some text)
  = Ok (match SRC.not_found r with [] => 0 | _ :: _ => 1 end).
Proof.
  intros Hm Hr. unfold SRC.main. rewrite Hm. cbn [bind Ok]. rewrite Hr.
  cbn [bind Ok]. now destruct (SRC.not_found r).
Qed.

(** C8.  When the mapping was read and the patch pass went through: a
    known id that occurs nowhere in the text written back is in the
    unresolved report and the exit status is 1; when the expected field
    of every known id is in that text, the status is 0.  A missing input
    file gives status 1.  This holds for both scripts. *)
Theorem unresolved_status (reader : list (list str)) (text : str) (m : mappings) :
  read_csv_mappings reader = Ok m ->
  (forall r, RGS.update_yaml_file m (readlines text) = Ok r ->
     (forall k, In k (dict_keys m) ->
                contains k (concat (RGS.written r)) = false ->
                In k (RGS.not_found r) /\
                RGS.main (Some reader) (Some text) = Ok 1) /\
     ((forall k, In k (dict_keys m) ->
                 contains (RGS.rgs_text k) (concat (RGS.written r)) = true) ->
      RGS.not_found r = [] /\ RGS.main (Some reader) (Some text) = Ok 0)) /\
  (forall r, SRC.update_yaml_file m (readlines text) = Ok r ->
     (forall k, In k (dict_keys m) ->
                contains k (concat (SRC.written r)) = false ->
                In k (SRC.not_found r) /\
                SRC.main (Some reader) (Some text) = Ok 1) /\
     ((forall k, In k (dict_keys m) ->
                 contains (SRC.marker_text k) (concat (SRC.written r)) = true) ->
      SRC.not_found r = [] /\ SRC.main (Some reader) (Some text) = Ok 0)) /\
  RGS.main None (Some text) = Ok 1 /\ RGS.main (Some reader) None = Ok 1 /\
  SRC.main None (Some text) = Ok 1 /\ SRC.main (Some reader) None = Ok 1.
Proof.
  intros Hm. split; [|split; [|now repeat split]].
  - intros r Hr. rewrite (rgs_main_status _ _ _ _ Hm Hr).
    destruct (rgs_update_written _ _ _ Hr) as [_ Hnf]. split.
    + intros k Hk Habs.
      assert (Hin : In k (RGS.not_found r)).
      { rewrite Hnf. apply rgs_unresolved_iff. split; [exact Hk|].
        now apply absent_id_absent_field. }
      split; [exact Hin|]. destruct (RGS.not_found r); [destruct Hin|reflexivity].
    + intros Hall.
      assert (Hnil : RGS.not_found r = []).
      { rewrite Hnf. apply filter_nil_iff. intros k Hk.
        now rewrite (Hall k Hk). }
      now rewrite Hnil.
  - intros r Hr. rewrite (src_main_status _ _ _ _ Hm Hr).
    destruct (src_update_written _ _ _ Hr) as [_ Hnf]. split.
    + intros k Hk Habs.
      assert (Hin : In k (SRC.not_found r)).
      { rewrite Hnf. apply src_unresolved_iff. split; [exact Hk|].
        now apply absent_id_absent_field. }
      split; [exact Hin|]. destruct (SRC.not_found r); [destruct Hin|reflexivity].
    + intros Hall.
      assert (Hnil : SRC.not_found r = []).
      { rewrite Hnf. apply filter_nil_iff. intros k Hk.
        now rewrite (Hall k Hk). }
      now rewrite Hnil.
Qed.
Lemma unresolved_status_witness :
  let reader :=
    [ [txt "Full name"; txt "System"; txt "Retrobat"; txt "Retronas"];
      [txt "Sega 32X"; txt "sega32x"; txt "roms\sega32x"; txt "/roms/sega/sega32x"];
      [txt "Atari 2600"; txt "atari2600"; txt "roms\atari2600"; txt "/roms/atari/2600"] ] in
  let text := txt "  - { src: " ++ quoted (txt "sega/old") ++ txt ", retrobat: "
              ++ quoted (txt "sega32x") ++ txt ", }" ++ [newline] in
  RGS.main (Some reader) (Some text) = Ok 1 /\
  SRC.main (Some reader) (Some text) = Ok 1.
Proof.
  intros reader text.
  pose (m := fold_left store (entries (tl reader)) []).
  assert (Hm : read_csv_mappings reader = Ok m) by (vm_compute; reflexivity).
  pose (rA := match RGS.update_yaml_file m (readlines text) with
              | inr r => r
              | inl _ => RGS.Build_report [] 0 [] []
              end).
  pose (rB := match SRC.update_yaml_file m (readlines text) with
              | inr r => r
              | inl _ => SRC.Build_report [] 0 [] []
              end).
  assert (HrA : RGS.update_yaml_file m (readlines text) = Ok rA)
    by (vm_compute; reflexivity).
  assert (HrB : SRC.update_yaml_file m (readlines text) = Ok rB)
    by (vm_compute; reflexivity).
  pose proof (unresolved_status reader text m Hm) as (HA & HB & _).
  split.
  - refine (proj2 (proj1 (HA rA HrA) (txt "atari2600") _ _)).
    + right; left; reflexivity.
    + vm_compute; reflexivity.
  - refine (proj2 (proj1 (HB rB HrB) (txt "atari2600") _ _)).
    + right; left; reflexivity.
    + vm_compute; reflexivity.
Defined.

(** ** Variant A: the count and the retrobat_rgs field *)

(** The example of the spec: the CSV row of the Sega 32X and a line with
    an old path and the marker field. *)
Example sega32x_example :
  exists m,
    read_csv_mappings
      [ [txt "Full name"; txt "System"; txt "Retrobat"; txt "Retronas"];
        [txt "Sega 32X"; txt "sega32x"; txt "roms\sega32x";
         txt "/roms/sega/sega32x"] ] = Ok m /\
    option_map src (dict_find (txt "sega32x") m) = Some (txt "sega/sega32x") /\
    RGS.patch_line m
      (txt "  - { src: " ++ quoted (txt "sega/oldpath") ++ txt ", retrobat: "
       ++ quoted (txt "sega32x") ++ txt ", mister: " ++ quoted (txt "S32X")
       ++ txt " }")
    = Ok (txt "  - { src: " ++ quoted (txt "sega/sega32x") ++ txt ", retrobat: "
          ++ quoted (txt "sega32x") ++ txt ", retrobat_rgs: "
          ++ quoted (txt "sega32x") ++ txt ", mister: " ++ quoted (txt "S32X")
          ++ txt " }",
          1, [RGS.Added (txt "sega32x")]).
Proof. eexists. split; [reflexivity|]. vm_compute. repeat split. Qed.

(** C3: the defect.  The line is matched, has a src field and no
    retrobat_rgs field, and holds the retrobat field without a comma
    after its value: nothing is inserted, the line stays as it is, and
    yet the count goes up and an addition is printed. *)
Theorem rgs_added_without_insertion :
  let m := [(txt "a", {| full_name := txt "A"; src := txt "p";
                         retrobat_path := [] |})] in
  let line := txt "  - { src: " ++ quoted (txt "p") ++ txt ", retrobat: "
              ++ quoted (txt "a") ++ txt " }" ++ [newline] in
  search_group1 RGS.rgs_re line = None /\
  re_search RGS.marker_re line = None /\
  RGS.patch_line m line = Ok (line, 1, [RGS.Added (txt "a")]).
Proof. vm_compute. repeat split. Qed.

(** What one turn of the loop does with a line matched to a non-empty
    id. *)
Lemma rgs_patch_line_matched (m : mappings) (line k : str) (rec : system_record) :
  RGS.find_match m (dict_keys m) line = Ok (Some k) -> k <> [] ->
  dict_find k m = Some rec ->
  RGS.patch_line m line
  = match search_group1 RGS.src_re line with
    | None => Ok (line, 0, [])
    | Some current_src =>
        bind (if str_eqb current_src (src rec) then Ok line
              else re_sub RGS.src_sub_re (RGS.src_text (src rec)) line)
          (fun line1 =>
             match search_group1 RGS.rgs_re line with
             | Some current_rgs =>
                 if str_eqb current_rgs k then Ok (line1, 0, [])
                 else
                   bind (re_sub RGS.rgs_sub_re (RGS.rgs_text k) line1)
                     (fun line2 => Ok (line2, 1, [RGS.Updated k current_rgs]))
             | None =>
                 if contains (txt "retrobat:") line1 then
                   bind (re_sub RGS.marker_re (RGS.insert_template k) line1)
                     (fun line2 => Ok (line2, 1, [RGS.Added k]))
                 else Ok (line1, 0, [])
             end)
    end.
Proof.
  intros Hm Hk Hrec. unfold RGS.patch_line. rewrite Hm. cbn [bind Ok].
  destruct k as [|c k]; [congruence|].
  unfold dict_get. rewrite Hrec. reflexivity.
Qed.

(** A line whose fields are in step with the table is left alone. *)
Lemma rgs_patch_line_in_sync (m : mappings) (line k : str) (rec : system_record) :
  RGS.find_match m (dict_keys m) line = Ok (Some k) ->
  dict_find k m = Some rec ->
  search_group1 RGS.src_re line = Some (src rec) ->
  search_group1 RGS.rgs_re line = Some k ->
  RGS.patch_line m line = Ok (line, 0, []).
Proof.
  intros Hm Hrec Hsrc Hrgs.
  destruct k as [|c k].
  - unfold RGS.patch_line. now rewrite Hm.
  - rewrite (rgs_patch_line_matched _ _ _ _ Hm ltac:(discriminate) Hrec).
    rewrite Hsrc, Hrgs, !str_eqb_refl. reflexivity.
Qed.

Lemma plain_quoted (k : str) : plain k -> plain (quoted k).
Proof.
  intros H. unfold quoted. change (quote :: k ++ [quote]) with ([quote] ++ k ++ [quote]).
  rewrite !plain_app. repeat split; auto.
Qed.

(** The template of the insertion: group 1 and the new field. *)
Lemma parse_insert_template (k : str) :
  plain k ->
  parse_template RGS.marker_re (RGS.insert_template k)
  = Ok (PGroup 1 :: map PChar (txt " retrobat_rgs: " ++ quoted k ++ txt ",")).
Proof.
  intros Hk. unfold parse_template, RGS.insert_template.
  change (txt "1 retrobat_rgs: " ++ quoted k ++ txt ",")
    with ("1"%char :: " "%char :: (txt "retrobat_rgs: " ++ quoted k ++ txt ",")).
  change (re_groups RGS.marker_re) with 1.
  set (rest := txt "retrobat_rgs: " ++ quoted k ++ txt ",").
  assert (Hrest : plain (" "%char :: rest)).
  { change (" "%char :: rest) with ([" "%char] ++ rest). unfold rest.
    rewrite !plain_app. repeat split; auto. now apply plain_quoted. }
  pose proof (parse_from_plain 1 _ Hrest) as Hp.
  remember (" "%char :: rest) as t1 eqn:Et1.
  cbn [parse_from].
  change (Ascii.eqb backslash backslash) with true. cbn [negb].
  change (Ascii.eqb "1" "g") with false.
  change (Ascii.eqb "1" "0") with false.
  change (is_digit "1") with true. cbv iota.
  rewrite Et1 at 1. change (is_digit " ") with false. cbv iota.
  unfold add_group. change (digit_val "1") with 1.
  change (1 <? 1) with false. cbv iota.
  rewrite Hp. subst t1. reflexivity.
Qed.

(** Without a retrobat field followed by a comma nothing is inserted. *)
Lemma rgs_insert_none (k line : str) :
  plain k -> re_search RGS.marker_re line = None ->
  re_sub RGS.marker_re (RGS.insert_template k) line = Ok line.
Proof.
  intros Hk Hs. unfold re_sub. rewrite parse_insert_template by exact Hk.
  cbn [bind Ok]. now rewrite sub_from_no_match.
Qed.

Lemma match_here_one_nonempty (k : cls) (r : list item) (s : str) (parts : list str) :
  match_here (One k :: r) s = Some parts -> concat parts <> [].
Proof.
  destruct s as [|c s]; [discriminate|]. rewrite match_here_one.
  destruct (cls_ok k c); [|discriminate].
  destruct (match_here r s); [|discriminate].
  intros H; injection H as <-. discriminate.
Qed.

(** With a retrobat field followed by a comma, the new field is put
    right after the first such field (and after every later one). *)
Lemma rgs_insert_found (k line : str) (m0 : re_match) :
  plain k -> re_search RGS.marker_re line = Some m0 ->
  exists rest rest',
    line = m_pre m0 ++ concat (m_parts m0) ++ rest /\
    re_sub RGS.marker_re (RGS.insert_template k) line
    = Ok (m_pre m0 ++ concat (m_parts m0)
          ++ (txt " retrobat_rgs: " ++ quoted k ++ txt ",") ++ rest').
Proof.
  intros Hk Hs. unfold re_search in Hs.
  destruct (search_from_elim _ _ _ Hs) as (t & _ & Hm & _).
  pose proof (match_here_length _ _ _ Hm) as Hlen.
  pose proof (match_here_one_nonempty _ _ _ _ Hm) as Hne.
  set (repl := expand RGS.marker_re
                 (PGroup 1 :: map PChar (txt " retrobat_rgs: " ++ quoted k ++ txt ","))).
  destruct (sub_from_search _ repl _ _ Hs Hne) as (rest & Hline & Hsub).
  exists rest, (sub_from (re_items RGS.marker_re) repl 0 rest).
  split; [exact Hline|].
  unfold re_sub. rewrite parse_insert_template by exact Hk. cbn [bind Ok].
  fold repl. rewrite Hsub. do 2 f_equal.
  unfold repl, expand. cbn [map concat expand_piece].
  fold (expand RGS.marker_re (map PChar (txt " retrobat_rgs: " ++ quoted k ++ txt ","))
               (m_parts m0)).
  rewrite expand_plain, <- app_assoc. f_equal.
  unfold group1. cbn [re_group RGS.marker_re skipn].
  now rewrite firstn_all2 by (rewrite Hlen; apply Nat.le_refl).
Qed.

(** The count goes up all the same: the general form of the defect of
    C3, on a line whose src field is in step. *)
Lemma rgs_count_without_insertion (m : mappings) (line k : str) (rec : system_record) :
  RGS.find_match m (dict_keys m) line = Ok (Some k) -> k <> [] ->
  dict_find k m = Some rec ->
  search_group1 RGS.src_re line = Some (src rec) ->
  search_group1 RGS.rgs_re line = None ->
  contains (txt "retrobat:") line = true ->
  re_search RGS.marker_re line = None ->
  plain k ->
  RGS.patch_line m line = Ok (line, 1, [RGS.Added k]).
Proof.
  intros Hm Hk Hrec Hsrc Hrgs Hc Hs Hp.
  rewrite (rgs_patch_line_matched _ _ _ _ Hm Hk Hrec), Hsrc, Hrgs, str_eqb_refl.
  cbn [bind Ok]. rewrite Hc. now rewrite rgs_insert_none.
Qed.

(** C4, as amended.  On a line matched to id [k] whose retrobat_rgs field
    already holds [k], the retrobat_rgs field is not rewritten and the
    count does not go up.  The line is returned as it is when it has no
    src field or when its src field holds the normalized path of [k];
    otherwise the only rewrite is that of its src fields. *)
Theorem rgs_in_sync_not_counted (m : mappings) (line k : str) (rec : system_record) :
  RGS.find_match m (dict_keys m) line = Ok (Some k) ->
  dict_find k m = Some rec ->
  search_group1 RGS.rgs_re line = Some k ->
  (forall line' n ev,
      RGS.patch_line m line = Ok (line', n, ev) -> n = 0 /\ ev = []) /\
  (search_group1 RGS.src_re line = None ->
   RGS.patch_line m line = Ok (line, 0, [])) /\
  (search_group1 RGS.src_re line = Some (src rec) ->
   RGS.patch_line m line = Ok (line, 0, [])) /\
  (forall current_src,
      k <> [] ->
      search_group1 RGS.src_re line = Some current_src ->
      current_src <> src rec ->
      RGS.patch_line m line
      = bind (re_sub RGS.src_sub_re (RGS.src_text (src rec)) line)
             (fun line1 => Ok (line1, 0, []))).
Proof.
  intros Hm Hrec Hrgs.
  assert (Hshape : k <> [] ->
    RGS.patch_line m line
    = match search_group1 RGS.src_re line with
      | None => Ok (line, 0, [])
      | Some current_src =>
          bind (if str_eqb current_src (src rec) then Ok line
                else re_sub RGS.src_sub_re (RGS.src_text (src rec)) line)
               (fun line1 => Ok (line1, 0, []))
      end).
  { intros Hk. rewrite (rgs_patch_line_matched _ _ _ _ Hm Hk Hrec), Hrgs.
    now rewrite str_eqb_refl. }
  assert (Hempty : k = [] -> RGS.patch_line m line = Ok (line, 0, [])).
  { intros ->. unfold RGS.patch_line. now rewrite Hm. }
  repeat split.
  - destruct k as [|c k].
    + rewrite Hempty in H by reflexivity. now injection H.
    + rewrite Hshape in H by discriminate.
      destruct (search_group1 RGS.src_re line) as [cur|]; [|now injection H].
      destruct (bind _ _) as [e|l1] eqn:E in H; [discriminate|].
      destruct (if str_eqb cur (src rec) then _ else _) as [e|l0];
        [discriminate|].
      cbn in E. injection E as <-. now injection H.
  - destruct k as [|c k].
    + rewrite Hempty in H by reflexivity. now injection H.
    + rewrite Hshape in H by discriminate.
      destruct (search_group1 RGS.src_re line) as [cur|]; [|now injection H].
      destruct (if str_eqb cur (src rec) then _ else _) as [e|l0];
        [discriminate|].
      cbn in H. now injection H.
  - intros Hsrc. destruct k as [|c k]; [now apply Hempty|].
    rewrite Hshape by discriminate. now rewrite Hsrc.
  - intros Hsrc. now apply (rgs_patch_line_in_sync m line k rec).
  - intros cur Hk Hsrc Hne. rewrite (Hshape Hk), Hsrc.
    apply str_eqb_neq in Hne. now rewrite Hne.
Qed.

Lemma rgs_in_sync_not_counted_witness :
  let m := [(txt "a", {| full_name := txt "A"; src := txt "p";
                         retrobat_path := [] |})] in
  let line := txt "  - { src: " ++ quoted (txt "p") ++ txt ", retrobat: "
              ++ quoted (txt "a") ++ txt ", retrobat_rgs: " ++ quoted (txt "a")
              ++ txt ", }" in
  RGS.patch_line m line = Ok (line, 0, []).
Proof.
  intros m line.
  refine (proj1 (proj2 (proj2
            (rgs_in_sync_not_counted m line (txt "a")
               {| full_name := txt "A"; src := txt "p"; retrobat_path := [] |}
               _ _ _))) _); vm_compute; reflexivity.
Defined.

(** C4 as stated fails: the retrobat_rgs field is in step, the src field
    is not, and the line is rewritten (with no count). *)
Lemma rgs_in_sync_counterexample :
  let m := [(txt "a", {| full_name := txt "A"; src := txt "p";
                         retrobat_path := [] |})] in
  let line := txt "  - { src: " ++ quoted (txt "old") ++ txt ", retrobat: "
              ++ quoted (txt "a") ++ txt ", retrobat_rgs: " ++ quoted (txt "a")
              ++ txt ", }" in
  let line' := txt "  - { src: " ++ quoted (txt "p") ++ txt ", retrobat: "
               ++ quoted (txt "a") ++ txt ", retrobat_rgs: " ++ quoted (txt "a")
               ++ txt ", }" in
  RGS.find_match m (dict_keys m) line = Ok (Some (txt "a")) /\
  search_group1 RGS.rgs_re line = Some (txt "a") /\
  RGS.patch_line m line = Ok (line', 0, []) /\
  line' <> line.
Proof. vm_compute. repeat split. discriminate. Qed.

(** ** Rewriting a field *)

Lemma field_re_items (name : str) (plus captured : bool) :
  re_items (field_re name (value_item plus) captured)
  = field_pattern name plus [].
Proof. reflexivity. Qed.

Lemma plain_field_text (name v : str) :
  plain name -> plain v -> plain (field_text name v).
Proof.
  intros Hn Hv. unfold field_text, quoted.
  change (name ++ " "%char :: quote :: v ++ [quote])
    with (name ++ [" "%char; quote] ++ v ++ [quote]).
  rewrite !plain_app. repeat split; auto.
Qed.

(** [re.sub] on a field, with a value that has no quote and no
    backslash: the call returns, and a search for the field in the new
    line finds the value. *)
Lemma field_re_rewrite (name : str) (plus : bool) (line v : str) :
  name_end_ok name -> plain name ->
  search_group1 (field_re name (value_item plus) true) line <> None ->
  plain v -> forallb not_quote v = true -> (plus = true -> v <> []) ->
  exists line',
    re_sub (field_re name (value_item plus) false) (field_text name v) line
    = Ok line' /\
    search_group1 (field_re name (value_item plus) true) line' = Some v.
Proof.
  intros Hname Hpn Hfound Hpv Hv Hplus.
  unfold search_group1, re_search in *. rewrite field_re_items in *.
  destruct (search_from (field_pattern name plus []) line) as [m0|] eqn:Es;
    [|now destruct Hfound].
  destruct (field_rewrite name plus line v m0 Hname Es Hv Hplus)
    as (rest & Hsub & Hsearch).
  exists (m_pre m0 ++ field_text name v ++ rest). split.
  - rewrite re_sub_plain by now apply plain_field_text.
    rewrite field_re_items. now rewrite Hsub.
  - rewrite Hsearch. cbn [option_map m_parts]. now rewrite group1_field.
Qed.

Lemma name_end_ok_src : name_end_ok (txt "src:").
Proof. exists (txt "src"), ":"%char. now repeat split. Qed.

Lemma name_end_ok_rgs : name_end_ok (txt "retrobat_rgs:").
Proof. exists (txt "retrobat_rgs"), ":"%char. now repeat split. Qed.

(** The rewrite of the src field in both scripts. *)
Lemma src_rewrite (line v : str) :
  search_group1 SRC.src_re line <> None ->
  v <> [] -> forallb not_quote v = true -> plain v ->
  exists line',
    re_sub SRC.src_sub_re (SRC.src_text v) line = Ok line' /\
    search_group1 SRC.src_re line' = Some v.
Proof.
  intros Hfound Hne Hq Hp.
  apply (field_re_rewrite (txt "src:") true line v); auto.
  - apply name_end_ok_src.
  - reflexivity.
Qed.

(** ** Variant B: one turn of the loop *)

(** C9 read on a table whose path has no double quote and no backslash:
    the three ways a line is skipped, and the rewrite. *)
Lemma src_patch_line_cases (m : mappings) (i : nat) (line : str) :
  (search_group1 SRC.marker_re line = None ->
   SRC.patch_line m i line = Ok (line, 0, [])) /\
  (forall k, search_group1 SRC.marker_re line = Some k ->
             dict_mem k m = false ->
             SRC.patch_line m i line = Ok (line, 0, [])) /\
  (forall k, search_group1 SRC.marker_re line = Some k ->
             dict_mem k m = true ->
             search_group1 SRC.src_re line = None ->
             SRC.patch_line m i line = Ok (line, 0, [SRC.Warning k (i + 1)])) /\
  (forall k rec, search_group1 SRC.marker_re line = Some k ->
                 dict_find k m = Some rec ->
                 search_group1 SRC.src_re line = Some (src rec) ->
                 SRC.patch_line m i line = Ok (line, 0, [])) /\
  (forall k rec cur, search_group1 SRC.marker_re line = Some k ->
                     dict_find k m = Some rec ->
                     search_group1 SRC.src_re line = Some cur ->
                     cur <> src rec ->
                     src rec <> [] -> forallb not_quote (src rec) = true ->
                     plain (src rec) ->
                     exists line',
                       SRC.patch_line m i line
                       = Ok (line', 1, [SRC.Updated k cur (src rec)]) /\
                       search_group1 SRC.src_re line' = Some (src rec)).
Proof.
  unfold SRC.patch_line. repeat split.
  - now intros ->.
  - intros k -> Hk. now rewrite Hk.
  - intros k -> Hk ->. now rewrite Hk.
  - intros k rec -> Hrec ->. unfold dict_mem, dict_get. rewrite Hrec.
    cbn. now rewrite str_eqb_refl.
  - intros k rec cur -> Hrec Hcur Hne Hnil Hq Hp.
    unfold dict_mem, dict_get. rewrite Hrec, Hcur. cbn [negb bind Ok].
    apply str_eqb_neq in Hne. rewrite Hne.
    destruct (src_rewrite line (src rec)) as (line' & Hsub & Hs); auto.
    { now rewrite Hcur. }
    exists line'. rewrite Hsub. now split.
Qed.

(** C9: the defect.  The replacement handed to [re.sub] is the path
    itself, and [re.sub] reads a backslash in it as an escape.  With a
    backslash before a letter the call raises, and the script ends with
    the exception; with a doubled backslash the line is rewritten to a
    path that is not the expected one. *)
Theorem src_backslash_path :
  let header := [txt "Full name"; txt "System"; txt "Retrobat"; txt "Retronas"] in
  let line := txt "  - { src: " ++ quoted (txt "sega/old") ++ txt ", retrobat: "
              ++ quoted (txt "sega32x") ++ txt ", }" ++ [newline] in
  (exists m,
     read_csv_mappings
       [header; [txt "Sega 32X"; txt "sega32x"; txt "roms\sega32x";
                 txt "/roms/sega\sega32x"]] = Ok m /\
     option_map src (dict_find (txt "sega32x") m) = Some (txt "sega\sega32x") /\
     SRC.patch_line m 0 line = Raise TemplateError /\
     SRC.update_yaml_file m [line] = Raise TemplateError) /\
  (exists m,
     read_csv_mappings
       [header; [txt "Sega 32X"; txt "sega32x"; txt "roms\sega32x";
                 txt "/roms/sega\\sega32x"]] = Ok m /\
     option_map src (dict_find (txt "sega32x") m) = Some (txt "sega\\sega32x") /\
     SRC.patch_line m 0 line
     = Ok (txt "  - { src: " ++ quoted (txt "sega\sega32x") ++ txt ", retrobat: "
           ++ quoted (txt "sega32x") ++ txt ", }" ++ [newline],
           1,
           [SRC.Updated (txt "sega32x") (txt "sega/old") (txt "sega\\sega32x")])).
Proof.
  split; eexists; (split; [reflexivity|]); vm_compute; repeat split.
Qed.

(** ** A second pass *)

Lemma src_patch_line_twice (m : mappings) (i j : nat) (line line' : str)
      (n : nat) (ev : list SRC.event) :
  wf_paths m ->
  SRC.patch_line m i line = Ok (line', n, ev) ->
  search_group1 SRC.marker_re line' = search_group1 SRC.marker_re line ->
  exists ev', SRC.patch_line m j line' = Ok (line', 0, ev').
Proof.
  intros Hwf H Hkept.
  destruct (src_patch_line_cases m i line) as (C1 & C2 & C3 & C4 & C5).
  destruct (src_patch_line_cases m j line') as (D1 & D2 & D3 & D4 & _).
  destruct (search_group1 SRC.marker_re line) as [k|] eqn:Ek.
  2:{ rewrite (C1 eq_refl) in H. injection H as <- _ _.
      exists []. now apply D1. }
  destruct (dict_mem k m) eqn:Emem.
  2:{ rewrite (C2 k eq_refl Emem) in H. injection H as <- _ _.
      exists []. now apply (D2 k). }
  destruct (search_group1 SRC.src_re line) as [cur|] eqn:Es.
  2:{ rewrite (C3 k eq_refl Emem eq_refl) in H. injection H as <- _ _.
      exists [SRC.Warning k (j + 1)]. now apply D3. }
  unfold dict_mem in Emem.
  destruct (dict_find k m) as [rec|] eqn:Erec; [|discriminate].
  destruct (str_eqb_spec cur (src rec)) as [->|Hne].
  - rewrite (C4 k rec eq_refl Erec eq_refl) in H. injection H as <- _ _.
    exists []. now apply (D4 k rec).
  - destruct (Hwf k rec Erec) as (Hnil & Hq & Hp).
    destruct (C5 k rec cur eq_refl Erec eq_refl Hne Hnil Hq Hp)
      as (l' & Hl' & Hs).
    rewrite Hl' in H. injection H as <- _ _.
    exists []. now apply (D4 k rec).
Qed.

(** ** Record lines *)

Lemma quote_free_app (a b : str) : quote_free (a ++ b) <-> quote_free a /\ quote_free b.
Proof. unfold quote_free. rewrite forallb_app. apply andb_true_iff. Qed.

Lemma colon_free_app (a b : str) : colon_free (a ++ b) <-> colon_free a /\ colon_free b.
Proof. unfold colon_free. rewrite forallb_app. apply andb_true_iff. Qed.

Lemma field_name_quote_free (name : str) : field_name name -> quote_free name.
Proof. intros (n0 & -> & H). apply quote_free_app. split; [exact H|reflexivity]. Qed.

Lemma field_name_nonempty (name : str) : field_name name -> name <> [].
Proof. intros (n0 & -> & _). now destruct n0. Qed.

Lemma field_name_end_ok (name : str) : field_name name -> name_end_ok name.
Proof. intros (n0 & -> & _). exists n0, ":"%char. now repeat split. Qed.

Lemma starts_with_quote_free (name g x : str) :
  quote_free name -> starts_with name (g ++ quote :: x) = starts_with name g.
Proof.
  unfold quote_free. revert g; induction name as [|c name IH]; intros g H; [reflexivity|].
  cbn [forallb] in H. apply andb_true_iff in H as [Hc Hn].
  destruct g as [|d g]; cbn [app starts_with].
  - unfold not_quote in Hc. apply negb_true_iff in Hc. now rewrite Hc.
  - now rewrite IH.
Qed.

Lemma span_snd_In (f : ascii -> bool) (s : str) (c : ascii) (r : str) :
  snd (span f s) = c :: r -> In c s.
Proof.
  induction s as [|x s IH]; simpl; [discriminate|].
  destruct (f x); simpl.
  - intros H. right. now apply IH.
  - intros H; injection H as -> _. now left.
Qed.

Lemma quote_free_In (s : str) (c : ascii) :
  quote_free s -> In c s -> Ascii.eqb quote c = false.
Proof.
  unfold quote_free. rewrite forallb_forall. intros H Hc.
  apply not_quote_eqb. now apply H.
Qed.

Lemma skipn_prefix {A} (a b : list A) : skipn (length a) (a ++ b) = b.
Proof. induction a as [|x a IH]; [reflexivity|exact IH]. Qed.

Lemma skipn_self {A} (a : list A) : skipn (length a) a = [].
Proof. induction a as [|x a IH]; [reflexivity|exact IH]. Qed.

(** A field starts in a gap only where the rest of the gap is the name
    and white space. *)
Lemma field_at_gap (name : str) (plus : bool) (tail g v R : str) :
  field_name name -> quote_free g -> quote_free v ->
  field_at name plus tail (g ++ quote :: v ++ quote :: R)
  = if starts_with name g && forallb is_space (skipn (length name) g)
    then if value_ok plus tail v R
         then Some (skipn (length name) g, v, skipn (length tail) R)
         else None
    else None.
Proof.
  intros Hname Hg Hv. unfold field_at.
  rewrite starts_with_quote_free by now apply field_name_quote_free.
  destruct (starts_with name g) eqn:Es; [|reflexivity].
  apply starts_with_inv in Es as [g3 ->].
  apply quote_free_app in Hg as [_ Hg3].
  rewrite <- app_assoc, !skipn_prefix. cbn [andb].
  unfold after_name.
  destruct (forallb is_space g3) eqn:E3.
  - rewrite (span_unique is_space g3 (quote :: _) E3) by reflexivity.
    cbn [fst snd]. rewrite Ascii.eqb_refl.
    rewrite (span_unique not_quote v (quote :: R) Hv)
      by (unfold stops, not_quote; now rewrite Ascii.eqb_refl).
    cbn [fst snd]. unfold value_ok.
    destruct (plus && is_nil v); [reflexivity|]. cbn [negb andb].
    now destruct (starts_with tail R).
  - rewrite span_app_split, E3. cbn [fst snd].
    pose proof (span_not_all _ _ E3) as Hne.
    pose proof (span_snd_In is_space g3) as Hin.
    destruct (snd (span is_space g3)) as [|c s3]; [congruence|].
    cbn [app]. now rewrite (quote_free_In g3 c Hg3 (Hin _ _ eq_refl)).
Qed.

Lemma colon_in_name (name : str) : field_name name -> In ":"%char name.
Proof. intros (n0 & -> & _). apply in_or_app. right. now left. Qed.

Lemma colon_free_In (s : str) : colon_free s -> ~ In ":"%char s.
Proof.
  unfold colon_free. rewrite forallb_forall. intros H Hc.
  specialize (H _ Hc). discriminate.
Qed.

(** No field starts inside a value. *)
Lemma field_at_value (name : str) (plus : bool) (tail v2 R : str) :
  field_name name -> colon_free v2 ->
  field_at name plus tail (v2 ++ quote :: R) = None.
Proof.
  intros Hname Hv. unfold field_at.
  rewrite starts_with_quote_free by now apply field_name_quote_free.
  destruct (starts_with name v2) eqn:Es; [|reflexivity].
  apply starts_with_inv in Es as [r ->].
  exfalso. apply (colon_free_In _ Hv). apply in_or_app. left.
  now apply colon_in_name.
Qed.

(** No field starts in a text without double quote. *)
Lemma field_at_quote_free (name : str) (plus : bool) (tail u : str) :
  quote_free u -> field_at name plus tail u = None.
Proof.
  intros Hu. unfold field_at.
  destruct (starts_with name u) eqn:Es; [|reflexivity].
  apply starts_with_inv in Es as [u3 ->].
  apply quote_free_app in Hu as [_ Hu3].
  rewrite skipn_prefix.
  unfold after_name.
  pose proof (span_snd_In is_space u3) as Hin.
  destruct (snd (span is_space u3)) as [|c s3]; [reflexivity|].
  now rewrite (quote_free_In u3 c Hu3 (Hin _ _ eq_refl)).
Qed.

Lemma quoted_app (v R : str) : quoted v ++ R = quote :: v ++ quote :: R.
Proof. unfold quoted. cbn [app]. now rewrite <- app_assoc. Qed.

Lemma match_here_gap (name : str) (plus : bool) (tail g v R : str) :
  field_name name -> quote_free g -> quote_free v ->
  match_here (field_pattern name plus tail) (g ++ quoted v ++ R)
  = if starts_with name g && forallb is_space (skipn (length name) g)
       && value_ok plus tail v R
    then Some (field_parts name (skipn (length name) g) v tail)
    else None.
Proof.
  intros Hname Hg Hv. rewrite match_here_field, quoted_app, field_at_gap by auto.
  destruct (starts_with name g && forallb is_space (skipn (length name) g));
    [|reflexivity].
  cbn [andb]. now destruct (value_ok plus tail v R).
Qed.

Lemma split_last_app {A} (x y z : list A) (a : A) :
  x ++ [a] = y ++ z -> z <> [] -> exists z', z = z' ++ [a] /\ x = y ++ z'.
Proof.
  intros H Hz. destruct (exists_last Hz) as (z' & b & ->).
  rewrite app_assoc in H. apply app_inj_tail in H as [-> ->].
  now exists z'.
Qed.

Lemma leftmost_quoted (name : str) (plus : bool) (tail v R : str) :
  field_name name -> colon_free v ->
  leftmost (field_pattern name plus tail) (quoted v) R.
Proof.
  intros Hname Hv p1 p2 Hp Hne.
  assert (H : exists v2 R', p2 ++ R = v2 ++ quote :: R' /\ colon_free v2).
  { unfold quoted in Hp. destruct p1 as [|c p1]; cbn [app] in Hp.
    - subst p2. exists [], (v ++ quote :: R). split; [|reflexivity].
      cbn [app]. now rewrite <- app_assoc.
    - injection Hp as _ Hp.
      destruct (split_last_app _ _ _ _ Hp Hne) as (v2 & -> & ->).
      exists v2, R. split; [now rewrite <- app_assoc|].
      now apply colon_free_app in Hv as [_ Hv]. }
  destruct H as (v2 & R' & -> & Hv2).
  apply field_pattern_None. now apply field_at_value.
Qed.

Lemma split_name_cons (name : str) (c : ascii) (g : str) :
  starts_with name (c :: g) && forallb is_space (skipn (length name) (c :: g)) = false ->
  split_name name (c :: g)
  = match split_name name g with
    | Some (pre, ws) => Some (c :: pre, ws)
    | None => None
    end.
Proof. intros H. cbn [split_name]. now rewrite H. Qed.

Lemma split_name_here (name g : str) :
  starts_with name g && forallb is_space (skipn (length name) g) = true ->
  split_name name g = Some ([], skipn (length name) g).
Proof. intros H. destruct g; cbn [split_name]; now rewrite H. Qed.

Lemma split_name_nil (name : str) : name <> [] -> split_name name [] = None.
Proof. intros H. destruct name; [congruence|reflexivity]. Qed.

Lemma here_spec (name g : str) :
  starts_with name g && forallb is_space (skipn (length name) g) = true ->
  g = name ++ skipn (length name) g /\
  forallb is_space (skipn (length name) g) = true.
Proof.
  intros E. apply andb_true_iff in E as [E1 E2].
  apply starts_with_inv in E1 as [r ->]. rewrite skipn_prefix in *. now split.
Qed.

Lemma split_name_spec (name g pre ws : str) :
  split_name name g = Some (pre, ws) ->
  g = pre ++ name ++ ws /\ forallb is_space ws = true.
Proof.
  revert pre; induction g as [|c g IH]; intros pre; cbn [split_name].
  - destruct (starts_with name [] && forallb is_space (skipn (length name) []))
      eqn:E; [|discriminate].
    intros H; injection H as <- <-. now apply here_spec.
  - destruct (starts_with name (c :: g)
              && forallb is_space (skipn (length name) (c :: g))) eqn:E.
    + intros H; injection H as <- <-. now apply here_spec.
    + destruct (split_name name g) as [[pre' ws']|]; [|discriminate].
      intros H; injection H as <- <-.
      destruct (IH pre' eq_refl) as [-> Hws]. now split.
Qed.

(** One field of the line under [re.sub]: the field is replaced when its
    gap ends in the name and its value passes, and copied otherwise. *)
Lemma sub_from_gap (name : str) (plus : bool) (tail : str)
      (repl : list str -> str) (v R : str) :
  field_name name -> quote_free v -> colon_free v ->
  forall g, quote_free g ->
  sub_from (field_pattern name plus tail) repl 0 (g ++ quoted v ++ R)
  = match split_name name g with
    | Some (pre, ws) =>
        if value_ok plus tail v R
        then pre ++ repl (field_parts name ws v tail)
             ++ sub_from (field_pattern name plus tail) repl 0
                         (skipn (length tail) R)
        else g ++ quoted v
             ++ sub_from (field_pattern name plus tail) repl 0 R
    | None => g ++ quoted v ++ sub_from (field_pattern name plus tail) repl 0 R
    end.
Proof.
  intros Hname Hv Hcv. induction g as [|c g IH]; intros Hg.
  - rewrite split_name_nil by now apply field_name_nonempty.
    cbn [app]. rewrite sub_from_leftmost by now apply leftmost_quoted.
    reflexivity.
  - pose proof (match_here_gap name plus tail (c :: g) v R Hname Hg Hv) as Hm.
    assert (Hg' : quote_free g) by now apply (quote_free_app [c] g) in Hg.
    destruct (starts_with name (c :: g)
              && forallb is_space (skipn (length name) (c :: g))) eqn:E.
    + rewrite (split_name_here _ _ E). cbn [andb] in Hm.
      destruct (value_ok plus tail v R) eqn:Eok.
      * cbn [app]. apply (sub_from_hit _ _ _ _ _ Hm).
        -- rewrite concat_field_parts.
           pose proof (field_name_nonempty _ Hname). now destruct name.
        -- rewrite concat_field_parts.
           destruct (here_spec _ _ E) as [Hgeq _].
           unfold value_ok in Eok. apply andb_true_iff in Eok as [_ Et].
           apply starts_with_inv in Et as [R' ->]. rewrite skipn_prefix.
           rewrite Hgeq at 1. rewrite quoted_app.
           repeat (rewrite <- app_assoc; cbn [app]). reflexivity.
      * cbn [app] in *. rewrite sub_from_miss by exact Hm.
        rewrite (IH Hg'). destruct (split_name name g) as [[pre ws]|];
          reflexivity.
    + rewrite (split_name_cons _ _ _ E). cbn [andb] in Hm.
      cbn [app] in *. rewrite sub_from_miss by exact Hm.
      rewrite (IH Hg'). destruct (split_name name g) as [[pre ws]|];
        [|reflexivity].
      now destruct (value_ok plus tail v R).
Qed.

Lemma search_parts_leftmost (r : list item) (pre rest : str) :
  leftmost r pre rest -> search_parts r (pre ++ rest) = search_parts r rest.
Proof.
  unfold search_parts. induction pre as [|c pre IH]; intros H; [reflexivity|].
  cbn [app search_from]. rewrite (leftmost_head _ _ _ _ H).
  rewrite <- (IH (leftmost_tail _ _ _ _ H)).
  now destruct (search_from r (pre ++ rest)).
Qed.

Lemma search_parts_here (r : list item) (s : str) (parts : list str) :
  match_here r s = Some parts -> search_parts r s = Some parts.
Proof. intros H. unfold search_parts. destruct s; cbn [search_from]; now rewrite H. Qed.

Lemma search_parts_miss (r : list item) (c : ascii) (s : str) :
  match_here r (c :: s) = None -> search_parts r (c :: s) = search_parts r s.
Proof.
  intros H. unfold search_parts. cbn [search_from]. rewrite H.
  now destruct (search_from r s).
Qed.

(** One field of the line under [re.search]. *)
Lemma search_parts_gap (name : str) (plus : bool) (tail v R : str) :
  field_name name -> quote_free v -> colon_free v ->
  forall g, quote_free g ->
  search_parts (field_pattern name plus tail) (g ++ quoted v ++ R)
  = match split_name name g with
    | Some (pre, ws) =>
        if value_ok plus tail v R
        then Some (field_parts name ws v tail)
        else search_parts (field_pattern name plus tail) R
    | None => search_parts (field_pattern name plus tail) R
    end.
Proof.
  intros Hname Hv Hcv. induction g as [|c g IH]; intros Hg.
  - rewrite split_name_nil by now apply field_name_nonempty.
    cbn [app]. now rewrite search_parts_leftmost by now apply leftmost_quoted.
  - pose proof (match_here_gap name plus tail (c :: g) v R Hname Hg Hv) as Hm.
    assert (Hg' : quote_free g) by now apply (quote_free_app [c] g) in Hg.
    destruct (starts_with name (c :: g)
              && forallb is_space (skipn (length name) (c :: g))) eqn:E.
    + rewrite (split_name_here _ _ E). cbn [andb] in Hm.
      destruct (value_ok plus tail v R) eqn:Eok.
      * now apply search_parts_here.
      * cbn [app] in *. rewrite search_parts_miss by exact Hm.
        rewrite (IH Hg'). now destruct (split_name name g) as [[pre ws]|].
    + rewrite (split_name_cons _ _ _ E). cbn [andb] in Hm.
      cbn [app] in *. rewrite search_parts_miss by exact Hm.
      rewrite (IH Hg'). now destruct (split_name name g) as [[pre ws]|].
Qed.

Lemma leftmost_quote_free (name : str) (plus : bool) (tail u : str) :
  quote_free u -> leftmost (field_pattern name plus tail) u [].
Proof.
  intros Hu p1 p2 -> _. apply quote_free_app in Hu as [_ Hu].
  rewrite app_nil_r. apply field_pattern_None. now apply field_at_quote_free.
Qed.

Lemma match_here_field_nil (name : str) (plus : bool) (tail : str) :
  match_here (field_pattern name plus tail) [] = None.
Proof. apply field_pattern_None. now apply field_at_quote_free. Qed.

Lemma search_parts_quote_free (name : str) (plus : bool) (tail u : str) :
  quote_free u -> search_parts (field_pattern name plus tail) u = None.
Proof.
  intros Hu. rewrite <- (app_nil_r u).
  rewrite search_parts_leftmost by now apply leftmost_quote_free.
  unfold search_parts. cbn [search_from]. now rewrite match_here_field_nil.
Qed.

Lemma sub_from_quote_free (name : str) (plus : bool) (tail : str)
      (repl : list str -> str) (u : str) :
  quote_free u -> sub_from (field_pattern name plus tail) repl 0 u = u.
Proof.
  intros Hu. rewrite <- (app_nil_r u) at 1.
  rewrite sub_from_leftmost by now apply leftmost_quote_free.
  cbn [sub_from]. rewrite match_here_field_nil. apply app_nil_r.
Qed.

(** *** Search and substitution on a record line *)

Lemma value_ok_nil (plus : bool) (v R : str) :
  value_ok plus [] v R = negb (plus && is_nil v).
Proof. unfold value_ok. cbn [starts_with]. apply andb_true_r. Qed.

Lemma search_parts_render (name : str) (plus : bool) (fs : list field) (tl : str) :
  field_name name -> record_line fs tl ->
  option_map (fun parts => group1 (field_re name (value_item plus) true) parts)
             (search_parts (field_pattern name plus []) (render fs tl))
  = option_map val (find (qual name plus) fs).
Proof.
  intros Hname [Hfs Htl]. induction Hfs as [|f fs (Hg & Hv & Hc) _ IH].
  - cbn [render find]. now rewrite search_parts_quote_free.
  - cbn [render find]. unfold render_field. rewrite <- app_assoc.
    rewrite search_parts_gap by auto. unfold qual.
    destruct (split_name name (gap f)) as [[pre ws]|]; cbn [is_some andb].
    + rewrite value_ok_nil. destruct (negb (plus && is_nil (val f))).
      * cbn [option_map]. now rewrite group1_field.
      * exact IH.
    + exact IH.
Qed.

Lemma search_group1_render (name : str) (plus : bool) (fs : list field) (tl : str) :
  field_name name -> record_line fs tl ->
  search_group1 (field_re name (value_item plus) true) (render fs tl)
  = option_map val (find (qual name plus) fs).
Proof.
  intros Hname Hrec. rewrite <- (search_parts_render name plus fs tl Hname Hrec).
  unfold search_group1, re_search, search_parts. rewrite field_re_items.
  now destruct (search_from (field_pattern name plus []) (render fs tl)).
Qed.

Lemma sub_from_render (name : str) (plus : bool) (v : str) (fs : list field)
      (tl : str) :
  field_name name -> record_line fs tl ->
  sub_from (field_pattern name plus []) (fun _ => field_text name v) 0
           (render fs tl)
  = render (map (retarget name plus v) fs) tl.
Proof.
  intros Hname [Hfs Htl]. induction Hfs as [|f fs (Hg & Hv & Hc) _ IH].
  - cbn [render map]. now apply sub_from_quote_free.
  - cbn [render map]. unfold render_field at 1. rewrite <- app_assoc.
    rewrite sub_from_gap by auto. unfold retarget.
    destruct (split_name name (gap f)) as [[pre ws]|].
    + rewrite value_ok_nil. destruct (negb (plus && is_nil (val f))).
      * cbn [skipn length]. rewrite IH. unfold render_field, field_text.
        cbn [gap val]. repeat (rewrite <- app_assoc; cbn [app]). reflexivity.
      * rewrite IH. unfold render_field. now rewrite <- app_assoc.
    + rewrite IH. unfold render_field. now rewrite <- app_assoc.
Qed.

(** *** The insertion on a record line *)

Lemma marker_re_items :
  re_items RGS.marker_re = field_pattern (txt "retrobat:") false (txt ",").
Proof. reflexivity. Qed.

Lemma expand_insert (l ws v : str) :
  expand RGS.marker_re (PGroup 1 :: map PChar l)
         (field_parts (txt "retrobat:") ws v (txt ","))
  = (txt "retrobat:" ++ ws ++ quote :: v ++ quote :: txt ",") ++ l.
Proof.
  unfold expand. cbn [map concat expand_piece].
  fold (expand RGS.marker_re (map PChar l)
               (field_parts (txt "retrobat:") ws v (txt ","))).
  rewrite expand_plain. f_equal.
Qed.

Lemma field_name_src : field_name (txt "src:").
Proof. exists (txt "src"). now split. Qed.

Lemma field_name_rgs : field_name (txt "retrobat_rgs:").
Proof. exists (txt "retrobat_rgs"). now split. Qed.

Lemma field_name_marker : field_name (txt "retrobat:").
Proof. exists (txt "retrobat"). now split. Qed.

Lemma re_sub_insert_render (k : str) (fs : list field) (tl : str) :
  plain k -> record_line fs tl ->
  re_sub RGS.marker_re (RGS.insert_template k) (render fs tl)
  = Ok (render (insert_rgs k fs tl) tl).
Proof.
  intros Hk [Hfs Htl]. unfold re_sub.
  rewrite parse_insert_template by exact Hk. cbn [bind Ok]. f_equal.
  rewrite marker_re_items.
  set (l := txt " retrobat_rgs: " ++ quoted k ++ txt ",").
  set (repl := expand RGS.marker_re (PGroup 1 :: map PChar l)).
  induction Hfs as [|f fs (Hg & Hv & Hc) _ IH].
  - cbn [render insert_rgs]. now apply sub_from_quote_free.
  - cbn [render insert_rgs]. unfold render_field at 1. rewrite <- app_assoc.
    rewrite sub_from_gap by (auto using field_name_marker).
    destruct (split_name (txt "retrobat:") (gap f)) as [[pre ws]|] eqn:Es;
      cbn [is_some andb].
    + unfold value_ok. cbn [andb negb].
      destruct (starts_with (txt ",") (render fs tl)) eqn:Ec.
      * apply starts_with_inv in Ec as [R1 HR].
        rewrite HR in IH |- *. rewrite skipn_prefix.
        change (txt "," ++ R1) with (","%char :: R1) in IH.
        rewrite sub_from_miss in IH by reflexivity.
        cbn [render]. rewrite <- IH.
        unfold repl. rewrite expand_insert. fold repl.
        apply split_name_spec in Es as [Hgap _].
        unfold render_field, new_field, l. cbn [gap val]. rewrite Hgap.
        unfold quoted.
        repeat (rewrite <- app_assoc; cbn [app]). reflexivity.
      * cbn [render]. rewrite IH. unfold render_field. now rewrite <- app_assoc.
    + cbn [render]. rewrite IH. unfold render_field. now rewrite <- app_assoc.
Qed.

(** *** Names *)

Lemma split_name_complete (name pre ws : str) :
  forallb is_space ws = true ->
  is_some (split_name name (pre ++ name ++ ws)) = true.
Proof.
  intros Hws.
  assert (Hhere : starts_with name (name ++ ws)
                  && forallb is_space (skipn (length name) (name ++ ws)) = true).
  { now rewrite starts_with_app, skipn_prefix, Hws. }
  induction pre as [|c pre IH].
  - cbn [app]. now rewrite (split_name_here _ _ Hhere).
  - cbn [app split_name].
    destruct (starts_with name (c :: pre ++ name ++ ws)
              && forallb is_space (skipn (length name) (c :: pre ++ name ++ ws)));
      [reflexivity|].
    now destruct (split_name name (pre ++ name ++ ws)) as [[p w]|].
Qed.

Lemma forallb_rev {A} (f : A -> bool) (l : list A) :
  forallb f (rev l) = forallb f l.
Proof.
  induction l as [|x l IH]; [reflexivity|].
  cbn [rev forallb]. rewrite forallb_app, IH. cbn [forallb].
  rewrite andb_true_r. apply andb_comm.
Qed.

(** The white space at the end of a text and what is before it. *)
Lemma trailing_space_unique (A B ws ws' : str) (a b : ascii) :
  is_space a = false -> is_space b = false ->
  forallb is_space ws = true -> forallb is_space ws' = true ->
  A ++ a :: ws = B ++ b :: ws' -> A = B /\ a = b /\ ws = ws'.
Proof.
  intros Ha Hb Hws Hws' H.
  apply (f_equal (@rev ascii)) in H.
  rewrite !rev_app_distr in H. cbn [rev] in H. rewrite <- !app_assoc in H.
  cbn [app] in H.
  assert (H1 : span is_space (rev ws ++ a :: rev A) = (rev ws, a :: rev A)).
  { apply span_unique; [now rewrite forallb_rev|exact Ha]. }
  assert (H2 : span is_space (rev ws' ++ b :: rev B) = (rev ws', b :: rev B)).
  { apply span_unique; [now rewrite forallb_rev|exact Hb]. }
  rewrite H, H2 in H1. injection H1 as Hw Hab HAB.
  repeat split; auto.
  - apply (f_equal (@rev ascii)) in HAB. now rewrite !rev_involutive in HAB.
  - apply (f_equal (@rev ascii)) in Hw. now rewrite !rev_involutive in Hw.
Qed.

Lemma apart_sym (n1 n2 : str) : apart n1 n2 -> apart n2 n1.
Proof.
  intros (m1 & c1 & m2 & c2 & H1 & H2 & Hne).
  exists m2, c2, m1, c1. repeat split; auto.
Qed.

(** A gap has at most one of two names that are apart. *)
Lemma split_name_apart (n1 n2 g : str) :
  apart n1 n2 -> is_some (split_name n1 g) = true -> split_name n2 g = None.
Proof.
  intros (m1 & c1 & m2 & c2 & -> & -> & Hne) H1.
  destruct (split_name (m1 ++ [c1; ":"%char]) g) as [[p1 w1]|] eqn:E1;
    [|discriminate].
  destruct (split_name (m2 ++ [c2; ":"%char]) g) as [[p2 w2]|] eqn:E2;
    [|reflexivity].
  exfalso. apply split_name_spec in E1 as [Hg1 Hw1].
  apply split_name_spec in E2 as [Hg2 Hw2].
  rewrite Hg1 in Hg2.
  assert (H : (p1 ++ m1 ++ [c1]) ++ ":"%char :: w1
              = (p2 ++ m2 ++ [c2]) ++ ":"%char :: w2).
  { repeat (rewrite <- app_assoc; cbn [app]).
    repeat (rewrite <- app_assoc in Hg2; cbn [app] in Hg2). exact Hg2. }
  apply trailing_space_unique in H as (H & _ & _); auto.
  rewrite !app_assoc in H. apply app_inj_tail in H as [_ H]. congruence.
Qed.

Lemma apart_src_rgs : apart (txt "src:") (txt "retrobat_rgs:").
Proof.
  exists (txt "sr"), "c"%char, (txt "retrobat_rg"), "s"%char.
  repeat split. discriminate.
Qed.

Lemma apart_src_marker : apart (txt "src:") (txt "retrobat:").
Proof.
  exists (txt "sr"), "c"%char, (txt "retroba"), "t"%char.
  repeat split. discriminate.
Qed.

(** *** The fields found after a rewrite *)

Lemma qual_retarget_same (name : str) (plus : bool) (v : str) (f : field) :
  (plus = true -> v <> []) ->
  qual name plus (retarget name plus v f) = qual name plus f /\
  (qual name plus f = true -> val (retarget name plus v f) = v).
Proof.
  intros Hv. unfold retarget, qual.
  destruct (split_name name (gap f)) as [[pre ws]|] eqn:Es; cbn [is_some andb].
  - destruct (negb (plus && is_nil (val f))) eqn:En.
    + cbn [gap val].
      rewrite (split_name_complete name pre [" "%char]) by reflexivity.
      split; [|reflexivity]. cbn [andb].
      destruct plus; [|reflexivity]. destruct v; [now destruct Hv|reflexivity].
    + rewrite Es. cbn [is_some andb]. rewrite En. split; [reflexivity|discriminate].
  - rewrite Es. split; [reflexivity|discriminate].
Qed.

Lemma find_retarget_same (name : str) (plus : bool) (v : str) (fs : list field) :
  (plus = true -> v <> []) ->
  option_map val (find (qual name plus) (map (retarget name plus v) fs))
  = option_map (fun _ => v) (find (qual name plus) fs).
Proof.
  intros Hv. induction fs as [|f fs IH]; [reflexivity|].
  cbn [map find]. destruct (qual_retarget_same name plus v f Hv) as [Hq Hval].
  rewrite Hq. destruct (qual name plus f); [|exact IH].
  cbn [option_map]. now rewrite Hval.
Qed.

Lemma qual_retarget_other (n1 n2 : str) (p1 p2 : bool) (v : str) (f : field) :
  apart n1 n2 ->
  qual n2 p2 (retarget n1 p1 v f) = qual n2 p2 f /\
  (qual n2 p2 f = true -> retarget n1 p1 v f = f).
Proof.
  intros Hap. unfold retarget, qual.
  destruct (split_name n1 (gap f)) as [[pre ws]|] eqn:E1.
  - assert (H2 : split_name n2 (gap f) = None).
    { apply (split_name_apart n1 n2); [exact Hap|now rewrite E1]. }
    rewrite H2. cbn [is_some andb].
    destruct (negb (p1 && is_nil (val f))).
    + cbn [gap val].
      rewrite (split_name_apart n1 n2 _ Hap
                 (split_name_complete n1 pre [" "%char] eq_refl)).
      split; [reflexivity|discriminate].
    + rewrite H2. split; [reflexivity|discriminate].
  - split; reflexivity.
Qed.

Lemma find_retarget_other (n1 n2 : str) (p1 p2 : bool) (v : str) (fs : list field) :
  apart n1 n2 ->
  option_map val (find (qual n2 p2) (map (retarget n1 p1 v) fs))
  = option_map val (find (qual n2 p2) fs).
Proof.
  intros Hap. induction fs as [|f fs IH]; [reflexivity|].
  cbn [map find]. destruct (qual_retarget_other n1 n2 p1 p2 v f Hap) as [Hq Hsame].
  rewrite Hq. destruct (qual n2 p2 f) eqn:E; [|exact IH].
  now rewrite (Hsame eq_refl).
Qed.

Lemma find_insert_src (k : str) (fs : list field) (tl : str) :
  find (qual (txt "src:") true) (insert_rgs k fs tl)
  = find (qual (txt "src:") true) fs.
Proof.
  induction fs as [|f fs IH]; [reflexivity|].
  cbn [insert_rgs].
  destruct (is_some (split_name (txt "retrobat:") (gap f))
            && starts_with (txt ",") (render fs tl)); cbn [find].
  - destruct (qual (txt "src:") true f); [reflexivity|].
    change (qual (txt "src:") true (new_field k)) with false.
    cbv iota. exact IH.
  - destruct (qual (txt "src:") true f); [reflexivity|exact IH].
Qed.

Lemma find_insert_rgs (k : str) (fs : list field) (tl : str) :
  find (qual (txt "retrobat_rgs:") false) fs = None ->
  option_map val (find (qual (txt "retrobat_rgs:") false) (insert_rgs k fs tl))
  = Some k \/
  insert_rgs k fs tl = fs.
Proof.
  induction fs as [|f fs IH]; [now right|].
  cbn [find]. destruct (qual (txt "retrobat_rgs:") false f) eqn:Eq; [discriminate|].
  intros Hnone. cbn [insert_rgs].
  destruct (is_some (split_name (txt "retrobat:") (gap f))
            && starts_with (txt ",") (render fs tl)); cbn [find]; rewrite Eq.
  - left. reflexivity.
  - destruct (IH Hnone) as [H|H]; [now left|right; now rewrite H].
Qed.

(** *** Record lines stay record lines *)

Lemma wf_retarget (name : str) (plus : bool) (v : str) (f : field) :
  field_name name -> quote_free v -> colon_free v ->
  wf_field f -> wf_field (retarget name plus v f).
Proof.
  intros Hname Hv Hc (Hg & Hfv & Hfc). unfold retarget.
  destruct (split_name name (gap f)) as [[pre ws]|] eqn:Es; [|now repeat split].
  destruct (negb (plus && is_nil (val f))); [|now repeat split].
  apply split_name_spec in Es as [Hgap _]. rewrite Hgap in Hg.
  apply quote_free_app in Hg as [Hpre Hg]. apply quote_free_app in Hg as [Hn _].
  repeat split; cbn [gap val]; auto.
  apply quote_free_app. split; [exact Hpre|].
  apply quote_free_app. split; [exact Hn|reflexivity].
Qed.

Lemma record_line_retarget (name : str) (plus : bool) (v : str)
      (fs : list field) (tl : str) :
  field_name name -> quote_free v -> colon_free v ->
  record_line fs tl -> record_line (map (retarget name plus v) fs) tl.
Proof.
  intros Hname Hv Hc [Hfs Htl]. split; [|exact Htl].
  induction Hfs as [|f fs Hf _ IH]; cbn [map]; constructor; auto.
  now apply wf_retarget.
Qed.

Lemma record_line_insert (k : str) (fs : list field) (tl : str) :
  quote_free k -> colon_free k ->
  record_line fs tl -> record_line (insert_rgs k fs tl) tl.
Proof.
  intros Hk Hc [Hfs Htl]. split; [|exact Htl].
  induction Hfs as [|f fs Hf _ IH]; cbn [insert_rgs]; [constructor|].
  destruct (is_some (split_name (txt "retrobat:") (gap f))
            && starts_with (txt ",") (render fs tl)).
  - constructor; [exact Hf|]. constructor; [|exact IH]. now repeat split.
  - now constructor.
Qed.

(** *** The searches of the two scripts on a record line *)

Lemma option_map_const {A B C} (f : A -> B) (o : option A) (b : B) (c : C) :
  option_map f o = Some b -> option_map (fun _ => c) o = Some c.
Proof. now destruct o. Qed.

Lemma src_search_render (fs : list field) (tl : str) :
  record_line fs tl ->
  search_group1 RGS.src_re (render fs tl)
  = option_map val (find (qual (txt "src:") true) fs).
Proof. apply (search_group1_render (txt "src:") true), field_name_src. Qed.

Lemma rgs_search_render (fs : list field) (tl : str) :
  record_line fs tl ->
  search_group1 RGS.rgs_re (render fs tl)
  = option_map val (find (qual (txt "retrobat_rgs:") false) fs).
Proof. apply (search_group1_render (txt "retrobat_rgs:") false), field_name_rgs. Qed.

Lemma marker_search_render (fs : list field) (tl : str) :
  record_line fs tl ->
  search_group1 SRC.marker_re (render fs tl)
  = option_map val (find (qual (txt "retrobat:") true) fs).
Proof. apply (search_group1_render (txt "retrobat:") true), field_name_marker. Qed.

Lemma src_sub_render (v : str) (fs : list field) (tl : str) :
  plain v -> record_line fs tl ->
  re_sub RGS.src_sub_re (RGS.src_text v) (render fs tl)
  = Ok (render (map (retarget (txt "src:") true v) fs) tl).
Proof.
  intros Hp Hrec.
  change (RGS.src_text v) with (field_text (txt "src:") v).
  rewrite re_sub_plain by (apply plain_field_text; [reflexivity|exact Hp]).
  change (re_items RGS.src_sub_re) with (field_pattern (txt "src:") true []).
  now rewrite sub_from_render by auto using field_name_src.
Qed.

Lemma rgs_sub_render (k : str) (fs : list field) (tl : str) :
  plain k -> record_line fs tl ->
  re_sub RGS.rgs_sub_re (RGS.rgs_text k) (render fs tl)
  = Ok (render (map (retarget (txt "retrobat_rgs:") false k) fs) tl).
Proof.
  intros Hp Hrec.
  change (RGS.rgs_text k) with (field_text (txt "retrobat_rgs:") k).
  rewrite re_sub_plain by (apply plain_field_text; [reflexivity|exact Hp]).
  change (re_items RGS.rgs_sub_re)
    with (field_pattern (txt "retrobat_rgs:") false []).
  now rewrite sub_from_render by auto using field_name_rgs.
Qed.

(** *** The texts the inner loop of variant A looks for *)

Lemma starts_with_quoted (a b g c : str) :
  quote_free a -> quote_free g ->
  starts_with (a ++ quote :: b) (g ++ quote :: c)
  = str_eqb g a && starts_with b c.
Proof.
  unfold quote_free. revert g; induction a as [|x a IH]; intros [|d g] Ha Hg;
    cbn [app starts_with str_eqb forallb] in *.
  - now rewrite Ascii.eqb_refl.
  - apply andb_true_iff in Hg as [Hd _].
    now rewrite (not_quote_eqb _ Hd).
  - apply andb_true_iff in Ha as [Hx _].
    unfold not_quote in Hx. apply negb_true_iff in Hx. now rewrite Hx.
  - apply andb_true_iff in Ha as [_ Ha]. apply andb_true_iff in Hg as [_ Hg].
    rewrite (IH g Ha Hg), (Ascii.eqb_sym d x). apply andb_assoc.
Qed.

Lemma starts_with_field_text (name k g v R : str) :
  quote_free name -> quote_free k -> quote_free g -> quote_free v ->
  starts_with ((name ++ [" "%char]) ++ quoted k) (g ++ quote :: v ++ quote :: R)
  = str_eqb g (name ++ [" "%char]) && str_eqb v k.
Proof.
  intros Hn Hk Hg Hv. unfold quoted.
  rewrite (starts_with_quoted (name ++ [" "%char]) (k ++ [quote]) g
             (v ++ quote :: R)); auto.
  - f_equal.
    rewrite (starts_with_quoted k [] v R) by auto.
    cbn [starts_with]. apply andb_true_r.
  - apply quote_free_app. now split.
Qed.

Lemma contains_cons (p : str) (c : ascii) (s : str) :
  contains p (c :: s) = starts_with p (c :: s) || contains p s.
Proof. reflexivity. Qed.

Lemma contains_quote_free (a b u : str) :
  quote_free u -> contains (a ++ quote :: b) u = false.
Proof.
  intros Hu. destruct (contains (a ++ quote :: b) u) eqn:E; [|reflexivity].
  apply contains_iff in E as (x & y & ->).
  apply quote_free_app in Hu as [_ Hu]. apply quote_free_app in Hu as [Hu _].
  apply quote_free_app in Hu as [_ Hu]. discriminate.
Qed.

(** Inside a value and at its closing quote the text does not start. *)
Lemma contains_value (name k v2 R : str) :
  field_name name -> quote_free k -> quote_free v2 -> colon_free v2 ->
  contains ((name ++ [" "%char]) ++ quoted k) (v2 ++ quote :: R)
  = contains ((name ++ [" "%char]) ++ quoted k) R.
Proof.
  intros Hname Hk Hq Hc. induction v2 as [|c v2 IH].
  - cbn [app]. rewrite contains_cons.
    replace (starts_with ((name ++ [" "%char]) ++ quoted k) (quote :: R))
      with false; [reflexivity|].
    unfold quoted.
    change (quote :: R) with ([] ++ quote :: R) at 1.
    rewrite (starts_with_quoted (name ++ [" "%char]) (k ++ [quote]) [] R).
    + pose proof (field_name_nonempty _ Hname). now destruct name.
    + apply quote_free_app. split; [now apply field_name_quote_free|reflexivity].
    + reflexivity.
  - cbn [app]. rewrite contains_cons.
    apply (quote_free_app [c] v2) in Hq as [Hq1 Hq].
    pose proof Hc as Hc0.
    apply (colon_free_app [c] v2) in Hc as [Hc1 Hc].
    rewrite (IH Hq Hc).
    replace (starts_with ((name ++ [" "%char]) ++ quoted k) (c :: v2 ++ quote :: R))
      with false; [reflexivity|].
    unfold quoted.
    change (c :: v2 ++ quote :: R) with ((c :: v2) ++ quote :: R).
    rewrite (starts_with_quoted (name ++ [" "%char]) (k ++ [quote]) (c :: v2) R).
    + destruct (str_eqb_spec (c :: v2) (name ++ [" "%char])) as [E|]; [|reflexivity].
      exfalso. apply (colon_free_In _ Hc0). rewrite E.
      apply in_or_app. left. now apply colon_in_name.
    + apply quote_free_app. split; [now apply field_name_quote_free|reflexivity].
    + apply (quote_free_app [c] v2). now split.
Qed.

(** One field of the line under [in]. *)
Lemma contains_gap (name k v R : str) :
  field_name name -> quote_free k -> quote_free v -> colon_free v ->
  forall g, quote_free g ->
  contains ((name ++ [" "%char]) ++ quoted k) (g ++ quoted v ++ R)
  = (ends_with (name ++ [" "%char]) g && str_eqb v k)
    || contains ((name ++ [" "%char]) ++ quoted k) R.
Proof.
  intros Hname Hk Hv Hc.
  assert (Hn : quote_free name) by now apply field_name_quote_free.
  induction g as [|c g IH]; intros Hg.
  - cbn [app]. rewrite quoted_app, contains_cons.
    pose proof (starts_with_field_text name k [] v R Hn Hk Hg Hv) as E.
    cbn [app] in E. rewrite E.
    rewrite contains_value by auto. cbn [ends_with]. now rewrite orb_false_r.
  - assert (Hg' : quote_free g) by now apply (quote_free_app [c] g) in Hg.
    cbn [app]. rewrite contains_cons, (IH Hg'). rewrite quoted_app.
    change (c :: g ++ quote :: v ++ quote :: R)
      with ((c :: g) ++ quote :: v ++ quote :: R).
    rewrite starts_with_field_text by auto. cbn [ends_with].
    destruct (str_eqb (c :: g) (name ++ [" "%char]));
      destruct (ends_with (name ++ [" "%char]) g);
      destruct (str_eqb v k); reflexivity.
Qed.

Lemma contains_render (name k : str) (fs : list field) (tl : str) :
  field_name name -> quote_free k -> record_line fs tl ->
  contains ((name ++ [" "%char]) ++ quoted k) (render fs tl)
  = existsb (has_field name k) fs.
Proof.
  intros Hname Hk [Hfs Htl]. induction Hfs as [|f fs (Hg & Hv & Hc) _ IH].
  - cbn [render existsb]. unfold quoted. now apply contains_quote_free.
  - cbn [render existsb]. unfold render_field.
    rewrite <- (app_assoc (gap f)).
    rewrite contains_gap by auto. now rewrite IH.
Qed.

Lemma ends_with_iff (p g : str) :
  ends_with p g = true <-> exists pre, g = pre ++ p.
Proof.
  split.
  - induction g as [|c g IH]; cbn [ends_with]; intros H;
      apply orb_true_iff in H as [H|H].
    + exists []. now destruct (str_eqb_spec [] p).
    + discriminate.
    + exists []. now destruct (str_eqb_spec (c :: g) p).
    + destruct (IH H) as [pre ->]. now exists (c :: pre).
  - intros [pre ->]. induction pre as [|c pre IH].
    + destruct p; cbn [app ends_with]; now rewrite str_eqb_refl.
    + cbn [app ends_with]. rewrite IH. apply orb_true_r.
Qed.

(** A gap that ends in the name and one space has the name. *)
Lemma ends_with_named (name g : str) :
  ends_with (name ++ [" "%char]) g = true ->
  is_some (split_name name g) = true.
Proof.
  intros H. apply ends_with_iff in H as [pre ->].
  now apply split_name_complete.
Qed.

Lemma has_field_other (n1 n2 g k : str) :
  apart n1 n2 -> is_some (split_name n1 g) = true ->
  ends_with (n2 ++ [" "%char]) g = false.
Proof.
  intros Hap H1. destruct (ends_with (n2 ++ [" "%char]) g) eqn:E; [|reflexivity].
  apply ends_with_named in E.
  now rewrite (split_name_apart n1 n2 g Hap H1) in E.
Qed.

(** A rewrite of the fields [n1] leaves the texts of the fields [n2]. *)
Lemma has_field_retarget_other (n1 n2 : str) (p1 : bool) (v k : str) (f : field) :
  apart n1 n2 ->
  has_field n2 k (retarget n1 p1 v f) = has_field n2 k f.
Proof.
  intros Hap. unfold retarget.
  destruct (split_name n1 (gap f)) as [[pre ws]|] eqn:E; [|reflexivity].
  destruct (negb (p1 && is_nil (val f))); [|reflexivity].
  unfold has_field. cbn [gap val].
  rewrite (has_field_other n1 n2 (pre ++ n1 ++ [" "%char]) k Hap)
    by now apply split_name_complete.
  rewrite (has_field_other n1 n2 (gap f) k Hap) by now rewrite E.
  reflexivity.
Qed.

(** After a rewrite of the fields [name], the text is there exactly for
    the value written, when a field took it. *)
Lemma has_field_retarget_same (name v p : str) (f : field) :
  p <> [] ->
  has_field name p (retarget name true v f)
  = qual name true f && str_eqb v p.
Proof.
  intros Hp. unfold retarget, qual.
  destruct (split_name name (gap f)) as [[pre ws]|] eqn:E; cbn [is_some andb].
  - destruct (val f) as [|c w] eqn:Ev; cbn [is_nil negb andb].
    + unfold has_field. rewrite Ev.
      destruct p; [congruence|]. cbn [str_eqb]. apply andb_false_r.
    + unfold has_field. cbn [gap val].
      replace (ends_with (name ++ [" "%char]) (pre ++ name ++ [" "%char]))
        with true; [reflexivity|].
      symmetry. apply ends_with_iff. now exists pre.
  - unfold has_field.
    destruct (ends_with (name ++ [" "%char]) (gap f)) eqn:Ee; [|reflexivity].
    apply ends_with_named in Ee. now rewrite E in Ee.
Qed.

Lemma existsb_map {A B} (f : B -> bool) (g : A -> B) (l : list A) :
  existsb f (map g l) = existsb (fun x => f (g x)) l.
Proof. induction l as [|x l IH]; cbn; [reflexivity|now rewrite IH]. Qed.

Lemma existsb_eq {A} (f g : A -> bool) (l : list A) :
  (forall x, f x = g x) -> existsb f l = existsb g l.
Proof. intros H. induction l as [|x l IH]; cbn; [reflexivity|now rewrite H, IH]. Qed.

Lemma existsb_and {A} (f : A -> bool) (b : bool) (l : list A) :
  existsb (fun x => f x && b) l = existsb f l && b.
Proof.
  induction l as [|x l IH]; cbn; [reflexivity|].
  rewrite IH. now destruct (f x), b, (existsb f l).
Qed.

Lemma find_existsb {A} (f : A -> bool) (l : list A) (x : A) :
  find f l = Some x -> existsb f l = true.
Proof.
  intros H. apply find_some in H. apply existsb_exists. now exists x.
Qed.

Lemma find_eq_in {A} (f g : A -> bool) (l : list A) :
  (forall x, In x l -> f x = g x) -> find f l = find g l.
Proof.
  induction l as [|x l IH]; intros H; cbn; [reflexivity|].
  rewrite (H x) by now left. rewrite IH; [reflexivity|].
  intros y Hy. apply H. now right.
Qed.

Lemma apart_rgs_marker : apart (txt "retrobat_rgs:") (txt "retrobat:").
Proof.
  exists (txt "retrobat_rg"), "s"%char, (txt "retroba"), "t"%char.
  repeat split. discriminate.
Qed.

Lemma existsb_retarget_other (n1 n2 : str) (p1 : bool) (v k : str)
      (fs : list field) :
  apart n1 n2 ->
  existsb (has_field n2 k) (map (retarget n1 p1 v) fs)
  = existsb (has_field n2 k) fs.
Proof.
  intros Hap. rewrite existsb_map. apply existsb_eq. intros f.
  now apply has_field_retarget_other.
Qed.

Lemma existsb_retarget_same (name v p : str) (fs : list field) :
  p <> [] ->
  existsb (has_field name p) (map (retarget name true v) fs)
  = existsb (qual name true) fs && str_eqb v p.
Proof.
  intros Hp. rewrite existsb_map, <- existsb_and. apply existsb_eq.
  intros f. now apply has_field_retarget_same.
Qed.

Lemma existsb_insert (name k' k : str) (fs : list field) (tl : str) :
  ends_with (name ++ [" "%char]) (txt ", retrobat_rgs: ") = false ->
  existsb (has_field name k') (insert_rgs k fs tl)
  = existsb (has_field name k') fs.
Proof.
  intros Hn. induction fs as [|f fs IH]; [reflexivity|].
  cbn [insert_rgs].
  destruct (is_some (split_name (txt "retrobat:") (gap f))
            && starts_with (txt ",") (render fs tl)); cbn [existsb];
    rewrite IH; [|reflexivity].
  unfold has_field at 2. unfold new_field. cbn [gap]. now rewrite Hn.
Qed.

Lemma hit_render (m : mappings) (fs : list field) (tl j : str)
      (rec : system_record) :
  wf_table m -> record_line fs tl -> dict_find j m = Some rec ->
  RGS.hit m (render fs tl) j = marker_hit fs j || src_hit fs (src rec).
Proof.
  intros Hwf Hrec Hj. destruct (Hwf j rec Hj) as ((Hq & _) & (Hsq & _) & _).
  unfold RGS.hit. rewrite Hj. unfold marker_hit, src_hit.
  rewrite <- (contains_render (txt "retrobat:") j fs tl)
    by auto using field_name_marker.
  rewrite <- (contains_render (txt "src:") (src rec) fs tl)
    by auto using field_name_src.
  reflexivity.
Qed.

(** *** A second pass over record lines *)

(** The src step of both scripts on a record line: the line it returns
    is a record line, its src field holds the new path, and its other
    fields are found as before. *)
Lemma src_step_record (fs : list field) (tl cur new : str) :
  record_line fs tl ->
  search_group1 RGS.src_re (render fs tl) = Some cur ->
  word new -> new <> [] ->
  exists fs1,
    (if str_eqb cur new then Ok (render fs tl)
     else re_sub RGS.src_sub_re (RGS.src_text new) (render fs tl))
    = Ok (render fs1 tl) /\
    record_line fs1 tl /\
    search_group1 RGS.src_re (render fs1 tl) = Some new /\
    search_group1 RGS.rgs_re (render fs1 tl)
    = search_group1 RGS.rgs_re (render fs tl) /\
    search_group1 SRC.marker_re (render fs1 tl)
    = search_group1 SRC.marker_re (render fs tl) /\
    (forall j, marker_hit fs1 j = marker_hit fs j) /\
    ((forall p, src_hit fs1 p = src_hit fs p) \/
     (forall p, p <> [] -> src_hit fs1 p = str_eqb new p)).
Proof.
  intros Hrec Hcur (Hq & Hc & Hp) Hne.
  destruct (str_eqb_spec cur new) as [->|Hdiff].
  - exists fs. repeat split; auto; apply Hrec.
  - exists (map (retarget (txt "src:") true new) fs).
    assert (Hrec1 : record_line (map (retarget (txt "src:") true new) fs) tl)
      by (apply record_line_retarget; auto using field_name_src).
    split; [now apply src_sub_render|]. split; [exact Hrec1|].
    rewrite !src_search_render, !rgs_search_render, !marker_search_render
      in * by assumption.
    rewrite find_retarget_same by auto.
    rewrite !find_retarget_other by auto using apart_src_rgs, apart_src_marker.
    destruct (find (qual (txt "src:") true) fs) as [f0|] eqn:Ef; [|discriminate].
    repeat split.
    + intros j. apply existsb_retarget_other, apart_src_marker.
    + right. intros p Hpne. unfold src_hit.
      rewrite existsb_retarget_same by assumption.
      now rewrite (find_existsb _ _ _ Ef).
Qed.

(** Variant B on a record line: the second pass finds the line as the
    first one left it. *)
Lemma src_record_twice (m : mappings) (i j : nat) (fs : list field)
      (tl line' : str) (n : nat) (ev : list SRC.event) :
  wf_table m -> record_line fs tl ->
  SRC.patch_line m i (render fs tl) = Ok (line', n, ev) ->
  exists ev', SRC.patch_line m j line' = Ok (line', 0, ev').
Proof.
  intros Hwf Hrec H.
  apply (src_patch_line_twice m i j (render fs tl) line' n ev); auto.
  - intros k rec Hk. destruct (Hwf k rec Hk) as (_ & (Hq & _ & Hp) & Hne).
    now repeat split.
  - destruct (src_patch_line_cases m i (render fs tl)) as (C1 & C2 & C3 & C4 & _).
    destruct (search_group1 SRC.marker_re (render fs tl)) as [k|] eqn:Ek.
    2:{ rewrite (C1 eq_refl) in H. injection H as <- _ _. exact Ek. }
    destruct (dict_mem k m) eqn:Emem.
    2:{ rewrite (C2 k eq_refl Emem) in H. injection H as <- _ _. exact Ek. }
    destruct (search_group1 SRC.src_re (render fs tl)) as [cur|] eqn:Es.
    2:{ rewrite (C3 k eq_refl Emem eq_refl) in H. injection H as <- _ _.
        exact Ek. }
    unfold dict_mem in Emem.
    destruct (dict_find k m) as [rec|] eqn:Erec; [|discriminate].
    destruct (Hwf k rec Erec) as (_ & Hw & Hne).
    destruct (src_step_record fs tl cur (src rec) Hrec Es Hw Hne)
      as (fs1 & Hstep & _ & _ & _ & Hmk & _).
    unfold SRC.patch_line in H. rewrite Ek in H. unfold dict_mem, dict_get in H.
    rewrite Erec, Es in H. cbn [negb bind Ok] in H.
    change SRC.src_sub_re with RGS.src_sub_re in H.
    change (SRC.src_text (src rec)) with (RGS.src_text (src rec)) in H.
    destruct (str_eqb cur (src rec)).
    + injection H as <- _ _. exact Ek.
    + rewrite Hstep in H. cbn [bind Ok] in H. injection H as <- _ _.
      now rewrite Hmk.
Qed.

(** Variant A on a record line: when the second pass matches the line
    to the same id, and the line has a retrobat_rgs field or no retrobat
    text at all, the second pass finds the line as the first one left
    it. *)
Lemma rgs_record_twice (m : mappings) (fs : list field) (tl line' : str)
      (n : nat) (ev : list RGS.event) :
  wf_table m -> record_line fs tl ->
  RGS.patch_line m (render fs tl) = Ok (line', n, ev) ->
  RGS.find_match m (dict_keys m) line'
  = RGS.find_match m (dict_keys m) (render fs tl) ->
  (search_group1 RGS.rgs_re line' <> None \/
   contains (txt "retrobat:") line' = false) ->
  RGS.patch_line m line' = Ok (line', 0, []).
Proof.
  intros Hwf Hrec H Hkept Hslip. pose proof H as H0.
  pose proof (find_match_keys m (render fs tl)) as Hf.
  destruct (find (RGS.hit m (render fs tl)) (dict_keys m)) as [k|] eqn:Ef.
  2:{ unfold RGS.patch_line in H. rewrite Hf in H.
      injection H as <- <- <-. exact H0. }
  destruct k as [|c k].
  { unfold RGS.patch_line in H. rewrite Hf in H.
    injection H as <- <- <-. exact H0. }
  set (k0 := c :: k) in *.
  assert (Hk0 : k0 <> []) by discriminate.
  destruct (dict_find_keys k0 m) as [rec Hrec0].
  { apply find_some in Ef. tauto. }
  destruct (Hwf k0 rec Hrec0) as ((Hkq & Hkc & Hkp) & Hw & Hne).
  rewrite (rgs_patch_line_matched _ _ _ _ Hf Hk0 Hrec0) in H.
  rewrite Hf in Hkept.
  destruct (search_group1 RGS.src_re (render fs tl)) as [cur|] eqn:Es.
  2:{ injection H as <- <- <-. exact H0. }
  clear H0.
  destruct (src_step_record fs tl cur (src rec) Hrec Es Hw Hne)
    as (fs1 & Hstep & Hrec1 & Hsrc1 & Hrgs1 & _).
  rewrite Hstep in H. cbn [bind Ok] in H. rewrite <- Hrgs1 in H.
  clear Hstep Hrgs1 Es.
  destruct (search_group1 RGS.rgs_re (render fs1 tl)) as [r0|] eqn:Er.
  - destruct (str_eqb_spec r0 k0) as [->|Hdiff].
    + injection H as <- _ _.
      now apply (rgs_patch_line_in_sync m (render fs1 tl) k0 rec).
    + rewrite rgs_sub_render in H by assumption.
      cbn [bind Ok] in H. injection H as <- _ _.
      assert (Hrec2 : record_line
                        (map (retarget (txt "retrobat_rgs:") false k0) fs1) tl)
        by (apply record_line_retarget; auto using field_name_rgs).
      rewrite src_search_render in Hsrc1 by assumption.
      rewrite rgs_search_render in Er by assumption.
      apply (rgs_patch_line_in_sync m _ k0 rec); auto.
      * rewrite src_search_render by assumption.
        now rewrite find_retarget_other by (apply apart_sym, apart_src_rgs).
      * rewrite rgs_search_render by assumption.
        rewrite find_retarget_same by discriminate.
        exact (option_map_const _ _ _ _ Er).
  - destruct (contains (txt "retrobat:") (render fs1 tl)) eqn:Ec.
    + rewrite re_sub_insert_render in H by auto. cbn [bind Ok] in H.
      injection H as <- _ _.
      assert (Hrec2 : record_line (insert_rgs k0 fs1 tl) tl)
        by now apply record_line_insert.
      rewrite src_search_render in Hsrc1 by assumption.
      rewrite rgs_search_render in Er by assumption.
      assert (Enone : find (qual (txt "retrobat_rgs:") false) fs1 = None).
      { now destruct (find (qual (txt "retrobat_rgs:") false) fs1). }
      destruct (find_insert_rgs k0 fs1 tl Enone) as [Hins|Hsame].
      * apply (rgs_patch_line_in_sync m _ k0 rec); auto.
        -- rewrite src_search_render by assumption.
           now rewrite find_insert_src.
        -- now rewrite rgs_search_render by assumption.
      * exfalso. rewrite Hsame in Hslip.
        rewrite rgs_search_render in Hslip by assumption.
        rewrite Enone in Hslip. destruct Hslip as [Hslip|Hslip];
          [now apply Hslip|congruence].
    + injection H as <- _ _.
      rewrite (rgs_patch_line_matched _ _ _ _ Hkept Hk0 Hrec0).
      rewrite Hsrc1, Er, str_eqb_refl. cbn [bind Ok]. now rewrite Ec.
Qed.

(** The line variant A writes for a record line: a record line with the
    same marker texts; its source texts are those of the line read, or
    the one of the id matched. *)
Lemma rgs_patch_shape (m : mappings) (fs : list field) (tl line' : str)
      (n : nat) (ev : list RGS.event) :
  wf_table m -> record_line fs tl ->
  RGS.patch_line m (render fs tl) = Ok (line', n, ev) ->
  exists fs2,
    line' = render fs2 tl /\ record_line fs2 tl /\
    (forall j, marker_hit fs2 j = marker_hit fs j) /\
    ((forall p, src_hit fs2 p = src_hit fs p) \/
     (exists k rec,
         find (RGS.hit m (render fs tl)) (dict_keys m) = Some k /\
         dict_find k m = Some rec /\
         forall p, p <> [] -> src_hit fs2 p = str_eqb (src rec) p)).
Proof.
  intros Hwf Hrec H.
  assert (Hsame : line' = render fs tl ->
                  exists fs2,
                    line' = render fs2 tl /\ record_line fs2 tl /\
                    (forall j, marker_hit fs2 j = marker_hit fs j) /\
                    ((forall p, src_hit fs2 p = src_hit fs p) \/
                     (exists k rec,
                         find (RGS.hit m (render fs tl)) (dict_keys m) = Some k /\
                         dict_find k m = Some rec /\
                         forall p, p <> [] -> src_hit fs2 p = str_eqb (src rec) p))).
  { intros ->. exists fs. repeat split; auto; apply Hrec. }
  pose proof (find_match_keys m (render fs tl)) as Hf.
  destruct (find (RGS.hit m (render fs tl)) (dict_keys m)) as [k|] eqn:Ef.
  2:{ unfold RGS.patch_line in H. rewrite Hf in H.
      injection H as <- _ _. now apply Hsame. }
  destruct k as [|c k].
  { unfold RGS.patch_line in H. rewrite Hf in H.
    injection H as <- _ _. now apply Hsame. }
  set (k0 := c :: k) in *.
  assert (Hk0 : k0 <> []) by discriminate.
  destruct (dict_find_keys k0 m) as [rec Hrec0].
  { apply find_some in Ef. tauto. }
  destruct (Hwf k0 rec Hrec0) as ((Hkq & Hkc & Hkp) & Hw & Hne).
  rewrite (rgs_patch_line_matched _ _ _ _ Hf Hk0 Hrec0) in H.
  destruct (search_group1 RGS.src_re (render fs tl)) as [cur|] eqn:Es.
  2:{ injection H as <- _ _. now apply Hsame. }
  clear Hsame.
  destruct (src_step_record fs tl cur (src rec) Hrec Es Hw Hne)
    as (fs1 & Hstep & Hrec1 & _ & Hrgs1 & _ & Hmk & Hsrc).
  rewrite Hstep in H. cbn [bind Ok] in H. rewrite <- Hrgs1 in H.
  assert (Hsrc' : (forall p, src_hit fs1 p = src_hit fs p) \/
                  (exists k rec,
                      Some k0 = Some k /\ dict_find k m = Some rec /\
                      forall p, p <> [] -> src_hit fs1 p = str_eqb (src rec) p)).
  { destruct Hsrc as [Hsrc|Hsrc]; [left; exact Hsrc|right].
    exists k0, rec. repeat split; assumption. }
  clear Hstep Hrgs1 Es Hsrc.
  destruct (search_group1 RGS.rgs_re (render fs1 tl)) as [r0|] eqn:Er.
  - destruct (str_eqb r0 k0).
    + injection H as <- _ _. now exists fs1.
    + rewrite rgs_sub_render in H by assumption.
      cbn [bind Ok] in H. injection H as <- _ _.
      exists (map (retarget (txt "retrobat_rgs:") false k0) fs1).
      split; [reflexivity|].
      split; [apply record_line_retarget; auto using field_name_rgs|].
      assert (Hs : forall p,
                 src_hit (map (retarget (txt "retrobat_rgs:") false k0) fs1) p
                 = src_hit fs1 p).
      { intros p. apply existsb_retarget_other, apart_sym, apart_src_rgs. }
      split.
      * intros j. rewrite <- Hmk.
        apply existsb_retarget_other, apart_rgs_marker.
      * destruct Hsrc' as [Hsrc|(k1 & r1 & E1 & E2 & Hsrc)].
        -- left. intros p. now rewrite Hs.
        -- right. exists k1, r1. repeat split; auto.
           intros p Hp. now rewrite Hs, Hsrc.
  - destruct (contains (txt "retrobat:") (render fs1 tl)).
    + rewrite re_sub_insert_render in H by auto. cbn [bind Ok] in H.
      injection H as <- _ _.
      exists (insert_rgs k0 fs1 tl).
      split; [reflexivity|].
      split; [now apply record_line_insert|].
      assert (Hs : forall p, src_hit (insert_rgs k0 fs1 tl) p = src_hit fs1 p).
      { intros p. now apply existsb_insert. }
      split.
      * intros j. rewrite <- Hmk. now apply existsb_insert.
      * destruct Hsrc' as [Hsrc|(k1 & r1 & E1 & E2 & Hsrc)].
        -- left. intros p. now rewrite Hs.
        -- right. exists k1, r1. repeat split; auto.
           intros p Hp. now rewrite Hs, Hsrc.
    + injection H as <- _ _. now exists fs1.
Qed.

(** On a record line, with no path shared by two ids, the inner loop
    matches the line written to the id it matched the line read to. *)
Lemma rgs_match_kept (m : mappings) (fs : list field) (tl line' : str)
      (n : nat) (ev : list RGS.event) :
  wf_table m -> distinct_paths m -> record_line fs tl ->
  RGS.patch_line m (render fs tl) = Ok (line', n, ev) ->
  RGS.find_match m (dict_keys m) line'
  = RGS.find_match m (dict_keys m) (render fs tl).
Proof.
  intros Hwf Hd Hrec H.
  destruct (rgs_patch_shape m fs tl line' n ev Hwf Hrec H)
    as (fs2 & -> & Hrec2 & Hmk & Hsrc).
  clear H. rewrite !find_match_keys. f_equal.
  destruct Hsrc as [Hsrc|(k & rec & Ef & Hk & Hsrc)].
  - apply find_eq_in. intros j Hj.
    destruct (dict_find_keys j m Hj) as [rj Hrj].
    rewrite (hit_render m fs2 tl j rj), (hit_render m fs tl j rj) by assumption.
    now rewrite Hmk, Hsrc.
  - rewrite Ef. apply find_first_iff in Ef as (l1 & l2 & Hkeys & Hhit & Hbefore).
    apply find_first_iff. exists l1, l2. split; [exact Hkeys|].
    destruct (Hwf k rec Hk) as (_ & _ & Hne).
    split.
    + rewrite (hit_render m fs2 tl k rec) by assumption.
      rewrite (Hsrc _ Hne), str_eqb_refl. apply orb_true_r.
    + intros j Hj.
      assert (Hin : In j (dict_keys m)).
      { rewrite Hkeys. apply in_or_app. now left. }
      destruct (dict_find_keys j m Hin) as [rj Hrj].
      destruct (Hwf j rj Hrj) as (_ & _ & Hnej).
      pose proof (Hbefore j Hj) as Hb.
      rewrite (hit_render m fs tl j rj) in Hb by assumption.
      apply orb_false_iff in Hb as [Hb _].
      rewrite (hit_render m fs2 tl j rj) by assumption.
      rewrite Hmk, Hb, (Hsrc _ Hnej). cbn [orb].
      destruct (str_eqb_spec (src rec) (src rj)) as [E|]; [|reflexivity].
      exfalso. apply (Hd j k rj rec Hrj Hk); [|now symmetry].
      intros ->. rewrite (Hbefore k Hj) in Hhit. discriminate.
Qed.

Lemma rgs_record_again (m : mappings) (line line' : str)
      (n : nat) (ev : list RGS.event) :
  wf_table m -> distinct_paths m -> is_record line ->
  RGS.patch_line m line = Ok (line', n, ev) ->
  rgs_present line' = true ->
  RGS.patch_line m line' = Ok (line', 0, []).
Proof.
  intros Hwf Hd (fs & tl & -> & Hrec) H Hp.
  apply (rgs_record_twice m fs tl line' n ev); auto.
  - now apply (rgs_match_kept m fs tl line' n ev).
  - unfold rgs_present in Hp. apply orb_true_iff in Hp as [Hp|Hp].
    + left. now destruct (search_group1 RGS.rgs_re line').
    + right. now apply negb_true_iff.
Qed.

Lemma rgs_patch_lines_record (m : mappings) (lines : list str) :
  wf_table m -> distinct_paths m -> Forall is_record lines ->
  forall lines' n ev,
    RGS.patch_lines m lines = Ok (lines', n, ev) ->
    Forall (fun l => rgs_present l = true) lines' ->
    RGS.patch_lines m lines' = Ok (lines', 0, []).
Proof.
  intros Hwf Hd. induction 1 as [|line lines Hl _ IH]; intros lines' n ev H Hp.
  - injection H as <- _ _. reflexivity.
  - cbn [RGS.patch_lines] in H.
    destruct (RGS.patch_line m line) as [e|[[l' n1] ev1]] eqn:E1; [discriminate|].
    destruct (RGS.patch_lines m lines) as [e|[[ls' n2] ev2]] eqn:E2;
      [discriminate|].
    cbn in H. injection H as <- _ _.
    apply Forall_cons_iff in Hp as [Hp1 Hp2].
    cbn [RGS.patch_lines].
    rewrite (rgs_record_again m line l' n1 ev1 Hwf Hd Hl E1 Hp1).
    now rewrite (IH _ _ _ eq_refl Hp2).
Qed.

Lemma src_patch_lines_record (m : mappings) (lines : list str) :
  wf_table m -> Forall is_record lines ->
  forall i lines' n ev,
    SRC.patch_lines m i lines = Ok (lines', n, ev) ->
    exists ev', SRC.patch_lines m i lines' = Ok (lines', 0, ev').
Proof.
  intros Hwf. induction 1 as [|line lines Hl _ IH]; intros i lines' n ev H.
  - injection H as <- _ _. now exists [].
  - cbn [SRC.patch_lines] in H.
    destruct (SRC.patch_line m i line) as [e|[[l' n1] ev1]] eqn:E1; [discriminate|].
    destruct (SRC.patch_lines m (S i) lines) as [e|[[ls' n2] ev2]] eqn:E2;
      [discriminate|].
    cbn in H. injection H as <- _ _.
    destruct Hl as (fs & tl & -> & Hrec).
    destruct (src_record_twice m i i fs tl l' n1 ev1 Hwf Hrec E1) as [ev1' H1].
    destruct (IH _ _ _ _ E2) as [ev2' H2].
    exists (ev1' ++ ev2'). cbn [SRC.patch_lines]. now rewrite H1, H2.
Qed.










(** * The rest of the code *)

(** ** The loop over the lines: lines and counts *)

Lemma rgs_patch_line_count (m : mappings) (line line' : str) (n : nat)
      (ev : list RGS.event) :
  RGS.patch_line m line = Ok (line', n, ev) -> n <= 1 /\ length ev = n.
Proof.
  unfold RGS.patch_line.
  destruct (RGS.find_match m (dict_keys m) line) as [e|[k|]];
    cbn [bind Ok]; [discriminate| |].
  2:{ intros H; injection H as _ <- <-. split; [lia|reflexivity]. }
  destruct k as [|c k].
  { intros H; injection H as _ <- <-. split; [lia|reflexivity]. }
  destruct (dict_get m (c :: k)) as [e|rec]; cbn [bind Ok]; [discriminate|].
  destruct (search_group1 RGS.src_re line) as [cur|].
  2:{ intros H; injection H as _ <- <-. split; [lia|reflexivity]. }
  destruct (if str_eqb cur (src rec) then Ok line
            else re_sub RGS.src_sub_re (RGS.src_text (src rec)) line)
    as [e|line1]; cbn [bind Ok]; [discriminate|].
  destruct (search_group1 RGS.rgs_re line) as [r0|].
  - destruct (str_eqb r0 (c :: k)).
    + intros H; injection H as _ <- <-. split; [lia|reflexivity].
    + destruct (re_sub RGS.rgs_sub_re (RGS.rgs_text (c :: k)) line1);
        cbn [bind Ok]; [discriminate|].
      intros H; injection H as _ <- <-. split; [lia|reflexivity].
  - destruct (contains (txt "retrobat:") line1).
    + destruct (re_sub RGS.marker_re (RGS.insert_template (c :: k)) line1);
        cbn [bind Ok]; [discriminate|].
      intros H; injection H as _ <- <-. split; [lia|reflexivity].
    + intros H; injection H as _ <- <-. split; [lia|reflexivity].
Qed.

Lemma src_patch_line_count (m : mappings) (i : nat) (line line' : str) (n : nat)
      (ev : list SRC.event) :
  SRC.patch_line m i line = Ok (line', n, ev) ->
  n <= 1 /\ length (filter is_updated ev) = n /\ (n = 0 -> line' = line).
Proof.
  unfold SRC.patch_line.
  destruct (search_group1 SRC.marker_re line) as [k|].
  2:{ intros H; injection H as <- <- <-. repeat split; lia. }
  destruct (negb (dict_mem k m)).
  { intros H; injection H as <- <- <-. repeat split; lia. }
  destruct (search_group1 SRC.src_re line) as [cur|].
  2:{ intros H; injection H as <- <- <-. repeat split; lia. }
  destruct (dict_get m k) as [e|rec]; cbn [bind Ok]; [discriminate|].
  destruct (str_eqb cur (src rec)).
  { intros H; injection H as <- <- <-. repeat split; lia. }
  destruct (re_sub SRC.src_sub_re (SRC.src_text (src rec)) line);
    cbn [bind Ok]; [discriminate|].
  intros H; injection H as _ <- <-. repeat split; [lia|discriminate].
Qed.

Lemma rgs_patch_lines_count (m : mappings) (lines : list str) :
  forall lines' n ev,
    RGS.patch_lines m lines = Ok (lines', n, ev) ->
    length lines' = length lines /\ n <= length lines /\ length ev = n.
Proof.
  induction lines as [|l lines IH]; intros lines' n ev H.
  - injection H as <- <- <-. repeat split; reflexivity.
  - cbn [RGS.patch_lines] in H.
    destruct (RGS.patch_line m l) as [e|[[l' n1] ev1]] eqn:E1; [discriminate|].
    destruct (RGS.patch_lines m lines) as [e|[[ls' n2] ev2]] eqn:E2;
      [discriminate|].
    cbn in H. injection H as <- <- <-.
    destruct (rgs_patch_line_count _ _ _ _ _ E1) as [H1 H2].
    destruct (IH _ _ _ eq_refl) as (H3 & H4 & H5).
    cbn [length]. rewrite length_app. repeat split; lia.
Qed.

Lemma src_patch_lines_count (m : mappings) (lines : list str) :
  forall i lines' n ev,
    SRC.patch_lines m i lines = Ok (lines', n, ev) ->
    length lines' = length lines /\ n <= length lines /\
    length (filter is_updated ev) = n /\ (n = 0 -> lines' = lines).
Proof.
  induction lines as [|l lines IH]; intros i lines' n ev H.
  - injection H as <- <- <-. repeat split; reflexivity.
  - cbn [SRC.patch_lines] in H.
    destruct (SRC.patch_line m i l) as [e|[[l' n1] ev1]] eqn:E1; [discriminate|].
    destruct (SRC.patch_lines m (S i) lines) as [e|[[ls' n2] ev2]] eqn:E2;
      [discriminate|].
    cbn in H. injection H as <- <- <-.
    destruct (src_patch_line_count _ _ _ _ _ _ E1) as (H1 & H2 & H2').
    destruct (IH _ _ _ _ E2) as (H3 & H4 & H5 & H6).
    cbn [length]. rewrite filter_app, length_app. repeat split; try lia.
    intros H0. rewrite H2', H6 by lia. reflexivity.
Qed.

(** X1.  Both scripts write back as many lines as they read, and count
    at most one change for a line. *)
Theorem patch_keeps_line_count (m : mappings) (lines : list str) :
  (forall r, RGS.update_yaml_file m lines = Ok r ->
             length (RGS.written r) = length lines /\
             RGS.updated_count r <= length lines) /\
  (forall r, SRC.update_yaml_file m lines = Ok r ->
             length (SRC.written r) = length lines /\
             SRC.updated_count r <= length lines).
Proof.
  split; intros r Hr.
  - apply rgs_update_written in Hr as [Hr _].
    apply rgs_patch_lines_count in Hr. tauto.
  - apply src_update_written in Hr as [Hr _].
    apply src_patch_lines_count in Hr. tauto.
Qed.

Lemma find_match_key (m : mappings) (line k : str) :
  RGS.find_match m (dict_keys m) line = Ok (Some k) -> In k (dict_keys m).
Proof.
  rewrite find_match_keys. intros H. injection H as H.
  apply find_some in H. tauto.
Qed.

Lemma rgs_patch_line_events (m : mappings) (line line' : str) (n : nat)
      (ev : list RGS.event) :
  RGS.patch_line m line = Ok (line', n, ev) ->
  forall e, In e ev ->
            RGS.find_match m (dict_keys m) line = Ok (Some (event_system e)).
Proof.
  unfold RGS.patch_line.
  destruct (RGS.find_match m (dict_keys m) line) as [e|[k|]];
    cbn [bind Ok]; [discriminate| |].
  2:{ intros H; injection H as _ _ <-. intros e []. }
  destruct k as [|c k].
  { intros H; injection H as _ _ <-. intros e []. }
  destruct (dict_get m (c :: k)) as [e|rec]; cbn [bind Ok]; [discriminate|].
  destruct (search_group1 RGS.src_re line) as [cur|].
  2:{ intros H; injection H as _ _ <-. intros e []. }
  destruct (if str_eqb cur (src rec) then Ok line
            else re_sub RGS.src_sub_re (RGS.src_text (src rec)) line)
    as [e|line1]; cbn [bind Ok]; [discriminate|].
  destruct (search_group1 RGS.rgs_re line) as [r0|].
  - destruct (str_eqb r0 (c :: k)).
    + intros H; injection H as _ _ <-. intros e [].
    + destruct (re_sub RGS.rgs_sub_re (RGS.rgs_text (c :: k)) line1);
        cbn [bind Ok]; [discriminate|].
      intros H; injection H as _ _ <-. intros e [<-|[]]. reflexivity.
  - destruct (contains (txt "retrobat:") line1).
    + destruct (re_sub RGS.marker_re (RGS.insert_template (c :: k)) line1);
        cbn [bind Ok]; [discriminate|].
      intros H; injection H as _ _ <-. intros e [<-|[]]. reflexivity.
    + intros H; injection H as _ _ <-. intros e [].
Qed.

Lemma rgs_patch_lines_events (m : mappings) (lines : list str) :
  forall lines' n ev,
    RGS.patch_lines m lines = Ok (lines', n, ev) ->
    forall e, In e ev ->
              exists line, In line lines /\
                           RGS.find_match m (dict_keys m) line
                           = Ok (Some (event_system e)).
Proof.
  induction lines as [|l lines IH]; intros lines' n ev H e He.
  - injection H as _ _ <-. destruct He.
  - cbn [RGS.patch_lines] in H.
    destruct (RGS.patch_line m l) as [x|[[l' n1] ev1]] eqn:E1; [discriminate|].
    destruct (RGS.patch_lines m lines) as [x|[[ls' n2] ev2]] eqn:E2;
      [discriminate|].
    cbn in H. injection H as _ _ <-.
    apply in_app_or in He as [He|He].
    + exists l. split; [now left|].
      exact (rgs_patch_line_events _ _ _ _ _ E1 e He).
    + destruct (IH _ _ _ eq_refl e He) as (line & Hin & Hm).
      exists line. split; [now right|exact Hm].
Qed.

(** X2.  Variant A prints one line for each change it counts, and each
    line printed is for the id that a line of the file was matched to;
    variant B prints one Updated line for each change it counts. *)
Theorem printed_is_counted (m : mappings) (lines : list str) :
  (forall r, RGS.update_yaml_file m lines = Ok r ->
             length (RGS.printed r) = RGS.updated_count r /\
             forall e, In e (RGS.printed r) ->
                       In (event_system e) (dict_keys m) /\
                       exists line,
                         In line lines /\
                         RGS.find_match m (dict_keys m) line
                         = Ok (Some (event_system e))) /\
  (forall r, SRC.update_yaml_file m lines = Ok r ->
             length (filter is_updated (SRC.printed r)) = SRC.updated_count r).
Proof.
  split; intros r Hr.
  - apply rgs_update_written in Hr as [Hr _].
    split; [apply rgs_patch_lines_count in Hr; tauto|].
    intros e He.
    destruct (rgs_patch_lines_events _ _ _ _ _ Hr e He) as (line & Hin & Hm).
    split; [now apply (find_match_key m line)|now exists line].
  - apply src_update_written in Hr as [Hr _].
    apply src_patch_lines_count in Hr. tauto.
Qed.

(** ** Variant B: the warnings and the lines changed *)

Lemma src_patch_line_warning (m : mappings) (i : nat) (line line' : str)
      (n : nat) (ev : list SRC.event) (k : str) (n0 : nat) :
  SRC.patch_line m i line = Ok (line', n, ev) ->
  (In (SRC.Warning k n0) ev <->
   n0 = i + 1 /\ search_group1 SRC.marker_re line = Some k /\
   dict_mem k m = true /\ search_group1 SRC.src_re line = None).
Proof.
  unfold SRC.patch_line.
  destruct (search_group1 SRC.marker_re line) as [k0|].
  2:{ intros H; injection H as _ _ <-. split; [intros []|now intros (_ & ? & _)]. }
  destruct (dict_mem k0 m) eqn:Emem; cbn [negb].
  2:{ intros H; injection H as _ _ <-.
      split; [intros []|]. intros (_ & E & Hm & _). injection E as ->. congruence. }
  destruct (search_group1 SRC.src_re line) as [cur|].
  - destruct (dict_get m k0) as [e|rec]; cbn [bind Ok]; [discriminate|].
    destruct (str_eqb cur (src rec)).
    + intros H; injection H as _ _ <-.
      split; [intros []|now intros (_ & _ & _ & ?)].
    + destruct (re_sub SRC.src_sub_re (SRC.src_text (src rec)) line);
        cbn [bind Ok]; [discriminate|].
      intros H; injection H as _ _ <-.
      split; [intros [H|[]]; discriminate H|now intros (_ & _ & _ & ?)].
  - intros H; injection H as _ _ <-. split.
    + intros [H|[]]. injection H as <- <-. now repeat split.
    + intros (-> & E & _). injection E as ->. now left.
Qed.

Lemma src_patch_lines_warning (m : mappings) (lines : list str) (k : str)
      (n0 : nat) :
  forall j lines' n ev,
    SRC.patch_lines m j lines = Ok (lines', n, ev) ->
    (In (SRC.Warning k n0) ev <->
     exists i line,
       n0 = j + i + 1 /\ nth_error lines i = Some line /\
       search_group1 SRC.marker_re line = Some k /\
       dict_mem k m = true /\ search_group1 SRC.src_re line = None).
Proof.
  induction lines as [|l lines IH]; intros j lines' n ev H.
  - injection H as _ _ <-. split; [intros []|].
    intros (i & line & _ & Hi & _). destruct i; discriminate.
  - cbn [SRC.patch_lines] in H.
    destruct (SRC.patch_line m j l) as [x|[[l' n1] ev1]] eqn:E1; [discriminate|].
    destruct (SRC.patch_lines m (S j) lines) as [x|[[ls' n2] ev2]] eqn:E2;
      [discriminate|].
    cbn in H. injection H as _ _ <-.
    rewrite in_app_iff, (src_patch_line_warning _ _ _ _ _ _ k n0 E1),
      (IH _ _ _ _ E2).
    split.
    + intros [(-> & Hm & Hk & Hs)|(i & line & -> & Hi & Hm & Hk & Hs)].
      * exists 0, l. repeat split; auto; lia.
      * exists (S i), line. repeat split; auto; lia.
    + intros (i & line & -> & Hi & Hm & Hk & Hs). destruct i as [|i].
      * left. injection Hi as ->. repeat split; auto; lia.
      * right. exists i, line. repeat split; auto; lia.
Qed.

(** X3.  Variant B warns exactly about the lines that hold the marker
    of a known id and no src field, each with its number in the file,
    counted from one. *)
Theorem src_warning_lines (m : mappings) (lines : list str) (r : SRC.report)
        (k : str) (n : nat) :
  SRC.update_yaml_file m lines = Ok r ->
  (In (SRC.Warning k n) (SRC.printed r) <->
   exists line,
     1 <= n /\ nth_error lines (n - 1) = Some line /\
     search_group1 SRC.marker_re line = Some k /\
     dict_mem k m = true /\ search_group1 SRC.src_re line = None).
Proof.
  intros Hr. apply src_update_written in Hr as [Hr _].
  rewrite (src_patch_lines_warning m lines k n _ _ _ _ Hr). split.
  - intros (i & line & -> & Hi & H). exists line.
    replace (0 + i + 1 - 1) with i by lia. split; [lia|]. now split.
  - intros (line & Hn & Hi & H). exists (n - 1), line.
    split; [lia|]. now split.
Qed.

Lemma src_patch_line_changed (m : mappings) (i : nat) (line line' : str)
      (n : nat) (ev : list SRC.event) :
  wf_paths m ->
  SRC.patch_line m i line = Ok (line', n, ev) ->
  n = (if str_eqb line line' then 0 else 1) /\
  forall k rec,
    search_group1 SRC.marker_re line = Some k -> dict_find k m = Some rec ->
    search_group1 SRC.src_re line <> None ->
    search_group1 SRC.src_re line' = Some (src rec).
Proof.
  intros Hwf H.
  destruct (src_patch_line_cases m i line) as (C1 & C2 & C3 & C4 & C5).
  destruct (search_group1 SRC.marker_re line) as [k|] eqn:Ek.
  2:{ rewrite (C1 eq_refl) in H. injection H as <- <- _.
      rewrite str_eqb_refl. split; [reflexivity|discriminate]. }
  destruct (dict_mem k m) eqn:Emem.
  2:{ rewrite (C2 k eq_refl Emem) in H. injection H as <- <- _.
      rewrite str_eqb_refl. split; [reflexivity|].
      intros k' rec E Hrec. injection E as <-.
      unfold dict_mem in Emem. now rewrite Hrec in Emem. }
  destruct (search_group1 SRC.src_re line) as [cur|] eqn:Es.
  2:{ rewrite (C3 k eq_refl Emem eq_refl) in H. injection H as <- <- _.
      rewrite str_eqb_refl. split; [reflexivity|]. now intros k' rec _ _ []. }
  unfold dict_mem in Emem.
  destruct (dict_find k m) as [rec|] eqn:Erec; [|discriminate].
  destruct (str_eqb_spec cur (src rec)) as [->|Hne].
  - rewrite (C4 k rec eq_refl Erec eq_refl) in H. injection H as <- <- _.
    rewrite str_eqb_refl. split; [reflexivity|].
    intros k' rec' E Hrec' _. injection E as <-. congruence.
  - destruct (Hwf k rec Erec) as (Hnil & Hq & Hp).
    destruct (C5 k rec cur eq_refl Erec eq_refl Hne Hnil Hq Hp)
      as (l' & Hl' & Hs).
    rewrite Hl' in H. injection H as <- <- _. split.
    + destruct (str_eqb_spec line l') as [E|]; [|reflexivity].
      exfalso. rewrite <- E, Es in Hs. injection Hs as Hs. now apply Hne.
    + intros k' rec' E Hrec' _. injection E as <-. congruence.
Qed.

Lemma src_patch_lines_changed (m : mappings) (lines : list str) :
  wf_paths m ->
  forall i lines' n ev,
    SRC.patch_lines m i lines = Ok (lines', n, ev) ->
    n = changed_lines lines lines'.
Proof.
  intros Hwf. induction lines as [|l lines IH]; intros i lines' n ev H.
  - injection H as <- <- _. reflexivity.
  - cbn [SRC.patch_lines] in H.
    destruct (SRC.patch_line m i l) as [x|[[l' n1] ev1]] eqn:E1; [discriminate|].
    destruct (SRC.patch_lines m (S i) lines) as [x|[[ls' n2] ev2]] eqn:E2;
      [discriminate|].
    cbn in H. injection H as <- <- _.
    destruct (src_patch_line_changed _ _ _ _ _ _ Hwf E1) as [-> _].
    rewrite (IH _ _ _ _ E2). unfold changed_lines. cbn [combine filter fst snd].
    now destruct (str_eqb l l').
Qed.

(** X4.  Variant B changes no line that it does not count: with a
    count of zero the file is written back line for line as it was read.
    When the paths of the table are not empty and hold neither double
    quote nor backslash, the count is the number of lines that differ
    between the file read and the file written. *)
Theorem src_count_is_changes (m : mappings) (lines : list str) (r : SRC.report) :
  SRC.update_yaml_file m lines = Ok r ->
  (SRC.updated_count r = 0 -> SRC.written r = lines) /\
  (wf_paths m -> SRC.updated_count r = changed_lines lines (SRC.written r)).
Proof.
  intros Hr. apply src_update_written in Hr as [Hr _]. split.
  - apply src_patch_lines_count in Hr. tauto.
  - intros Hwf. now apply (src_patch_lines_changed m lines Hwf 0 _ _ _ Hr).
Qed.

(** X5.  Variant B, with paths that are not empty and hold neither
    double quote nor backslash: in the file written back, every line
    whose first retrobat field names a known id and that has a src field
    holds the path of that id in its first src field. *)
Theorem src_written_path (m : mappings) (lines : list str) (r : SRC.report)
        (i : nat) (line k : str) (rec : system_record) :
  wf_paths m ->
  SRC.update_yaml_file m lines = Ok r ->
  nth_error lines i = Some line ->
  search_group1 SRC.marker_re line = Some k ->
  dict_find k m = Some rec ->
  search_group1 SRC.src_re line <> None ->
  exists line',
    nth_error (SRC.written r) i = Some line' /\
    search_group1 SRC.src_re line' = Some (src rec).
Proof.
  intros Hwf Hr Hi Hk Hrec Hs. apply src_update_written in Hr as [Hr _].
  destruct (src_patch_lines_nth _ _ _ _ _ _ _ _ Hr Hi)
    as (line' & n' & ev' & Hp & Hn).
  exists line'. split; [exact Hn|].
  destruct (src_patch_line_changed _ _ _ _ _ _ Hwf Hp) as [_ H].
  now apply (H k rec).
Qed.

(** ** Record lines: what a pass leaves *)

Lemma rgs_record_post (m : mappings) (fs : list field) (tl line' k : str)
      (rec : system_record) (n : nat) (ev : list RGS.event) :
  wf_table m -> record_line fs tl ->
  RGS.find_match m (dict_keys m) (render fs tl) = Ok (Some k) -> k <> [] ->
  dict_find k m = Some rec ->
  search_group1 RGS.src_re (render fs tl) <> None ->
  RGS.patch_line m (render fs tl) = Ok (line', n, ev) ->
  is_record line' /\
  search_group1 RGS.src_re line' = Some (src rec) /\
  (search_group1 RGS.rgs_re line' = Some k \/
   (search_group1 RGS.rgs_re (render fs tl) = None /\
    search_group1 RGS.rgs_re line' = None)).
Proof.
  intros Hwf Hrec Hf Hk0 Hrec0 Hsrc H.
  destruct (Hwf k rec Hrec0) as ((Hkq & Hkc & Hkp) & Hw & Hne).
  rewrite (rgs_patch_line_matched _ _ _ _ Hf Hk0 Hrec0) in H.
  destruct (search_group1 RGS.src_re (render fs tl)) as [cur|] eqn:Es;
    [clear Hsrc|now destruct Hsrc].
  destruct (src_step_record fs tl cur (src rec) Hrec Es Hw Hne)
    as (fs1 & Hstep & Hrec1 & Hsrc1 & Hrgs1 & _).
  rewrite Hstep in H. cbn [bind Ok] in H. rewrite <- Hrgs1 in H.
  rewrite <- Hrgs1. clear Hstep Hrgs1 Es.
  destruct (search_group1 RGS.rgs_re (render fs1 tl)) as [r0|] eqn:Er.
  - destruct (str_eqb_spec r0 k) as [->|Hdiff].
    + injection H as <- _ _. split; [now exists fs1, tl|]. split; [exact Hsrc1|].
      left. exact Er.
    + rewrite rgs_sub_render in H by assumption.
      cbn [bind Ok] in H. injection H as <- _ _.
      assert (Hrec2 : record_line
                        (map (retarget (txt "retrobat_rgs:") false k) fs1) tl)
        by (apply record_line_retarget; auto using field_name_rgs).
      split; [now eexists _, tl|].
      rewrite src_search_render in Hsrc1 by assumption.
      rewrite rgs_search_render in Er by assumption.
      split.
      * rewrite src_search_render by assumption.
        now rewrite find_retarget_other by (apply apart_sym, apart_src_rgs).
      * left. rewrite rgs_search_render by assumption.
        rewrite find_retarget_same by discriminate.
        exact (option_map_const _ _ _ _ Er).
  - destruct (contains (txt "retrobat:") (render fs1 tl)).
    + rewrite re_sub_insert_render in H by auto. cbn [bind Ok] in H.
      injection H as <- _ _.
      assert (Hrec2 : record_line (insert_rgs k fs1 tl) tl)
        by now apply record_line_insert.
      split; [now eexists _, tl|].
      rewrite src_search_render in Hsrc1 by assumption.
      rewrite rgs_search_render in Er by assumption.
      assert (Enone : find (qual (txt "retrobat_rgs:") false) fs1 = None).
      { now destruct (find (qual (txt "retrobat_rgs:") false) fs1). }
      split.
      * rewrite src_search_render by assumption. now rewrite find_insert_src.
      * rewrite rgs_search_render by assumption.
        destruct (find_insert_rgs k fs1 tl Enone) as [Hins|Hsame];
          [now left|right].
        rewrite Hsame, Enone. now split.
    + injection H as <- _ _. split; [now exists fs1, tl|].
      split; [exact Hsrc1|]. right. now split.
Qed.

(** X6.  Variant A on a file of record lines, with a table whose ids
    and paths hold neither double quote, colon nor backslash and whose
    paths are not empty: for every line that is matched to a non-empty
    id and has a src field, the line written back holds the path of the
    id in its src field, and its retrobat_rgs field, if it has one, holds
    the id; a line that had a retrobat_rgs field still has one. *)
Theorem rgs_written_fields (m : mappings) (lines : list str) (r : RGS.report)
        (i : nat) (line k : str) (rec : system_record) :
  wf_table m -> is_record line ->
  RGS.update_yaml_file m lines = Ok r ->
  nth_error lines i = Some line ->
  RGS.find_match m (dict_keys m) line = Ok (Some k) -> k <> [] ->
  dict_find k m = Some rec ->
  search_group1 RGS.src_re line <> None ->
  exists line',
    nth_error (RGS.written r) i = Some line' /\
    is_record line' /\
    search_group1 RGS.src_re line' = Some (src rec) /\
    (search_group1 RGS.rgs_re line' = Some k \/
     (search_group1 RGS.rgs_re line = None /\
      search_group1 RGS.rgs_re line' = None)).
Proof.
  intros Hwf (fs & tl & -> & Hrec) Hr Hi Hf Hk Hrec0 Hs.
  apply rgs_update_written in Hr as [Hr _].
  destruct (rgs_patch_lines_nth _ _ _ _ _ _ _ Hr Hi)
    as (line' & n' & ev' & Hp & Hn).
  exists line'. split; [exact Hn|].
  now apply (rgs_record_post m fs tl line' k rec n' ev').
Qed.

Lemma src_record_shape (m : mappings) (i : nat) (fs : list field)
      (tl line' : str) (n : nat) (ev : list SRC.event) :
  wf_table m -> record_line fs tl ->
  SRC.patch_line m i (render fs tl) = Ok (line', n, ev) ->
  exists fs1,
    line' = render fs1 tl /\ record_line fs1 tl /\
    (forall j, marker_hit fs1 j = marker_hit fs j) /\
    search_group1 SRC.marker_re line'
    = search_group1 SRC.marker_re (render fs tl).
Proof.
  intros Hwf Hrec H.
  assert (Hsame : line' = render fs tl ->
                  exists fs1,
                    line' = render fs1 tl /\ record_line fs1 tl /\
                    (forall j, marker_hit fs1 j = marker_hit fs j) /\
                    search_group1 SRC.marker_re line'
                    = search_group1 SRC.marker_re (render fs tl)).
  { intros ->. exists fs. repeat split; auto; apply Hrec. }
  destruct (src_patch_line_cases m i (render fs tl)) as (C1 & C2 & C3 & C4 & _).
  destruct (search_group1 SRC.marker_re (render fs tl)) as [k|] eqn:Ek.
  2:{ rewrite (C1 eq_refl) in H. injection H as <- _ _. now apply Hsame. }
  destruct (dict_mem k m) eqn:Emem.
  2:{ rewrite (C2 k eq_refl Emem) in H. injection H as <- _ _. now apply Hsame. }
  destruct (search_group1 SRC.src_re (render fs tl)) as [cur|] eqn:Es.
  2:{ rewrite (C3 k eq_refl Emem eq_refl) in H. injection H as <- _ _.
      now apply Hsame. }
  unfold dict_mem in Emem.
  destruct (dict_find k m) as [rec|] eqn:Erec; [|discriminate].
  destruct (Hwf k rec Erec) as (_ & Hw & Hne).
  destruct (src_step_record fs tl cur (src rec) Hrec Es Hw Hne)
    as (fs1 & Hstep & Hrec1 & _ & _ & Hmk & Hhit & _).
  unfold SRC.patch_line in H. rewrite Ek in H. unfold dict_mem, dict_get in H.
  rewrite Erec, Es in H. cbn [negb bind Ok] in H.
  change SRC.src_sub_re with RGS.src_sub_re in H.
  change (SRC.src_text (src rec)) with (RGS.src_text (src rec)) in H.
  destruct (str_eqb cur (src rec)).
  - injection H as <- _ _. now apply Hsame.
  - rewrite Hstep in H. cbn [bind Ok] in H. injection H as <- _ _.
    exists fs1. repeat split; auto; try apply Hrec1. now rewrite Hmk, Ek.
Qed.

(** X7.  The ids and the paths of the table hold neither double
    quote, colon nor backslash, and no path is empty.  Then neither
    script touches the retrobat field of a record line: the line written
    holds the text of a retrobat field with a given id, itself without
    double quote, exactly when the line read holds it, and variant B
    finds the same first retrobat field in both. *)
Theorem marker_text_kept (m : mappings) (line j : str) :
  wf_table m -> is_record line -> quote_free j ->
  (forall line' n ev,
      RGS.patch_line m line = Ok (line', n, ev) ->
      contains (RGS.marker_text j) line' = contains (RGS.marker_text j) line) /\
  (forall i line' n ev,
      SRC.patch_line m i line = Ok (line', n, ev) ->
      contains (SRC.marker_text j) line' = contains (SRC.marker_text j) line /\
      search_group1 SRC.marker_re line' = search_group1 SRC.marker_re line).
Proof.
  intros Hwf (fs & tl & -> & Hrec) Hj. split.
  - intros line' n ev H.
    destruct (rgs_patch_shape m fs tl line' n ev Hwf Hrec H)
      as (fs2 & -> & Hrec2 & Hmk & _).
    change (RGS.marker_text j)
      with ((txt "retrobat:" ++ [" "%char]) ++ quoted j).
    rewrite !contains_render by auto using field_name_marker.
    apply Hmk.
  - intros i line' n ev H.
    destruct (src_record_shape m i fs tl line' n ev Hwf Hrec H)
      as (fs1 & -> & Hrec1 & Hmk & Hs).
    split; [|exact Hs].
    change (SRC.marker_text j)
      with ((txt "retrobat:" ++ [" "%char]) ++ quoted j).
    rewrite !contains_render by auto using field_name_marker.
    apply Hmk.
Qed.

(** ** The table the reader builds *)

Lemma dict_find_In (k : str) (v : system_record) (m : mappings) :
  dict_find k m = Some v -> In (k, v) m.
Proof.
  induction m as [|[k' v'] m IH]; simpl; [discriminate|].
  destruct (str_eqb_spec k k') as [->|Hne].
  - intros H; injection H as ->. now left.
  - intros H. right. now apply IH.
Qed.

Lemma entries_rows (rows : list (list str)) (k : str) (rec : system_record) :
  In (k, rec) (entries rows) ->
  exists name ext path more,
    In (name :: k :: ext :: path :: more) rows /\
    rec = {| full_name := name;
             src := str_replace roms_prefix [] path;
             retrobat_path := ext |}.
Proof.
  induction rows as [|row rows IH]; simpl; [tauto|].
  destruct (entry_of row) as [e|] eqn:E.
  - intros [->|H].
    + destruct row as [|a [|b [|c [|d row]]]]; try discriminate.
      cbn in E. injection E as <- <-. exists a, c, d, row. split; [now left|reflexivity].
    + destruct (IH H) as (a & c & d & more & Hin & Hr).
      exists a, c, d, more. split; [now right|exact Hr].
  - intros H. destruct (IH H) as (a & c & d & more & Hin & Hr).
    exists a, c, d, more. split; [now right|exact Hr].
Qed.

Lemma entries_length (rows : list (list str)) :
  length (entries rows) <= length rows.
Proof.
  induction rows as [|row rows IH]; simpl; [lia|].
  destruct (entry_of row); simpl; lia.
Qed.

Lemma first_occurrences_In (l : list str) (x : str) :
  In x (first_occurrences l) <-> In x l.
Proof.
  induction l as [|y l IH]; simpl; [tauto|].
  rewrite filter_In, IH. split.
  - intros [H|[H _]]; auto.
  - intros [H|H]; [now left|].
    destruct (str_eqb_spec y x) as [E|Hne]; [now left|right].
    split; [exact H|reflexivity].
Qed.

Lemma first_occurrences_NoDup (l : list str) : NoDup (first_occurrences l).
Proof.
  induction l as [|y l IH]; simpl; constructor.
  - rewrite filter_In. intros [_ H]. now rewrite str_eqb_refl in H.
  - now apply NoDup_filter.
Qed.

Lemma first_occurrences_length (l : list str) :
  length (first_occurrences l) <= length l.
Proof.
  induction l as [|y l IH]; simpl; [lia|].
  pose proof (filter_length_le (fun z => negb (str_eqb y z)) (first_occurrences l)).
  lia.
Qed.

Lemma read_csv_table (header : list str) (rows : list (list str)) (m : mappings) :
  read_csv_mappings (header :: rows) = Ok m ->
  dict_keys m = first_occurrences (map fst (entries rows)) /\
  forall k, dict_find k m = last_entry k (entries rows).
Proof.
  cbn [read_csv_mappings]. rewrite read_rows_fold. intros H; injection H as <-.
  split.
  - rewrite dict_keys_fold, fold_add_key. cbn [dict_keys map app].
    f_equal. now apply filter_all.
  - intros k. rewrite dict_find_fold.
    now destruct (last_entry k (entries rows)).
Qed.

(** X8.  The table read from a CSV file has each id once, and no more
    ids than the file has rows after its header.  Every record of the
    table is that of a row of the file with four or more columns: its
    display name and external-tool path are the first and third column
    as they stand, its path is the fourth column after the replacement.
    The id of every such row is in the table. *)
Theorem read_csv_sound (header : list str) (rows : list (list str)) (m : mappings) :
  read_csv_mappings (header :: rows) = Ok m ->
  NoDup (dict_keys m) /\
  length (dict_keys m) <= length rows /\
  (forall k rec,
      dict_find k m = Some rec ->
      exists name ext path more,
        In (name :: k :: ext :: path :: more) rows /\
        rec = {| full_name := name;
                 src := str_replace roms_prefix [] path;
                 retrobat_path := ext |}) /\
  (forall name k ext path more,
      In (name :: k :: ext :: path :: more) rows -> In k (dict_keys m)).
Proof.
  intros H. destruct (read_csv_table _ _ _ H) as [Hkeys Hfind].
  rewrite Hkeys. split; [apply first_occurrences_NoDup|]. split.
  - pose proof (first_occurrences_length (map fst (entries rows))).
    pose proof (entries_length rows). rewrite length_map in *. lia.
  - split.
    + intros k rec Hk. rewrite Hfind in Hk. unfold last_entry in Hk.
      apply dict_find_In, in_rev in Hk. now apply entries_rows.
    + intros name k ext path more Hin. apply first_occurrences_In.
      apply in_map_iff.
      exists (k, {| full_name := name;
                    src := str_replace roms_prefix [] path;
                    retrobat_path := ext |}).
      split; [reflexivity|].
      clear -Hin. induction rows as [|row rows IH]; [destruct Hin|].
      cbn [entries]. destruct Hin as [->|Hin].
      * cbn [entry_of]. now left.
      * destruct (entry_of row); [right|]; now apply IH.
Qed.

(** ** The list of the ids not found *)

Lemma str_ltb_asym (a b : str) : str_ltb a b = true -> str_ltb b a = false.
Proof.
  revert b; induction a as [|x a IH]; intros [|y b]; cbn [str_ltb];
    try reflexivity; try discriminate.
  intros H. apply orb_true_iff in H as [H|H].
  - apply Nat.ltb_lt in H. apply orb_false_iff. split.
    + apply Nat.ltb_ge. lia.
    + replace (ord y =? ord x) with false; [reflexivity|].
      symmetry. apply Nat.eqb_neq. lia.
  - apply andb_true_iff in H as [H1 H2]. apply Nat.eqb_eq in H1.
    rewrite H1, Nat.ltb_irrefl, Nat.eqb_refl. cbn [orb andb]. now apply IH.
Qed.

Lemma str_leb_trans (a b c : str) :
  str_ltb b a = false -> str_ltb c b = false -> str_ltb c a = false.
Proof.
  revert b c; induction a as [|x a IH]; intros [|y b] [|z c];
    cbn [str_ltb]; try reflexivity; try discriminate.
  intros H1 H2.
  apply orb_false_iff in H1 as [H1 H1']. apply orb_false_iff in H2 as [H2 H2'].
  apply Nat.ltb_ge in H1, H2. apply orb_false_iff. split.
  - apply Nat.ltb_ge. lia.
  - destruct (ord z =? ord x) eqn:E; [|reflexivity]. cbn [andb].
    apply Nat.eqb_eq in E.
    assert (Ey : ord y = ord x) by lia.
    rewrite Ey, Nat.eqb_refl in H1'. rewrite E, <- Ey, Nat.eqb_refl in H2'.
    cbn [andb] in H1', H2'. now apply (IH b c).
Qed.

Lemma insert_sorted_perm (x : str) (l : list str) :
  Permutation (insert_sorted x l) (x :: l).
Proof.
  induction l as [|y l IH]; cbn [insert_sorted]; [reflexivity|].
  destruct (str_ltb y x); [|reflexivity].
  rewrite IH. apply perm_swap.
Qed.

Lemma sorted_perm (l : list str) : Permutation (sorted l) l.
Proof.
  induction l as [|x l IH]; cbn [sorted fold_right]; [reflexivity|].
  fold (sorted l). rewrite insert_sorted_perm. now constructor.
Qed.

Lemma insert_sorted_Sorted (x : str) (l : list str) :
  Sorted (fun a b => str_ltb b a = false) l ->
  Sorted (fun a b => str_ltb b a = false) (insert_sorted x l).
Proof.
  induction 1 as [|y l Hs IH Hd]; cbn [insert_sorted].
  - repeat constructor.
  - destruct (str_ltb y x) eqn:E.
    + constructor; [exact IH|].
      destruct l as [|z l]; cbn [insert_sorted].
      * constructor. now apply str_ltb_asym.
      * destruct (str_ltb z x); constructor.
        -- now inversion Hd.
        -- now apply str_ltb_asym.
    + constructor; [now constructor|]. now constructor.
Qed.

Lemma sorted_Sorted (l : list str) :
  StronglySorted (fun a b => str_ltb b a = false) (sorted l).
Proof.
  apply Sorted_StronglySorted.
  - intros a b c. apply str_leb_trans.
  - induction l as [|x l IH]; cbn [sorted fold_right]; [constructor|].
    now apply insert_sorted_Sorted.
Qed.

Lemma warning_lines_keys (m : mappings) (l : list str) :
  (forall k, In k l -> In k (dict_keys m)) ->
  exists ws,
    warning_lines m l = Ok ws /\ map fst ws = l /\
    forall k name, In (k, name) ws ->
                   exists rec, dict_find k m = Some rec /\ name = full_name rec.
Proof.
  induction l as [|k l IH]; intros H.
  - exists []. repeat split. intros k name [].
  - destruct (dict_find_keys k m (H k (or_introl eq_refl))) as [rec Hrec].
    destruct IH as (ws & Hws & Hfst & Hnames).
    { intros k' Hk'. apply H. now right. }
    exists ((k, full_name rec) :: ws). cbn [warning_lines].
    unfold dict_get. rewrite Hrec, Hws. cbn. rewrite Hfst.
    repeat split. intros k' name [E|Hin].
    + injection E as <- <-. now exists rec.
    + now apply Hnames.
Qed.

Lemma warning_lines_sorted (m : mappings) (nf : list str) :
  (forall k, In k nf -> In k (dict_keys m)) ->
  exists ws,
    warning_lines m (sorted nf) = Ok ws /\
    Permutation (map fst ws) nf /\
    StronglySorted (fun a b => str_ltb b a = false) (map fst ws) /\
    forall k name, In (k, name) ws ->
                   exists rec, dict_find k m = Some rec /\ name = full_name rec.
Proof.
  intros H.
  destruct (warning_lines_keys m (sorted nf)) as (ws & Hws & Hfst & Hnames).
  { intros k Hk. apply H. now apply (Permutation_in _ (sorted_perm nf)). }
  exists ws. rewrite Hfst. repeat split; auto using sorted_perm, sorted_Sorted.
Qed.

(** X9.  The warning at the end of [update_yaml_file] lists every id
    not found exactly once, in the order of [sorted], each with the
    display name the table has for it; the lookup of the name never
    fails.  This holds in both scripts. *)
Theorem not_found_listing (m : mappings) (yaml_content : str) :
  (exists ws,
      warning_lines m (sorted (RGS.unresolved m yaml_content)) = Ok ws /\
      Permutation (map fst ws) (RGS.unresolved m yaml_content) /\
      StronglySorted (fun a b => str_ltb b a = false) (map fst ws) /\
      forall k name, In (k, name) ws ->
                     exists rec, dict_find k m = Some rec /\ name = full_name rec) /\
  (exists ws,
      warning_lines m (sorted (SRC.unresolved m yaml_content)) = Ok ws /\
      Permutation (map fst ws) (SRC.unresolved m yaml_content) /\
      StronglySorted (fun a b => str_ltb b a = false) (map fst ws) /\
      forall k name, In (k, name) ws ->
                     exists rec, dict_find k m = Some rec /\ name = full_name rec).
Proof.
  split; apply warning_lines_sorted; intros k Hk; apply filter_In in Hk; tauto.
Qed.

(** ** The exceptions of a pass *)

Lemma add_char_error (c : ascii) (r : result (list piece)) (e : exn) :
  add_char c r = inl e -> r = inl e.
Proof. unfold add_char, bind. destruct r; [auto|discriminate]. Qed.

Lemma add_group_error (groups index : nat) (r : result (list piece)) (e : exn) :
  add_group groups index r = inl e -> e = TemplateError \/ r = inl e.
Proof.
  unfold add_group, bind. destruct (groups <? index).
  - intros H. left. unfold Raise in H. congruence.
  - destruct r; [auto|discriminate].
Qed.

Ltac template_error IH :=
  repeat match goal with
         | H : Raise _ = inl _ |- _ => unfold Raise in H; congruence
         | H : inl _ = inl _ |- _ => congruence
         | H : Ok _ = inl _ |- _ => discriminate H
         | H : add_char _ _ = inl _ |- _ => apply add_char_error in H
         | H : add_group _ _ _ = inl _ |- _ =>
             apply add_group_error in H as [->|H]; [reflexivity|]
         | H : parse_from _ _ ?t = inl _ |- _ =>
             apply IH in H; [exact H|cbn [length] in *; lia]
         | H : (if ?b then _ else _) = inl _ |- _ => destruct b
         | H : match ?x with _ => _ end = inl _ |- _ => destruct x
         end.

(** The compilation of a replacement raises nothing but the error of
    [re]. *)
Lemma parse_from_error (groups : nat) (n : nat) :
  forall t st e,
    length t <= n -> parse_from groups st t = inl e -> e = TemplateError.
Proof.
  induction n as [|n IH]; intros t st e Hn H.
  - destruct t; [|cbn in Hn; lia]. destruct st; cbn in H;
      unfold Raise, Ok in H; congruence.
  - assert (IH' : forall t' st' e', parse_from groups st' t' = inl e' ->
                                    length t' <= n -> e' = TemplateError)
      by (intros; eapply IH; eauto).
    clear IH.
    destruct t as [|c t]; destruct st; cbn [parse_from] in H;
      cbn [length] in Hn; template_error IH'.
Qed.

Lemma re_sub_error (re : regex) (repl s : str) (e : exn) :
  re_sub re repl s = inl e -> e = TemplateError.
Proof.
  unfold re_sub, parse_template, bind.
  destruct (parse_from (re_groups re) TNormal repl) as [e'|tpl] eqn:E;
    [|discriminate].
  intros H; injection H as <-.
  now apply (parse_from_error _ _ _ _ _ (le_n _) E).
Qed.

Lemma find_match_get (m : mappings) (line k : str) :
  RGS.find_match m (dict_keys m) line = Ok (Some k) ->
  exists rec, dict_get m k = Ok rec.
Proof.
  intros H. apply find_match_key in H.
  destruct (dict_find_keys k m H) as [rec Hrec].
  exists rec. unfold dict_get. now rewrite Hrec.
Qed.

Lemma rgs_patch_line_error (m : mappings) (line : str) (e : exn) :
  RGS.patch_line m line = inl e -> e = TemplateError.
Proof.
  unfold RGS.patch_line.
  pose proof (find_match_get m line) as Hget.
  rewrite find_match_keys in *.
  destruct (find (RGS.hit m line) (dict_keys m)) as [k|]; cbn [bind Ok];
    [|discriminate].
  destruct k as [|c k]; [discriminate|].
  destruct (Hget _ eq_refl) as [rec ->]. cbn [bind Ok].
  destruct (search_group1 RGS.src_re line) as [cur|]; [|discriminate].
  destruct (str_eqb cur (src rec)).
  - cbn [bind Ok].
    destruct (search_group1 RGS.rgs_re line) as [r0|].
    + destruct (str_eqb r0 (c :: k)); [discriminate|].
      destruct (re_sub RGS.rgs_sub_re (RGS.rgs_text (c :: k)) line) eqn:E;
        cbn [bind Ok]; [|discriminate].
      intros H; injection H as <-. now apply re_sub_error in E.
    + destruct (contains (txt "retrobat:") line); [|discriminate].
      destruct (re_sub RGS.marker_re (RGS.insert_template (c :: k)) line) eqn:E;
        cbn [bind Ok]; [|discriminate].
      intros H; injection H as <-. now apply re_sub_error in E.
  - destruct (re_sub RGS.src_sub_re (RGS.src_text (src rec)) line)
      as [e1|line1] eqn:E1; cbn [bind Ok].
    { intros H; injection H as <-. now apply re_sub_error in E1. }
    destruct (search_group1 RGS.rgs_re line) as [r0|].
    + destruct (str_eqb r0 (c :: k)); [discriminate|].
      destruct (re_sub RGS.rgs_sub_re (RGS.rgs_text (c :: k)) line1) eqn:E;
        cbn [bind Ok]; [|discriminate].
      intros H; injection H as <-. now apply re_sub_error in E.
    + destruct (contains (txt "retrobat:") line1); [|discriminate].
      destruct (re_sub RGS.marker_re (RGS.insert_template (c :: k)) line1) eqn:E;
        cbn [bind Ok]; [|discriminate].
      intros H; injection H as <-. now apply re_sub_error in E.
Qed.

Lemma src_patch_line_error (m : mappings) (i : nat) (line : str) (e : exn) :
  SRC.patch_line m i line = inl e -> e = TemplateError.
Proof.
  unfold SRC.patch_line.
  destruct (search_group1 SRC.marker_re line) as [k|]; [|discriminate].
  unfold dict_mem, dict_get.
  destruct (dict_find k m) as [rec|]; cbn [negb]; [|discriminate].
  destruct (search_group1 SRC.src_re line) as [cur|]; [|discriminate].
  cbn [bind Ok]. destruct (str_eqb cur (src rec)); [discriminate|].
  destruct (re_sub SRC.src_sub_re (SRC.src_text (src rec)) line) eqn:E;
    cbn [bind Ok]; [|discriminate].
  intros H; injection H as <-. now apply re_sub_error in E.
Qed.

Lemma rgs_patch_lines_error (m : mappings) (lines : list str) (e : exn) :
  RGS.patch_lines m lines = inl e -> e = TemplateError.
Proof.
  induction lines as [|l lines IH]; [discriminate|].
  cbn [RGS.patch_lines].
  destruct (RGS.patch_line m l) as [e1|[[l' n1] ev1]] eqn:E1; cbn [bind].
  { intros H; injection H as <-. now apply rgs_patch_line_error in E1. }
  destruct (RGS.patch_lines m lines) as [e2|[[ls' n2] ev2]]; cbn [bind].
  - intros H; injection H as <-. now apply IH.
  - discriminate.
Qed.

Lemma src_patch_lines_error (m : mappings) (lines : list str) (e : exn) :
  forall i, SRC.patch_lines m i lines = inl e -> e = TemplateError.
Proof.
  induction lines as [|l lines IH]; intros i; [discriminate|].
  cbn [SRC.patch_lines].
  destruct (SRC.patch_line m i l) as [e1|[[l' n1] ev1]] eqn:E1; cbn [bind].
  { intros H; injection H as <-. now apply src_patch_line_error in E1. }
  destruct (SRC.patch_lines m (S i) lines) as [e2|[[ls' n2] ev2]] eqn:E2;
    cbn [bind].
  - intros H; injection H as <-. now apply (IH _ E2).
  - discriminate.
Qed.

Lemma replace_from_forallb (P : ascii -> bool) (old new : str) :
  forallb P new = true ->
  forall s n, forallb P s = true ->
              forallb P (replace_from old new n s) = true.
Proof.
  intros Hnew. induction s as [|c s IH]; intros n Hs.
  - cbn [replace_from]. now destruct old.
  - cbn [forallb] in Hs. apply andb_true_iff in Hs as [Hc Hs].
    cbn [replace_from]. destruct n as [|n]; [|now apply IH].
    destruct (starts_with old (c :: s)).
    + destruct old as [|o old].
      * rewrite forallb_app, Hnew. cbn [forallb andb]. rewrite Hc. now apply IH.
      * rewrite forallb_app, Hnew. now apply IH.
    + cbn [forallb]. rewrite Hc. now apply IH.
Qed.

Lemma plain_str_replace (old s : str) : plain s -> plain (str_replace old [] s).
Proof. intros H. now apply replace_from_forallb. Qed.

Lemma rgs_patch_line_plain (m : mappings) (line : str) :
  plain_table m -> exists r, RGS.patch_line m line = Ok r.
Proof.
  intros Hp.
  destruct (RGS.patch_line m line) as [e|r] eqn:E; [|now exists r].
  exfalso. revert E. unfold RGS.patch_line.
  pose proof (find_match_get m line) as Hget.
  rewrite find_match_keys in *.
  destruct (find (RGS.hit m line) (dict_keys m)) as [k|]; cbn [bind Ok];
    [|discriminate].
  destruct k as [|c k]; [discriminate|].
  destruct (Hget _ eq_refl) as [rec Hrec]. rewrite Hrec. cbn [bind Ok].
  unfold dict_get in Hrec.
  destruct (dict_find (c :: k) m) as [rec'|] eqn:Ef; [|discriminate].
  injection Hrec as ->. destruct (Hp _ _ Ef) as [Hk Hs].
  assert (Hsrc : forall s, re_sub RGS.src_sub_re (RGS.src_text (src rec)) s
                           = Ok (sub_from (re_items RGS.src_sub_re)
                                          (fun _ => RGS.src_text (src rec)) 0 s)).
  { intros s. apply re_sub_plain.
    apply (plain_field_text (txt "src:") (src rec)); [reflexivity|exact Hs]. }
  assert (Hrgs : forall s, re_sub RGS.rgs_sub_re (RGS.rgs_text (c :: k)) s
                           = Ok (sub_from (re_items RGS.rgs_sub_re)
                                          (fun _ => RGS.rgs_text (c :: k)) 0 s)).
  { intros s. apply re_sub_plain.
    apply (plain_field_text (txt "retrobat_rgs:") (c :: k)); [reflexivity|exact Hk]. }
  assert (Hins : forall s, exists s',
               re_sub RGS.marker_re (RGS.insert_template (c :: k)) s = Ok s').
  { intros s. unfold re_sub. rewrite parse_insert_template by exact Hk.
    cbn [bind Ok]. now eexists. }
  destruct (search_group1 RGS.src_re line) as [cur|]; [|discriminate].
  destruct (if str_eqb cur (src rec) then Ok line
            else re_sub RGS.src_sub_re (RGS.src_text (src rec)) line)
    as [e1|line1] eqn:E1.
  { destruct (str_eqb cur (src rec)); [discriminate|].
    rewrite Hsrc in E1. discriminate. }
  cbn [bind Ok].
  destruct (search_group1 RGS.rgs_re line) as [r0|].
  - destruct (str_eqb r0 (c :: k)); [discriminate|].
    rewrite Hrgs. discriminate.
  - destruct (contains (txt "retrobat:") line1); [|discriminate].
    destruct (Hins line1) as [s' ->]. discriminate.
Qed.

Lemma src_patch_line_plain (m : mappings) (i : nat) (line : str) :
  plain_table m -> exists r, SRC.patch_line m i line = Ok r.
Proof.
  intros Hp. unfold SRC.patch_line.
  destruct (search_group1 SRC.marker_re line) as [k|]; [|now eexists].
  unfold dict_mem, dict_get.
  destruct (dict_find k m) as [rec|] eqn:Ef; cbn [negb]; [|now eexists].
  destruct (search_group1 SRC.src_re line) as [cur|]; [|now eexists].
  cbn [bind Ok]. destruct (str_eqb cur (src rec)); [now eexists|].
  rewrite re_sub_plain.
  - cbn [bind Ok]. now eexists.
  - apply (plain_field_text (txt "src:") (src rec)); [reflexivity|].
    now apply (Hp k rec).
Qed.

Lemma rgs_patch_lines_plain (m : mappings) (lines : list str) :
  plain_table m -> exists r, RGS.patch_lines m lines = Ok r.
Proof.
  intros Hp. induction lines as [|l lines [[[ls n] ev] IH]]; [now eexists|].
  destruct (rgs_patch_line_plain m l Hp) as [[[l' n1] ev1] H1].
  cbn [RGS.patch_lines]. rewrite H1, IH. cbn. now eexists.
Qed.

Lemma src_patch_lines_plain (m : mappings) (lines : list str) :
  plain_table m -> forall i, exists r, SRC.patch_lines m i lines = Ok r.
Proof.
  intros Hp. induction lines as [|l lines IH]; intros i; [now eexists|].
  destruct (src_patch_line_plain m i l Hp) as [[[l' n1] ev1] H1].
  destruct (IH (S i)) as [[[ls n] ev] H2].
  cbn [SRC.patch_lines]. rewrite H1, H2. cbn. now eexists.
Qed.

Lemma read_csv_plain (header : list str) (rows : list (list str)) (m : mappings) :
  (forall name k ext path more,
      In (name :: k :: ext :: path :: more) rows -> plain k /\ plain path) ->
  read_csv_mappings (header :: rows) = Ok m -> plain_table m.
Proof.
  intros Hrows H k rec Hk.
  destruct (read_csv_table _ _ _ H) as [_ Hfind].
  rewrite Hfind in Hk. unfold last_entry in Hk.
  apply dict_find_In, in_rev, entries_rows in Hk
    as (name & ext & path & more & Hin & ->).
  apply Hrows in Hin as [Hk' Hp]. cbn [src].
  split; [exact Hk'|now apply plain_str_replace].
Qed.

(** ** The scripts on the files *)

Lemma warning_lines_unresolved (m : mappings) (keep : str -> bool) :
  exists ws, warning_lines m (sorted (filter keep (dict_keys m))) = Ok ws.
Proof.
  destruct (warning_lines_sorted m (filter keep (dict_keys m))) as (ws & H & _).
  - intros k Hk. apply filter_In in Hk. tauto.
  - now exists ws.
Qed.

Lemma rgs_io_update (m : mappings) (fs : files) (raw : str) :
  yaml_file fs = Some raw ->
  RGS_IO.update_yaml_file m fs
  = match RGS.update_yaml_file m (readlines (universal_newlines raw)) with
    | inl e => (inl (Python e), fs)
    | inr r =>
        match warning_lines m (sorted (RGS.not_found r)) with
        | inl e => (inl (Python e), with_yaml fs (concat (RGS.written r)))
        | inr ws => (inr (r, ws), with_yaml fs (concat (RGS.written r)))
        end
    end.
Proof.
  intros Hy. unfold RGS_IO.update_yaml_file, RGS.update_yaml_file, io_bind,
    read_yaml, io_lift, write_yaml, io_ret, with_yaml.
  rewrite Hy.
  destruct (RGS.patch_lines m (readlines (universal_newlines raw)))
    as [e|[[ls n] ev]]; cbn [bind Ok]; [reflexivity|].
  cbn [RGS.not_found RGS.written].
  now destruct (warning_lines m (sorted (RGS.unresolved m (concat ls)))).
Qed.

Lemma src_io_update (m : mappings) (fs : files) (raw : str) :
  yaml_file fs = Some raw ->
  SRC_IO.update_yaml_file m fs
  = match SRC.update_yaml_file m (readlines (universal_newlines raw)) with
    | inl e => (inl (Python e), fs)
    | inr r =>
        match warning_lines m (sorted (SRC.not_found r)) with
        | inl e => (inl (Python e), with_yaml fs (concat (SRC.written r)))
        | inr ws => (inr (r, ws), with_yaml fs (concat (SRC.written r)))
        end
    end.
Proof.
  intros Hy. unfold SRC_IO.update_yaml_file, SRC.update_yaml_file, io_bind,
    read_yaml, io_lift, write_yaml, io_ret, with_yaml.
  rewrite Hy.
  destruct (SRC.patch_lines m 0 (readlines (universal_newlines raw)))
    as [e|[[ls n] ev]]; cbn [bind Ok]; [reflexivity|].
  cbn [SRC.not_found SRC.written].
  now destruct (warning_lines m (sorted (SRC.unresolved m (concat ls)))).
Qed.

Lemma rgs_not_found_ok (m : mappings) (lines : list str) (r : RGS.report) :
  RGS.update_yaml_file m lines = Ok r ->
  exists ws, warning_lines m (sorted (RGS.not_found r)) = Ok ws.
Proof.
  intros Hr. apply rgs_update_written in Hr as [_ ->].
  apply warning_lines_unresolved.
Qed.

Lemma src_not_found_ok (m : mappings) (lines : list str) (r : SRC.report) :
  SRC.update_yaml_file m lines = Ok r ->
  exists ws, warning_lines m (sorted (SRC.not_found r)) = Ok ws.
Proof.
  intros Hr. apply src_update_written in Hr as [_ ->].
  apply warning_lines_unresolved.
Qed.

Lemma csv_file_source (fs : files) (rows : list (list str)) :
  csv_file fs = Some rows <-> csv_source fs = Some (rows, Exhausted).
Proof.
  unfold csv_file. destruct (csv_source fs) as [[rows' [|e]]|].
  - split; intros H; injection H as ->; reflexivity.
  - split; discriminate.
  - split; discriminate.
Qed.

Lemma csv_file_none (fs : files) :
  csv_file fs = None <->
  csv_source fs = None \/ exists rows e, csv_source fs = Some (rows, Fails e).
Proof.
  unfold csv_file. destruct (csv_source fs) as [[rows' [|e]]|].
  - split; [discriminate|]. intros [H|(rows & e & H)]; discriminate.
  - split; [|reflexivity]. intros _. right. now exists rows', e.
  - split; [|reflexivity]. intros _. now left.
Qed.

Lemma read_csv_reader_exhausted (rows : list (list str)) :
  read_csv_reader (rows, Exhausted)
  = match read_csv_mappings rows with
    | inl e => inl (Python e)
    | inr m => inr m
    end.
Proof.
  destruct rows as [|header rows]; [reflexivity|].
  cbn [read_csv_reader next_row read_csv_mappings].
  now destruct (read_rows rows []).
Qed.

Lemma read_csv_reader_fails (rows : list (list str)) (e : reader_error) :
  read_csv_reader (rows, Fails e) = inl (ReaderError e).
Proof.
  destruct rows as [|header rows]; [reflexivity|].
  cbn [read_csv_reader next_row]. now rewrite read_rows_fold.
Qed.

(** [main] of variant A, case by case. *)
Lemma rgs_io_main (fs : files) :
  RGS_IO.main fs
  = match csv_source fs, yaml_file fs with
    | None, _ | Some _, None => (inr 1, fs)
    | Some reader, Some raw =>
        match read_csv_reader reader with
        | inl e => (inl e, fs)
        | inr m =>
            let text := universal_newlines raw in
            match RGS.update_yaml_file m (readlines text) with
            | inl e => (inl (Python e), with_backup fs text)
            | inr r =>
                (inr (status_of (RGS.not_found r)),
                 with_yaml (with_backup fs text) (concat (RGS.written r)))
            end
        end
    end.
Proof.
  unfold RGS_IO.main, io_bind at 1, csv_exists.
  destruct (csv_source fs) as [reader|] eqn:Ecsv; cbn [is_some negb];
    [|reflexivity].
  unfold io_bind at 1, yaml_exists.
  destruct (yaml_file fs) as [raw|] eqn:Ey; cbn [is_some negb]; [|reflexivity].
  unfold io_bind at 1, RGS_IO.read_csv_mappings, io_bind at 1, open_csv.
  rewrite Ecsv.
  destruct (read_csv_reader reader) as [e|m]; [reflexivity|].
  unfold io_bind at 1, read_yaml. rewrite Ey.
  unfold io_bind at 1, write_backup. fold (with_backup fs (universal_newlines raw)).
  unfold io_bind at 1.
  rewrite (rgs_io_update m (with_backup fs (universal_newlines raw)) raw)
    by exact Ey.
  cbv zeta.
  destruct (RGS.update_yaml_file m (readlines (universal_newlines raw)))
    as [e|r] eqn:Er; [reflexivity|].
  destruct (rgs_not_found_ok _ _ _ Er) as [ws ->]. unfold Ok. cbn [fst].
  unfold status_of, io_ret. now destruct (RGS.not_found r).
Qed.

(** With a reader that reads the file to its end. *)
Lemma rgs_io_main_rows (fs : files) (reader : list (list str)) :
  csv_file fs = Some reader ->
  RGS_IO.main fs
  = match yaml_file fs with
    | None => (inr 1, fs)
    | Some raw =>
        match read_csv_mappings reader with
        | inl e => (inl (Python e), fs)
        | inr m =>
            let text := universal_newlines raw in
            match RGS.update_yaml_file m (readlines text) with
            | inl e => (inl (Python e), with_backup fs text)
            | inr r =>
                (inr (status_of (RGS.not_found r)),
                 with_yaml (with_backup fs text) (concat (RGS.written r)))
            end
        end
    end.
Proof.
  intros Hcsv. apply csv_file_source in Hcsv.
  rewrite rgs_io_main, Hcsv, read_csv_reader_exhausted.
  destruct (yaml_file fs) as [raw|]; [|reflexivity].
  now destruct (read_csv_mappings reader).
Qed.


Lemma src_io_main (fs : files) :
  SRC_IO.main fs
  = match csv_source fs, yaml_file fs with
    | None, _ | Some _, None => (inr 1, fs)
    | Some reader, Some raw =>
        match read_csv_reader reader with
        | inl e => (inl e, fs)
        | inr m =>
            let text := universal_newlines raw in
            match SRC.update_yaml_file m (readlines text) with
            | inl e => (inl (Python e), with_backup fs text)
            | inr r =>
                (inr (status_of (SRC.not_found r)),
                 with_yaml (with_backup fs text) (concat (SRC.written r)))
            end
        end
    end.
Proof.
  unfold SRC_IO.main, io_bind at 1, csv_exists.
  destruct (csv_source fs) as [reader|] eqn:Ecsv; cbn [is_some negb];
    [|reflexivity].
  unfold io_bind at 1, yaml_exists.
  destruct (yaml_file fs) as [raw|] eqn:Ey; cbn [is_some negb]; [|reflexivity].
  unfold io_bind at 1, SRC_IO.read_csv_mappings, io_bind at 1, open_csv.
  rewrite Ecsv.
  destruct (read_csv_reader reader) as [e|m]; [reflexivity|].
  unfold io_bind at 1, read_yaml. rewrite Ey.
  unfold io_bind at 1, write_backup. fold (with_backup fs (universal_newlines raw)).
  unfold io_bind at 1.
  rewrite (src_io_update m (with_backup fs (universal_newlines raw)) raw)
    by exact Ey.
  cbv zeta.
  destruct (SRC.update_yaml_file m (readlines (universal_newlines raw)))
    as [e|r] eqn:Er; [reflexivity|].
  destruct (src_not_found_ok _ _ _ Er) as [ws ->]. unfold Ok. cbn [fst].
  unfold status_of, io_ret. now destruct (SRC.not_found r).
Qed.

(** With a reader that reads the file to its end. *)
Lemma src_io_main_rows (fs : files) (reader : list (list str)) :
  csv_file fs = Some reader ->
  SRC_IO.main fs
  = match yaml_file fs with
    | None => (inr 1, fs)
    | Some raw =>
        match read_csv_mappings reader with
        | inl e => (inl (Python e), fs)
        | inr m =>
            let text := universal_newlines raw in
            match SRC.update_yaml_file m (readlines text) with
            | inl e => (inl (Python e), with_backup fs text)
            | inr r =>
                (inr (status_of (SRC.not_found r)),
                 with_yaml (with_backup fs text) (concat (SRC.written r)))
            end
        end
    end.
Proof.
  intros Hcsv. apply csv_file_source in Hcsv.
  rewrite src_io_main, Hcsv, read_csv_reader_exhausted.
  destruct (yaml_file fs) as [raw|]; [|reflexivity].
  now destruct (read_csv_mappings reader).
Qed.



Lemma rgs_update_error (m : mappings) (lines : list str) (e : exn) :
  RGS.update_yaml_file m lines = inl e -> e = TemplateError.
Proof.
  unfold RGS.update_yaml_file.
  destruct (RGS.patch_lines m lines) as [e'|[[ls n] ev]] eqn:E; cbn [bind].
  - intros H; injection H as <-. now apply rgs_patch_lines_error in E.
  - discriminate.
Qed.

Lemma src_update_error (m : mappings) (lines : list str) (e : exn) :
  SRC.update_yaml_file m lines = inl e -> e = TemplateError.
Proof.
  unfold SRC.update_yaml_file.
  destruct (SRC.patch_lines m 0 lines) as [e'|[[ls n] ev]] eqn:E; cbn [bind].
  - intros H; injection H as <-. now apply src_patch_lines_error in E.
  - discriminate.
Qed.

Lemma read_csv_reader_error (reader : csv_reader) (e : error) :
  read_csv_reader reader = inl e <->
  (reader = ([], Exhausted) /\ e = Python StopIteration) \/
  (exists rows er, reader = (rows, Fails er) /\ e = ReaderError er).
Proof.
  destruct reader as [rows [|er]].
  - rewrite read_csv_reader_exhausted. destruct rows as [|header rows].
    + cbn [read_csv_mappings]. unfold Raise. split.
      * intros H. injection H as <-. now left.
      * intros [[_ ->]|(rows & er & H & _)]; [reflexivity|discriminate].
    + cbn [read_csv_mappings]. rewrite read_rows_fold. unfold Ok. split.
      * discriminate.
      * intros [[H _]|(rows' & er & H & _)]; discriminate.
  - rewrite read_csv_reader_fails. split.
    + intros H. injection H as <-. right. now exists rows, er.
    + intros [[H _]|(rows' & er' & H & ->)]; [discriminate|].
      now injection H as _ ->.
Qed.

(** C5, as amended.  No exception of the reading of the CSV file is
    caught.  [read_csv_mappings] raises StopIteration on a CSV file
    without any row, and lets through what [csv.reader] raises at the
    header or at a later row (a CSV error, a decoding error, a read that
    fails); with both files present these exceptions leave [main], in
    both scripts, and no file has been written.  When the reader yields
    the header row and reads the file to its end, [read_csv_mappings]
    returns, whatever the rows hold: rows of fewer than four columns are
    skipped and every other row is stored. *)
Theorem read_csv_outcome :
  read_csv_reader ([], Exhausted) = inl (Python StopIteration) /\
  (forall rows er, read_csv_reader (rows, Fails er) = inl (ReaderError er)) /\
  (forall header rows,
      read_csv_reader (header :: rows, Exhausted)
      = inr (fold_left store (entries rows) []) /\
      read_csv_reader
        (header :: filter (fun row => negb (length row <? 4)) rows, Exhausted)
      = inr (fold_left store (entries rows) [])) /\
  (forall fs reader raw e,
      csv_source fs = Some reader -> yaml_file fs = Some raw ->
      read_csv_reader reader = inl e ->
      RGS_IO.main fs = (inl e, fs) /\ SRC_IO.main fs = (inl e, fs)).
Proof.
  split; [reflexivity|]. split; [exact read_csv_reader_fails|]. split.
  - intros header rows. rewrite !read_csv_reader_exhausted.
    destruct (read_csv_rows_stored header rows) as (m & -> & -> & ->).
    split; reflexivity.
  - intros fs reader raw e Hcsv Hy He.
    rewrite rgs_io_main, src_io_main, Hcsv, Hy, He. split; reflexivity.
Qed.

Lemma rgs_io_main_pure (fs : files) :
  (forall rows er, csv_source fs <> Some (rows, Fails er)) ->
  fst (RGS_IO.main fs)
  = raised (RGS.main (csv_file fs) (option_map universal_newlines (yaml_file fs))).
Proof.
  intros Hno. destruct (csv_source fs) as [[rows [|er]]|] eqn:Es.
  - apply csv_file_source in Es. rewrite (rgs_io_main_rows fs rows Es), Es.
    unfold RGS.main.
    destruct (yaml_file fs) as [raw|]; [|reflexivity].
    cbn [option_map].
    destruct (read_csv_mappings rows) as [e|m]; [reflexivity|].
    cbv zeta. cbn [bind].
    destruct (RGS.update_yaml_file m (readlines (universal_newlines raw)))
      as [e|r]; [reflexivity|].
    cbn [fst bind]. unfold status_of. now destruct (RGS.not_found r).
  - now destruct (Hno rows er).
  - rewrite rgs_io_main. unfold csv_file. now rewrite Es.
Qed.

Lemma src_io_main_pure (fs : files) :
  (forall rows er, csv_source fs <> Some (rows, Fails er)) ->
  fst (SRC_IO.main fs)
  = raised (SRC.main (csv_file fs) (option_map universal_newlines (yaml_file fs))).
Proof.
  intros Hno. destruct (csv_source fs) as [[rows [|er]]|] eqn:Es.
  - apply csv_file_source in Es. rewrite (src_io_main_rows fs rows Es), Es.
    unfold SRC.main.
    destruct (yaml_file fs) as [raw|]; [|reflexivity].
    cbn [option_map].
    destruct (read_csv_mappings rows) as [e|m]; [reflexivity|].
    cbv zeta. cbn [bind].
    destruct (SRC.update_yaml_file m (readlines (universal_newlines raw)))
      as [e|r]; [reflexivity|].
    cbn [fst bind]. unfold status_of. now destruct (SRC.not_found r).
  - now destruct (Hno rows er).
  - rewrite src_io_main. unfold csv_file. now rewrite Es.
Qed.

(** X10.  What leaves [main], in both scripts, the CSV file being what
    [csv.reader] makes of it and the YAML file a text that can be read.
    An exception leaves [main] in exactly three cases, in all of which
    both files exist: the reader yields no row at all, and [next] raises
    StopIteration; the reader raises at the header or at a later row, and
    its exception goes through [read_csv_mappings] and [main]; the reader
    yields its rows to the end, and [re.sub] raises for a replacement it
    cannot compile.  When the reader does not raise, the outcome of
    [main] is that of the pass on the rows and on the text as read: the
    backup and the writing of the files take no part in it.  No lookup
    of a row, of the table or of a file fails: the column count is
    tested before the columns are read, the ids looked up are keys of
    the table, and the files are opened after the test that they exist.
    (Errors of the reading and writing of the YAML file and of the
    backup are not part of this.) *)
Theorem main_outcome (fs : files) :
  ((forall rows er, csv_source fs <> Some (rows, Fails er)) ->
   fst (RGS_IO.main fs)
   = raised (RGS.main (csv_file fs)
                      (option_map universal_newlines (yaml_file fs))) /\
   fst (SRC_IO.main fs)
   = raised (SRC.main (csv_file fs)
                      (option_map universal_newlines (yaml_file fs)))) /\
  (forall e,
      fst (RGS_IO.main fs) = inl e <->
      leaves_main fs (fun m lines => match RGS.update_yaml_file m lines with
                                     | inl e' => Some e'
                                     | inr _ => None
                                     end) e) /\
  (forall e,
      fst (SRC_IO.main fs) = inl e <->
      leaves_main fs (fun m lines => match SRC.update_yaml_file m lines with
                                     | inl e' => Some e'
                                     | inr _ => None
                                     end) e).
Proof.
  split; [|split].
  - intros Hno. split; [now apply rgs_io_main_pure|now apply src_io_main_pure].
  - intros e. rewrite rgs_io_main. unfold leaves_main.
    destruct (csv_source fs) as [[rows ending]|].
    2:{ split; [discriminate|]. intros (reader & raw & H & _). discriminate. }
    destruct (yaml_file fs) as [raw|].
    2:{ split; [discriminate|]. intros (reader & raw & _ & H & _). discriminate. }
    destruct (read_csv_reader (rows, ending)) as [e0|m] eqn:Em.
    + cbn [fst]. pose proof (proj1 (read_csv_reader_error _ _) Em) as Hc. split.
      * intros H. injection H as <-. exists (rows, ending), raw.
        split; [reflexivity|]. split; [reflexivity|].
        destruct Hc as [Hc|Hc]; [left; exact Hc|right; left; exact Hc].
      * intros (reader & raw' & H1 & _ & Hcase). injection H1 as <-.
        destruct Hcase as [Hcase|[Hcase|(header & rows' & Hr & _)]].
        -- f_equal.
           assert (H : read_csv_reader (rows, ending) = inl e)
             by (apply read_csv_reader_error; left; exact Hcase).
           rewrite Em in H. now injection H.
        -- f_equal.
           assert (H : read_csv_reader (rows, ending) = inl e)
             by (apply read_csv_reader_error; right; exact Hcase).
           rewrite Em in H. now injection H.
        -- rewrite Hr in Em. cbn [read_csv_reader next_row] in Em.
           rewrite read_rows_fold in Em. discriminate.
    + assert (Hr : exists header rows',
                 rows = header :: rows' /\ ending = Exhausted /\
                 m = fold_left store (entries rows') []).
      { destruct ending as [|er]; [|now rewrite read_csv_reader_fails in Em].
        destruct rows as [|header rows']; [discriminate|].
        cbn [read_csv_reader next_row] in Em. rewrite read_rows_fold in Em.
        injection Em as <-. now exists header, rows'. }
      destruct Hr as (header & rows' & -> & -> & Hm). cbv zeta.
      destruct (RGS.update_yaml_file m (readlines (universal_newlines raw)))
        as [e1|r] eqn:E; cbn [fst].
      * pose proof (rgs_update_error _ _ _ E) as ->. split.
        -- intros H. injection H as <-. exists (header :: rows', Exhausted), raw.
           split; [reflexivity|]. split; [reflexivity|]. right. right.
           exists header, rows'. split; [reflexivity|]. rewrite <- Hm, E.
           split; reflexivity.
        -- intros (reader & raw' & H1 & _ & Hcase). injection H1 as <-.
           destruct Hcase as [[Hr _]|[(rows & er & Hr & _)|(_ & _ & _ & _ & ->)]];
             [discriminate|discriminate|reflexivity].
      * split; [discriminate|].
        intros (reader & raw' & H1 & H2 & Hcase).
        injection H1 as <-. injection H2 as <-.
        destruct Hcase as [[Hr _]|[(rows & er & Hr & _)|(h & rs & Hr & Hu & _)]];
          [discriminate|discriminate|].
        injection Hr as <- <-. rewrite <- Hm, E in Hu. discriminate.
  - intros e. rewrite src_io_main. unfold leaves_main.
    destruct (csv_source fs) as [[rows ending]|].
    2:{ split; [discriminate|]. intros (reader & raw & H & _). discriminate. }
    destruct (yaml_file fs) as [raw|].
    2:{ split; [discriminate|]. intros (reader & raw & _ & H & _). discriminate. }
    destruct (read_csv_reader (rows, ending)) as [e0|m] eqn:Em.
    + cbn [fst]. pose proof (proj1 (read_csv_reader_error _ _) Em) as Hc. split.
      * intros H. injection H as <-. exists (rows, ending), raw.
        split; [reflexivity|]. split; [reflexivity|].
        destruct Hc as [Hc|Hc]; [left; exact Hc|right; left; exact Hc].
      * intros (reader & raw' & H1 & _ & Hcase). injection H1 as <-.
        destruct Hcase as [Hcase|[Hcase|(header & rows' & Hr & _)]].
        -- f_equal.
           assert (H : read_csv_reader (rows, ending) = inl e)
             by (apply read_csv_reader_error; left; exact Hcase).
           rewrite Em in H. now injection H.
        -- f_equal.
           assert (H : read_csv_reader (rows, ending) = inl e)
             by (apply read_csv_reader_error; right; exact Hcase).
           rewrite Em in H. now injection H.
        -- rewrite Hr in Em. cbn [read_csv_reader next_row] in Em.
           rewrite read_rows_fold in Em. discriminate.
    + assert (Hr : exists header rows',
                 rows = header :: rows' /\ ending = Exhausted /\
                 m = fold_left store (entries rows') []).
      { destruct ending as [|er]; [|now rewrite read_csv_reader_fails in Em].
        destruct rows as [|header rows']; [discriminate|].
        cbn [read_csv_reader next_row] in Em. rewrite read_rows_fold in Em.
        injection Em as <-. now exists header, rows'. }
      destruct Hr as (header & rows' & -> & -> & Hm). cbv zeta.
      destruct (SRC.update_yaml_file m (readlines (universal_newlines raw)))
        as [e1|r] eqn:E; cbn [fst].
      * pose proof (src_update_error _ _ _ E) as ->. split.
        -- intros H. injection H as <-. exists (header :: rows', Exhausted), raw.
           split; [reflexivity|]. split; [reflexivity|]. right. right.
           exists header, rows'. split; [reflexivity|]. rewrite <- Hm, E.
           split; reflexivity.
        -- intros (reader & raw' & H1 & _ & Hcase). injection H1 as <-.
           destruct Hcase as [[Hr _]|[(rows & er & Hr & _)|(_ & _ & _ & _ & ->)]];
             [discriminate|discriminate|reflexivity].
      * split; [discriminate|].
        intros (reader & raw' & H1 & H2 & Hcase).
        injection H1 as <-. injection H2 as <-.
        destruct Hcase as [[Hr _]|[(rows & er & Hr & _)|(h & rs & Hr & Hu & _)]];
          [discriminate|discriminate|].
        injection Hr as <- <-. rewrite <- Hm, E in Hu. discriminate.
Qed.





(** X13.  Both files exist, the YAML file is a text that can be read,
    and no id and no canonical path of a row of four or more columns
    holds a backslash.  Then each script runs to its end, [main]
    returning an exit status, exactly when [csv.reader] yields the header
    row and reads the file to its end without raising; this for every
    YAML text. *)
Theorem main_completes (fs : files) (reader : csv_reader) (raw : str) :
  csv_source fs = Some reader -> yaml_file fs = Some raw ->
  (forall name k ext path more,
      In (name :: k :: ext :: path :: more) (tl (fst reader)) ->
      plain k /\ plain path) ->
  ((exists status, fst (RGS_IO.main fs) = inr status) <->
   (exists header rows, reader = (header :: rows, Exhausted))) /\
  ((exists status, fst (SRC_IO.main fs) = inr status) <->
   (exists header rows, reader = (header :: rows, Exhausted))).
Proof.
  intros Hcsv Hy Hrows. rewrite rgs_io_main, src_io_main, Hcsv, Hy.
  destruct (read_csv_reader reader) as [e|m] eqn:Em.
  - apply read_csv_reader_error in Em.
    split; (split; [intros [status H]; discriminate|]);
      intros (header & rows & ->);
      destruct Em as [[H _]|(rows' & er & H & _)]; discriminate.
  - assert (Hr : exists header rows,
               reader = (header :: rows, Exhausted) /\
               read_csv_mappings (header :: rows) = Ok m).
    { destruct reader as [rows [|er]];
        [|now rewrite read_csv_reader_fails in Em].
      destruct rows as [|header rows]; [discriminate|].
      rewrite read_csv_reader_exhausted in Em.
      exists header, rows. split; [reflexivity|].
      destruct (read_csv_mappings (header :: rows)); [discriminate|].
      now injection Em as ->. }
    destruct Hr as (header & rows & -> & Hm). cbn [fst tl] in Hrows.
    pose proof (read_csv_plain header rows m Hrows Hm) as Hp.
    cbv zeta. unfold RGS.update_yaml_file, SRC.update_yaml_file.
    destruct (rgs_patch_lines_plain m (readlines (universal_newlines raw)) Hp)
      as [[[ls n] ev] ->].
    destruct (src_patch_lines_plain m (readlines (universal_newlines raw)) Hp 0)
      as [[[ls' n'] ev'] ->].
    cbn. split; (split; [intros _; now exists header, rows|intros _; now eexists]).
Qed.

(** ** Line ends *)

Lemma universal_newlines_same (s : str) :
  cr_free s = true -> universal_newlines s = s.
Proof.
  unfold cr_free. induction s as [|c s IH]; [reflexivity|].
  cbn [forallb universal_newlines]. intros H.
  apply andb_true_iff in H as [Hc Hs]. apply negb_true_iff in Hc.
  rewrite Hc. now rewrite IH.
Qed.

Lemma universal_newlines_cr_free (n : nat) :
  forall s, length s <= n -> cr_free (universal_newlines s) = true.
Proof.
  unfold cr_free. induction n as [|n IH]; intros s Hn.
  - destruct s; [reflexivity|cbn in Hn; lia].
  - destruct s as [|c s]; [reflexivity|]. cbn [length] in Hn.
    cbn [universal_newlines].
    destruct (Ascii.eqb c carriage_return) eqn:Ec.
    + cbn [forallb]. change (negb (Ascii.eqb newline carriage_return)) with true.
      cbn [andb]. destruct s as [|d s]; [reflexivity|]. cbn [length] in Hn.
      destruct (Ascii.eqb d newline); apply IH; cbn [length]; lia.
    + cbn [forallb]. rewrite Ec. cbn [negb andb]. apply IH. lia.
Qed.

Lemma universal_newlines_fixed (s : str) :
  universal_newlines s = s <-> cr_free s = true.
Proof.
  split; [|apply universal_newlines_same].
  intros H. rewrite <- H. now apply (universal_newlines_cr_free (length s)).
Qed.

Lemma rgs_patch_lines_unmatched (m : mappings) (lines : list str) :
  Forall (RGS.unmatched m) lines -> RGS.patch_lines m lines = Ok (lines, 0, []).
Proof.
  induction 1 as [|l lines Hl _ IH]; [reflexivity|].
  cbn [RGS.patch_lines]. now rewrite (rgs_patch_unmatched _ _ Hl), IH.
Qed.

(** X14.  [update_yaml_file] writes the file back even when it changes
    no line, and what it writes is the text as read in text mode.  When
    no line matches an id (variant A), or when nothing is counted
    (variant B), the YAML file afterwards is the text read: the file as
    it was when it holds no carriage return, and the file with its line
    ends translated otherwise. *)
Theorem unchanged_file_line_ends (m : mappings) (fs : files) (raw : str) :
  yaml_file fs = Some raw ->
  (Forall (RGS.unmatched m) (readlines (universal_newlines raw)) ->
   exists r ws,
     RGS_IO.update_yaml_file m fs
     = (inr (r, ws), with_yaml fs (universal_newlines raw)) /\
     RGS.written r = readlines (universal_newlines raw) /\
     RGS.updated_count r = 0) /\
  (forall r ws fs',
      SRC_IO.update_yaml_file m fs = (inr (r, ws), fs') ->
      SRC.updated_count r = 0 ->
      fs' = with_yaml fs (universal_newlines raw)) /\
  (with_yaml fs (universal_newlines raw) = fs <-> cr_free raw = true).
Proof.
  intros Hy. split; [|split].
  - intros Hun. rewrite (rgs_io_update m fs raw Hy).
    unfold RGS.update_yaml_file.
    rewrite (rgs_patch_lines_unmatched _ _ Hun). cbn [bind Ok].
    destruct (warning_lines_unresolved m
                (fun k => negb (contains (RGS.rgs_text k)
                                         (universal_newlines raw))))
      as [ws Hws].
    cbn [RGS.not_found RGS.written]. rewrite !concat_readlines.
    unfold RGS.unresolved. rewrite Hws.
    eexists _, ws. repeat split.
  - intros r ws fs' H H0. rewrite (src_io_update m fs raw Hy) in H.
    destruct (SRC.update_yaml_file m (readlines (universal_newlines raw)))
      as [e|r0] eqn:Er; [discriminate|].
    destruct (warning_lines m (sorted (SRC.not_found r0))); [discriminate|].
    injection H as -> _ <-.
    apply src_update_written in Er as [Er _].
    apply src_patch_lines_count in Er as (_ & _ & _ & Er).
    rewrite (Er H0). now rewrite concat_readlines.
  - rewrite <- universal_newlines_fixed. unfold with_yaml. split.
    + intros H. rewrite <- H in Hy. cbn [yaml_file] in Hy. congruence.
    + intros ->. destruct fs. cbn in *. now rewrite Hy.
Qed.

(** ** A second run of the script *)

(** One turn of the loop of variant A on a record line, by what it
    prints: the fields after the src step, and the fields written. *)
Lemma rgs_patch_cases (m : mappings) (fs : list field) (tl line' : str)
      (n : nat) (ev : list RGS.event) :
  wf_table m -> record_line fs tl ->
  RGS.patch_line m (render fs tl) = Ok (line', n, ev) ->
  exists fs1 fs2,
    line' = render fs2 tl /\ record_line fs1 tl /\
    (fs1 = fs \/
     exists k rec, dict_find k m = Some rec /\
                   fs1 = map (retarget (txt "src:") true (src rec)) fs) /\
    ((fs2 = fs1 /\ n = 0 /\ ev = []) \/
     exists k rec,
       dict_find k m = Some rec /\
       ((exists cur,
            search_group1 RGS.rgs_re (render fs1 tl) = Some cur /\
            fs2 = map (retarget (txt "retrobat_rgs:") false k) fs1 /\
            n = 1 /\ ev = [RGS.Updated k cur]) \/
        (search_group1 RGS.rgs_re (render fs1 tl) = None /\
         contains (txt "retrobat:") (render fs1 tl) = true /\
         fs2 = insert_rgs k fs1 tl /\ n = 1 /\ ev = [RGS.Added k]))).
Proof.
  intros Hwf Hrec H.
  assert (Hsame : (line', n, ev) = (render fs tl, 0, []) ->
                  exists fs1 fs2,
                    line' = render fs2 tl /\ record_line fs1 tl /\
                    (fs1 = fs \/
                     exists k rec, dict_find k m = Some rec /\
                       fs1 = map (retarget (txt "src:") true (src rec)) fs) /\
                    ((fs2 = fs1 /\ n = 0 /\ ev = []) \/
                     exists k rec,
                       dict_find k m = Some rec /\
                       ((exists cur,
                            search_group1 RGS.rgs_re (render fs1 tl) = Some cur /\
                            fs2 = map (retarget (txt "retrobat_rgs:") false k) fs1 /\
                            n = 1 /\ ev = [RGS.Updated k cur]) \/
                        (search_group1 RGS.rgs_re (render fs1 tl) = None /\
                         contains (txt "retrobat:") (render fs1 tl) = true /\
                         fs2 = insert_rgs k fs1 tl /\ n = 1 /\
                         ev = [RGS.Added k])))).
  { intros E. injection E as -> -> ->. exists fs, fs.
    split; [reflexivity|]. split; [exact Hrec|]. split; left; auto. }
  pose proof (find_match_keys m (render fs tl)) as Hf.
  destruct (find (RGS.hit m (render fs tl)) (dict_keys m)) as [k|] eqn:Ef.
  2:{ unfold RGS.patch_line in H. rewrite Hf in H.
      apply Hsame. symmetry. injection H as -> -> ->. reflexivity. }
  destruct k as [|c k].
  { unfold RGS.patch_line in H. rewrite Hf in H.
    apply Hsame. symmetry. injection H as -> -> ->. reflexivity. }
  set (k0 := c :: k) in *.
  assert (Hk0 : k0 <> []) by discriminate.
  destruct (dict_find_keys k0 m) as [rec Hrec0].
  { apply find_some in Ef. tauto. }
  destruct (Hwf k0 rec Hrec0) as ((Hkq & Hkc & Hkp) & (Hsq & Hsc & Hsp) & Hne).
  rewrite (rgs_patch_line_matched _ _ _ _ Hf Hk0 Hrec0) in H.
  destruct (search_group1 RGS.src_re (render fs tl)) as [cur|] eqn:Es.
  2:{ apply Hsame. symmetry. injection H as -> -> ->. reflexivity. }
  clear Hsame.
  assert (Hstep : exists fs1,
             (if str_eqb cur (src rec) then Ok (render fs tl)
              else re_sub RGS.src_sub_re (RGS.src_text (src rec)) (render fs tl))
             = Ok (render fs1 tl) /\
             record_line fs1 tl /\
             search_group1 RGS.rgs_re (render fs1 tl)
             = search_group1 RGS.rgs_re (render fs tl) /\
             (fs1 = fs \/
              exists k rec, dict_find k m = Some rec /\
                            fs1 = map (retarget (txt "src:") true (src rec)) fs)).
  { destruct (str_eqb cur (src rec)).
    - exists fs. repeat split; auto; apply Hrec.
    - exists (map (retarget (txt "src:") true (src rec)) fs).
      assert (Hrec1 : record_line (map (retarget (txt "src:") true (src rec)) fs) tl)
        by (apply record_line_retarget; auto using field_name_src).
      split; [now apply src_sub_render|]. split; [exact Hrec1|]. split.
      + rewrite !rgs_search_render by assumption.
        now rewrite find_retarget_other by apply apart_src_rgs.
      + right. exists k0, rec. split; [exact Hrec0|reflexivity]. }
  destruct Hstep as (fs1 & Hstep & Hrec1 & Hrgs1 & Hfs1).
  rewrite Hstep in H. cbn [bind Ok] in H. rewrite <- Hrgs1 in H.
  clear Hstep Hrgs1 Es. exists fs1.
  destruct (search_group1 RGS.rgs_re (render fs1 tl)) as [r0|].
  - destruct (str_eqb r0 k0).
    + injection H as <- <- <-. exists fs1.
      split; [reflexivity|]. split; [exact Hrec1|]. split; [exact Hfs1|].
      left. repeat split.
    + rewrite rgs_sub_render in H by assumption.
      cbn [bind Ok] in H. injection H as <- <- <-.
      eexists. split; [reflexivity|]. split; [exact Hrec1|]. split; [exact Hfs1|].
      right. exists k0, rec. split; [exact Hrec0|]. left. exists r0.
      repeat split.
  - destruct (contains (txt "retrobat:") (render fs1 tl)) eqn:Ec.
    + rewrite re_sub_insert_render in H by auto. cbn [bind Ok] in H.
      injection H as <- <- <-.
      eexists. split; [reflexivity|]. split; [exact Hrec1|]. split; [exact Hfs1|].
      right. exists k0, rec. split; [exact Hrec0|]. right. repeat split.
    + injection H as <- <- <-. exists fs1.
      split; [reflexivity|]. split; [exact Hrec1|]. split; [exact Hfs1|].
      left. repeat split.
Qed.

Lemma rgs_patch_explicit (m : mappings) (fs : list field) (tl line' : str)
      (n : nat) (ev : list RGS.event) :
  wf_table m -> record_line fs tl ->
  RGS.patch_line m (render fs tl) = Ok (line', n, ev) ->
  exists fs1 fs2,
    line' = render fs2 tl /\
    (fs1 = fs \/
     exists k rec, dict_find k m = Some rec /\
                   fs1 = map (retarget (txt "src:") true (src rec)) fs) /\
    (fs2 = fs1 \/
     exists k rec, dict_find k m = Some rec /\
                   (fs2 = map (retarget (txt "retrobat_rgs:") false k) fs1 \/
                    fs2 = insert_rgs k fs1 tl)).
Proof.
  intros Hwf Hrec H.
  destruct (rgs_patch_cases m fs tl line' n ev Hwf Hrec H)
    as (fs1 & fs2 & Hl & _ & H1 & H2).
  exists fs1, fs2. split; [exact Hl|]. split; [exact H1|].
  destruct H2 as [(-> & _)|(k & rec & Hk & [(cur & _ & -> & _)|(_ & _ & -> & _)])].
  - now left.
  - right. exists k, rec. split; [exact Hk|now left].
  - right. exists k, rec. split; [exact Hk|now right].
Qed.

Lemma src_patch_explicit (m : mappings) (i : nat) (fs : list field)
      (tl line' : str) (n : nat) (ev : list SRC.event) :
  wf_table m -> record_line fs tl ->
  SRC.patch_line m i (render fs tl) = Ok (line', n, ev) ->
  exists fs1,
    line' = render fs1 tl /\
    (fs1 = fs \/
     exists k rec, dict_find k m = Some rec /\
                   fs1 = map (retarget (txt "src:") true (src rec)) fs).
Proof.
  intros Hwf Hrec. unfold SRC.patch_line.
  destruct (search_group1 SRC.marker_re (render fs tl)) as [k|].
  2:{ intros H; injection H as <- _ _. exists fs. now split; [|left]. }
  unfold dict_mem, dict_get.
  destruct (dict_find k m) as [rec|] eqn:Erec; cbn [negb].
  2:{ intros H; injection H as <- _ _. exists fs. now split; [|left]. }
  destruct (search_group1 SRC.src_re (render fs tl)) as [cur|].
  2:{ intros H; injection H as <- _ _. exists fs. now split; [|left]. }
  cbn [bind Ok]. destruct (str_eqb cur (src rec)).
  { intros H; injection H as <- _ _. exists fs. now split; [|left]. }
  destruct (Hwf k rec Erec) as (_ & (Hsq & Hsc & Hsp) & Hne).
  change SRC.src_sub_re with RGS.src_sub_re.
  change (SRC.src_text (src rec)) with (RGS.src_text (src rec)).
  rewrite src_sub_render by assumption. cbn [bind Ok].
  intros H; injection H as <- _ _. eexists. split; [reflexivity|].
  right. now exists k, rec.
Qed.

Lemma readlines_terminated (body rest : str) :
  forallb line_char body = true ->
  readlines (body ++ newline :: rest) = (body ++ [newline]) :: readlines rest.
Proof.
  induction body as [|c body IH]; intros H.
  - cbn [app readlines]. now rewrite Ascii.eqb_refl.
  - cbn [forallb] in H. apply andb_true_iff in H as [Hc Hb].
    cbn [app readlines]. rewrite (IH Hb).
    unfold line_char in Hc. apply andb_true_iff in Hc as [Hc _].
    apply negb_true_iff in Hc. now rewrite Hc.
Qed.

Lemma readlines_last (l : str) :
  l <> [] -> forallb line_char l = true -> readlines l = [l].
Proof.
  induction l as [|c l IH]; intros Hne H; [congruence|].
  cbn [forallb] in H. apply andb_true_iff in H as [Hc Hl].
  unfold line_char in Hc. apply andb_true_iff in Hc as [Hc _].
  apply negb_true_iff in Hc. cbn [readlines]. rewrite Hc.
  destruct l as [|d l]; [reflexivity|].
  now rewrite IH by (auto; discriminate).
Qed.

Lemma line_char_cr_free (s : str) : forallb line_char s = true -> cr_free s = true.
Proof.
  unfold cr_free. induction s as [|c s IH]; [reflexivity|].
  cbn [forallb]. intros H. apply andb_true_iff in H as [Hc Hs].
  unfold line_char in Hc. apply andb_true_iff in Hc as [_ Hc].
  now rewrite Hc, IH.
Qed.

Lemma cr_free_app (a b : str) :
  cr_free (a ++ b) = cr_free a && cr_free b.
Proof. apply forallb_app. Qed.

(** The lines of a file are read back as they were written. *)
Lemma file_lines_concat (ls : list str) :
  file_lines ls -> readlines (concat ls) = ls /\ cr_free (concat ls) = true.
Proof.
  induction ls as [|l ls IH]; [now split|].
  intros [[(body & -> & Hb)|(-> & Hne & Hl)] Hls].
  - destruct (IH Hls) as [IH1 IH2]. cbn [concat]. split.
    + rewrite <- app_assoc. cbn [app]. now rewrite readlines_terminated, IH1.
    + rewrite !cr_free_app, IH2, (line_char_cr_free _ Hb). reflexivity.
  - cbn [concat]. rewrite app_nil_r. split.
    + now apply readlines_last.
    + now apply line_char_cr_free.
Qed.

Lemma readlines_file_lines (s : str) :
  cr_free s = true -> file_lines (readlines s).
Proof.
  unfold cr_free. induction s as [|c s IH]; [constructor|].
  cbn [forallb]. intros H. apply andb_true_iff in H as [Hc Hs].
  specialize (IH Hs). cbn [readlines].
  destruct (Ascii.eqb c newline) eqn:Ec.
  - apply Ascii.eqb_eq in Ec as ->. split; [|exact IH].
    left. now exists [].
  - assert (Hlc : line_char c = true) by (unfold line_char; now rewrite Ec, Hc).
    destruct (readlines s) as [|l ls].
    + split; [|constructor]. right. repeat split; [discriminate|].
      cbn [forallb]. now rewrite Hlc.
    + destruct IH as [[(body & -> & Hb)|(-> & Hne & Hl)] Hls]; split; auto.
      * left. exists (c :: body). split; [reflexivity|].
        cbn [forallb]. now rewrite Hlc.
      * right. repeat split; [discriminate|]. cbn [forallb]. now rewrite Hlc.
Qed.

Lemma render_app (fs : list field) (a b : str) :
  render fs (a ++ b) = render fs a ++ b.
Proof.
  induction fs as [|f fs IH]; [reflexivity|].
  cbn [render]. now rewrite IH, app_assoc.
Qed.

Lemma forallb_render (P : ascii -> bool) (fs : list field) (tl : str) :
  P quote = true ->
  (forallb P (render fs tl) = true <-> fields_free P fs /\ forallb P tl = true).
Proof.
  intros Hq. induction fs as [|f fs IH].
  - cbn [render]. split; [intros H; split; [constructor|exact H]|tauto].
  - cbn [render]. unfold render_field, quoted.
    rewrite !forallb_app. cbn [forallb]. rewrite !forallb_app. cbn [forallb].
    rewrite Hq. split.
    + intros H. apply andb_true_iff in H as [H1 H2].
      apply andb_true_iff in H1 as [Hg Hv]. cbn [andb] in Hv.
      rewrite andb_true_r in Hv. apply IH in H2 as [Hfs Htl].
      split; [constructor; [split|]|]; assumption.
    + intros [Hf Htl]. inversion_clear Hf as [|? ? [Hg Hv] Hfs].
      rewrite Hg, Hv. cbn [andb]. apply IH. now split.
Qed.

Lemma render_ends_quote (fs : list field) :
  fs <> [] -> exists x, render fs [] = x ++ [quote].
Proof.
  induction fs as [|f fs IH]; intros Hne; [congruence|].
  cbn [render]. destruct fs as [|g fs].
  - cbn [render]. rewrite app_nil_r. unfold render_field, quoted.
    exists (gap f ++ quote :: val f).
    rewrite <- app_assoc. reflexivity.
  - destruct IH as [x Hx]; [discriminate|]. rewrite Hx.
    exists (render_field f ++ x). now rewrite app_assoc.
Qed.

(** A record line with its line end: the line end closes the text after
    the last field. *)
Lemma render_terminated (fs : list field) (tl : str) :
  terminated (render fs tl) <->
  fields_free line_char fs /\
  exists tl0, tl = tl0 ++ [newline] /\ forallb line_char tl0 = true.
Proof.
  split.
  - intros (body & Hb & HP).
    destruct (exists_last (l := tl)) as (tl0 & c & ->).
    + intros ->. destruct fs as [|f fs]; [now destruct body|].
      destruct (render_ends_quote (f :: fs)) as [x Hx]; [discriminate|].
      rewrite Hx in Hb. apply app_inj_tail in Hb as [_ Hb]. discriminate.
    + rewrite render_app in Hb. apply app_inj_tail in Hb as [<- ->].
      apply forallb_render in HP as [Hfs Htl]; [|reflexivity].
      split; [exact Hfs|]. now exists tl0.
  - intros (Hfs & tl0 & -> & Htl). exists (render fs tl0).
    split; [apply render_app|]. apply forallb_render; [reflexivity|now split].
Qed.

Lemma fields_free_retarget (P : ascii -> bool) (name : str) (plus : bool)
      (v : str) (fs : list field) :
  forallb P name = true -> P " "%char = true -> forallb P v = true ->
  fields_free P fs -> fields_free P (map (retarget name plus v) fs).
Proof.
  intros Hn Hsp Hv. induction 1 as [|f fs [Hg Hfv] _ IH]; [constructor|].
  cbn [map]. constructor; [|exact IH]. unfold retarget.
  destruct (split_name name (gap f)) as [[pre ws]|] eqn:Es; [|now split].
  destruct (negb (plus && is_nil (val f))); [|now split].
  apply split_name_spec in Es as [Hgap _]. rewrite Hgap in Hg.
  rewrite forallb_app in Hg. apply andb_true_iff in Hg as [Hpre _].
  cbn [gap val]. split; [|exact Hv].
  rewrite !forallb_app, Hpre, Hn. cbn [forallb]. now rewrite Hsp.
Qed.

Lemma fields_free_insert (P : ascii -> bool) (k : str) (fs : list field)
      (tl : str) :
  forallb P (txt ", retrobat_rgs: ") = true -> forallb P k = true ->
  fields_free P fs -> fields_free P (insert_rgs k fs tl).
Proof.
  intros Hn Hk. induction 1 as [|f fs Hf _ IH]; [constructor|].
  cbn [insert_rgs].
  destruct (is_some (split_name (txt "retrobat:") (gap f))
            && starts_with (txt ",") (render fs tl)).
  - constructor; [exact Hf|]. constructor; [|exact IH]. now split.
  - constructor; [exact Hf|exact IH].
Qed.

Lemma insert_rgs_nonempty (k : str) (fs : list field) (tl : str) :
  fs <> [] -> insert_rgs k fs tl <> [].
Proof.
  destruct fs as [|f fs]; [congruence|]. intros _. cbn [insert_rgs].
  now destruct (is_some (split_name (txt "retrobat:") (gap f))
                && starts_with (txt ",") (render fs tl)).
Qed.

Lemma map_nonempty {A B} (f : A -> B) (l : list A) : l <> [] -> map f l <> [].
Proof. now destruct l. Qed.

Lemma render_nonempty (fs : list field) (tl : str) :
  fs <> [] -> render fs tl <> [].
Proof.
  destruct fs as [|f fs]; [congruence|]. intros _. cbn [render].
  unfold render_field, quoted. now destruct (gap f).
Qed.

(** The line a pass writes has the line end of the line it read. *)
Lemma render_same_end (fs fs2 : list field) (tl : str) :
  fields_free line_char fs2 -> (fs <> [] -> fs2 <> []) ->
  (terminated (render fs tl) -> terminated (render fs2 tl)) /\
  (render fs tl <> [] /\ forallb line_char (render fs tl) = true ->
   render fs2 tl <> [] /\ forallb line_char (render fs2 tl) = true).
Proof.
  intros Hfree Hne. split.
  - intros H. apply render_terminated in H as [_ Htl].
    apply render_terminated. now split.
  - intros [Hn HP]. apply forallb_render in HP as [_ Htl]; [|reflexivity].
    split.
    + destruct fs as [|f fs].
      * cbn [render] in Hn. destruct fs2 as [|g fs2]; [exact Hn|].
        now apply render_nonempty.
      * apply render_nonempty, Hne. discriminate.
    + apply forallb_render; [reflexivity|now split].
Qed.

Lemma rgs_fields_kept (m : mappings) (fs : list field) (tl line' : str)
      (n : nat) (ev : list RGS.event) :
  wf_table m -> line_table m -> record_line fs tl ->
  RGS.patch_line m (render fs tl) = Ok (line', n, ev) ->
  exists fs2,
    line' = render fs2 tl /\
    (fields_free line_char fs -> fields_free line_char fs2) /\
    (fs <> [] -> fs2 <> []).
Proof.
  intros Hwf Hlt Hrec H.
  destruct (rgs_patch_explicit m fs tl line' n ev Hwf Hrec H)
    as (fs1 & fs2 & -> & H1 & H2).
  exists fs2. split; [reflexivity|].
  assert (Hfs1 : (fields_free line_char fs -> fields_free line_char fs1) /\
                 (fs <> [] -> fs1 <> [])).
  { destruct H1 as [->|(k & rec & Hk & ->)]; [now split|].
    destruct (Hlt k rec Hk) as [_ Hs]. split.
    - now apply fields_free_retarget.
    - apply map_nonempty. }
  destruct Hfs1 as [Hf1 Hn1].
  destruct H2 as [->|(k & rec & Hk & [->| ->])]; [now split| |];
    destruct (Hlt k rec Hk) as [Hkc _]; split.
  - intros Hf. apply fields_free_retarget; auto.
  - intros Hf. now apply map_nonempty, Hn1.
  - intros Hf. apply fields_free_insert; auto.
  - intros Hf. now apply insert_rgs_nonempty, Hn1.
Qed.

Lemma src_fields_kept (m : mappings) (i : nat) (fs : list field)
      (tl line' : str) (n : nat) (ev : list SRC.event) :
  wf_table m -> line_table m -> record_line fs tl ->
  SRC.patch_line m i (render fs tl) = Ok (line', n, ev) ->
  exists fs2,
    line' = render fs2 tl /\
    (fields_free line_char fs -> fields_free line_char fs2) /\
    (fs <> [] -> fs2 <> []).
Proof.
  intros Hwf Hlt Hrec H.
  destruct (src_patch_explicit m i fs tl line' n ev Hwf Hrec H)
    as (fs1 & -> & H1).
  exists fs1. split; [reflexivity|].
  destruct H1 as [->|(k & rec & Hk & ->)]; [now split|].
  destruct (Hlt k rec Hk) as [_ Hs]. split.
  - now apply fields_free_retarget.
  - apply map_nonempty.
Qed.

Lemma fields_kept_line_end (fs fs2 : list field) (tl : str) :
  (fields_free line_char fs -> fields_free line_char fs2) ->
  (fs <> [] -> fs2 <> []) ->
  line_end_kept (render fs tl) (render fs2 tl).
Proof.
  intros Hf Hn. split.
  - intros H. pose proof H as H0. apply render_terminated in H0 as [Hfs _].
    now apply (render_same_end fs fs2 tl (Hf Hfs) Hn).
  - intros [Hne HP]. pose proof HP as H0.
    apply forallb_render in H0 as [Hfs _]; [|reflexivity].
    now apply (render_same_end fs fs2 tl (Hf Hfs) Hn).
Qed.

Lemma rgs_line_end (m : mappings) (line line' : str) (n : nat)
      (ev : list RGS.event) :
  wf_table m -> line_table m -> is_record line ->
  RGS.patch_line m line = Ok (line', n, ev) -> line_end_kept line line'.
Proof.
  intros Hwf Hlt (fs & tl & -> & Hrec) H.
  destruct (rgs_fields_kept m fs tl line' n ev Hwf Hlt Hrec H)
    as (fs2 & -> & Hf & Hn).
  now apply fields_kept_line_end.
Qed.

Lemma src_line_end (m : mappings) (i : nat) (line line' : str) (n : nat)
      (ev : list SRC.event) :
  wf_table m -> line_table m -> is_record line ->
  SRC.patch_line m i line = Ok (line', n, ev) -> line_end_kept line line'.
Proof.
  intros Hwf Hlt (fs & tl & -> & Hrec) H.
  destruct (src_fields_kept m i fs tl line' n ev Hwf Hlt Hrec H)
    as (fs2 & -> & Hf & Hn).
  now apply fields_kept_line_end.
Qed.

Lemma file_lines_kept (lines lines' : list str) :
  Forall2 line_end_kept lines lines' -> file_lines lines -> file_lines lines'.
Proof.
  induction 1 as [|l l' ls ls' [Ht Hl] Hrest IH]; [auto|].
  intros [Hshape Hls]. split; [|now apply IH].
  destruct Hshape as [H|(-> & H)]; [left; now apply Ht|right].
  inversion Hrest; subst. split; [reflexivity|now apply Hl].
Qed.

Lemma rgs_patch_lines_end (m : mappings) (lines : list str) :
  wf_table m -> line_table m -> Forall is_record lines ->
  forall lines' n ev,
    RGS.patch_lines m lines = Ok (lines', n, ev) ->
    Forall2 line_end_kept lines lines'.
Proof.
  intros Hwf Hlt. induction 1 as [|l lines Hl _ IH]; intros lines' n ev H.
  - injection H as <- _ _. constructor.
  - cbn [RGS.patch_lines] in H.
    destruct (RGS.patch_line m l) as [e|[[l' n1] ev1]] eqn:E1; [discriminate|].
    destruct (RGS.patch_lines m lines) as [e|[[ls' n2] ev2]] eqn:E2;
      [discriminate|].
    cbn in H. injection H as <- _ _. constructor.
    + now apply (rgs_line_end m l l' n1 ev1).
    + now apply (IH _ _ _ eq_refl).
Qed.

Lemma src_patch_lines_end (m : mappings) (lines : list str) :
  wf_table m -> line_table m -> Forall is_record lines ->
  forall i lines' n ev,
    SRC.patch_lines m i lines = Ok (lines', n, ev) ->
    Forall2 line_end_kept lines lines'.
Proof.
  intros Hwf Hlt. induction 1 as [|l lines Hl _ IH]; intros i lines' n ev H.
  - injection H as <- _ _. constructor.
  - cbn [SRC.patch_lines] in H.
    destruct (SRC.patch_line m i l) as [e|[[l' n1] ev1]] eqn:E1; [discriminate|].
    destruct (SRC.patch_lines m (S i) lines) as [e|[[ls' n2] ev2]] eqn:E2;
      [discriminate|].
    cbn in H. injection H as <- _ _. constructor.
    + now apply (src_line_end m i l l' n1 ev1).
    + now apply (IH _ _ _ _ E2).
Qed.

(** The file a pass writes is read back as the lines written. *)
Lemma written_read_back (raw : str) (lines' : list str) :
  Forall2 line_end_kept (readlines (universal_newlines raw)) lines' ->
  universal_newlines (concat lines') = concat lines' /\
  readlines (concat lines') = lines'.
Proof.
  intros H.
  assert (Hfl : file_lines lines').
  { apply (file_lines_kept _ _ H). apply readlines_file_lines.
    now apply (universal_newlines_cr_free (length raw)). }
  destruct (file_lines_concat _ Hfl) as [H1 H2].
  split; [now apply universal_newlines_same|exact H1].
Qed.

Lemma wf_table_plain (m : mappings) : wf_table m -> plain_table m.
Proof.
  intros Hwf k rec Hk. destruct (Hwf k rec Hk) as ((_ & _ & Hp) & (_ & _ & Hs) & _).
  now split.
Qed.

Lemma with_yaml_backup (fs : files) (text : str) :
  yaml_file fs = Some text ->
  with_yaml (with_backup fs text) text = with_backup fs text.
Proof. intros H. unfold with_yaml, with_backup. cbn. now rewrite H. Qed.

(** X15.  A second run of variant B.  The YAML file is made of record
    lines, and the ids and paths of the table hold neither double quote,
    colon, backslash nor line end, with no path empty.  Then the first
    run returns, and the second run returns the same exit status and
    leaves the YAML file as the first run wrote it; all it does is to
    replace the backup of the first run by a copy of that file. *)
Theorem src_main_twice (fs : files) (header : list str) (rows : list (list str))
        (raw : str) (m : mappings) :
  csv_file fs = Some (header :: rows) -> yaml_file fs = Some raw ->
  read_csv_mappings (header :: rows) = Ok m ->
  wf_table m -> line_table m ->
  Forall is_record (readlines (universal_newlines raw)) ->
  exists status text,
    fst (SRC_IO.main fs) = inr status /\
    yaml_file (snd (SRC_IO.main fs)) = Some text /\
    backup_file (snd (SRC_IO.main fs)) = Some (universal_newlines raw) /\
    SRC_IO.main (snd (SRC_IO.main fs))
    = (inr status, with_backup (snd (SRC_IO.main fs)) text).
Proof.
  intros Hcsv Hy Hm Hwf Hlt Hrec. unfold Ok in Hm.
  destruct (src_patch_lines_plain m (readlines (universal_newlines raw))
              (wf_table_plain m Hwf) 0) as [[[ls n] ev] Hp].
  assert (E : SRC_IO.main fs
              = (inr (status_of (SRC.unresolved m (concat ls))),
                 with_yaml (with_backup fs (universal_newlines raw))
                           (concat ls))).
  { rewrite (src_io_main_rows fs _ Hcsv), Hy, Hm. cbv zeta.
    unfold SRC.update_yaml_file. now rewrite Hp. }
  rewrite E. cbn [fst snd].
  exists (status_of (SRC.unresolved m (concat ls))), (concat ls).
  split; [reflexivity|]. split; [reflexivity|]. split; [reflexivity|].
  destruct (written_read_back raw ls
              (src_patch_lines_end m _ Hwf Hlt Hrec 0 ls n ev Hp)) as [Hun Hread].
  destruct (src_patch_lines_record m _ Hwf Hrec 0 ls n ev Hp) as [ev' Hp2].
  rewrite (src_io_main_rows _ (header :: rows)) by exact Hcsv.
  cbn [yaml_file with_yaml with_backup]. rewrite Hm. cbv zeta.
  rewrite Hun, Hread. unfold SRC.update_yaml_file. rewrite Hp2.
  cbn [bind Ok SRC.written SRC.not_found]. reflexivity.
Qed.

(** X16.  A second run of variant A, under the same conditions, when in
    addition no two ids have the same path and every line of the file
    after the first run has a retrobat_rgs field or no retrobat text:
    the second run returns the same exit status and leaves the YAML file
    as the first run wrote it; all it does is to replace the backup of
    the first run by a copy of that file. *)
Theorem rgs_main_twice (fs : files) (header : list str) (rows : list (list str))
        (raw : str) (m : mappings) :
  csv_file fs = Some (header :: rows) -> yaml_file fs = Some raw ->
  read_csv_mappings (header :: rows) = Ok m ->
  wf_table m -> line_table m -> distinct_paths m ->
  Forall is_record (readlines (universal_newlines raw)) ->
  (forall text, yaml_file (snd (RGS_IO.main fs)) = Some text ->
                Forall (fun line => rgs_present line = true) (readlines text)) ->
  exists status text,
    fst (RGS_IO.main fs) = inr status /\
    yaml_file (snd (RGS_IO.main fs)) = Some text /\
    backup_file (snd (RGS_IO.main fs)) = Some (universal_newlines raw) /\
    RGS_IO.main (snd (RGS_IO.main fs))
    = (inr status, with_backup (snd (RGS_IO.main fs)) text).
Proof.
  intros Hcsv Hy Hm Hwf Hlt Hd Hrec. unfold Ok in Hm.
  destruct (rgs_patch_lines_plain m (readlines (universal_newlines raw))
              (wf_table_plain m Hwf)) as [[[ls n] ev] Hp].
  assert (E : RGS_IO.main fs
              = (inr (status_of (RGS.unresolved m (concat ls))),
                 with_yaml (with_backup fs (universal_newlines raw))
                           (concat ls))).
  { rewrite (rgs_io_main_rows fs _ Hcsv), Hy, Hm. cbv zeta.
    unfold RGS.update_yaml_file. now rewrite Hp. }
  rewrite E. cbn [fst snd]. intros Hpres.
  exists (status_of (RGS.unresolved m (concat ls))), (concat ls).
  split; [reflexivity|]. split; [reflexivity|]. split; [reflexivity|].
  destruct (written_read_back raw ls
              (rgs_patch_lines_end m _ Hwf Hlt Hrec ls n ev Hp)) as [Hun Hread].
  specialize (Hpres _ eq_refl). rewrite Hread in Hpres.
  pose proof (rgs_patch_lines_record m _ Hwf Hd Hrec ls n ev Hp Hpres) as Hp2.
  rewrite (rgs_io_main_rows _ (header :: rows)) by exact Hcsv.
  cbn [yaml_file with_yaml with_backup]. rewrite Hm. cbv zeta.
  rewrite Hun, Hread. unfold RGS.update_yaml_file. rewrite Hp2.
  cbn [bind Ok RGS.written RGS.not_found]. reflexivity.
Qed.

(** ** What the scripts read as a field *)

Lemma match_here_field_iff (name : str) (plus : bool) (s ws v rest : str) :
  field_at name plus [] s = Some (ws, v, rest) ->
  match_here (field_pattern name plus []) s = Some (field_parts name ws v []).
Proof. intros H. now rewrite match_here_field, H. Qed.

Lemma match_here_field_none (name : str) (plus : bool) (s : str) :
  match_here (field_pattern name plus []) s = None <->
  field_at name plus [] s = None.
Proof.
  rewrite match_here_field. destruct (field_at name plus [] s) as [[[ws v] r]|];
    cbn [option_map]; split; congruence.
Qed.

(** X17.  The field the scripts read from a line, for a name with its
    colon: the first place of the line at which the name stands, followed
    by any white space and a value between double quotes; the value holds
    no double quote, and for the src field and for the retrobat field of
    variant B it is not empty.  The name is not matched as a whole word:
    it may be the end of a longer one. *)
Theorem field_search_iff (name : str) (plus : bool) (line v : str) :
  search_group1 (field_re name (value_item plus) true) line = Some v <->
  exists pre ws rest,
    line = pre ++ name ++ ws ++ quoted v ++ rest /\
    forallb is_space ws = true /\
    forallb not_quote v = true /\
    (plus = true -> v <> []) /\
    forall p1 p2, pre = p1 ++ p2 -> p2 <> [] ->
                  field_at name plus [] (p2 ++ name ++ ws ++ quoted v ++ rest)
                  = None.
Proof.
  unfold search_group1, re_search. rewrite field_re_items. split.
  - destruct (search_from (field_pattern name plus []) line) as [m0|] eqn:Es;
      [|discriminate].
    cbn [option_map]. intros H; injection H as <-.
    apply search_from_elim in Es as (rest0 & -> & Hm & Hleft).
    rewrite match_here_field in Hm.
    destruct (field_at name plus [] rest0) as [[[ws v] rest]|] eqn:Ef;
      [|discriminate].
    cbn [option_map fst snd] in Hm. injection Hm as Hm. rewrite <- Hm.
    rewrite group1_field.
    apply field_at_elim in Ef as (-> & Hws & Hv & Hplus).
    exists (m_pre m0), ws, rest. cbn [app]. rewrite quoted_app.
    repeat split; auto.
    intros p1 p2 Hp Hne. apply match_here_field_none. now apply (Hleft p1 p2).
  - intros (pre & ws & rest & -> & Hws & Hv & Hplus & Hleft).
    pose proof (field_at_intro name plus [] ws v rest Hws Hv Hplus) as Hf.
    cbn [app] in Hf. rewrite <- quoted_app in Hf.
    rewrite (search_from_intro _ pre (name ++ ws ++ quoted v ++ rest)
               (field_parts name ws v [])).
    + cbn [option_map m_parts]. now rewrite group1_field.
    + now apply (match_here_field_iff name plus _ ws v rest).
    + intros p1 p2 Hp Hne. apply match_here_field_none. now apply (Hleft p1 p2).
Qed.

(** ** Every field of the name is written *)

(** X18.  The ids and the paths of the table hold neither double
    quote, colon nor backslash, and no path is empty.  Variant B on a
    record line whose first retrobat field names a known id and whose
    first src field holds another path than that of the id: every src
    field of the line that has a value, not only the first, is written
    with the path of the id, each with one space after its colon; the
    other fields and the text between them stay; one rewrite is counted
    and printed. *)
Theorem src_rewrites_every_field (m : mappings) (i : nat) (fs : list field)
        (tl k cur : str) (rec : system_record) :
  wf_table m -> record_line fs tl ->
  search_group1 SRC.marker_re (render fs tl) = Some k ->
  dict_find k m = Some rec ->
  search_group1 SRC.src_re (render fs tl) = Some cur -> cur <> src rec ->
  SRC.patch_line m i (render fs tl)
  = Ok (render (map (retarget (txt "src:") true (src rec)) fs) tl,
        1, [SRC.Updated k cur (src rec)]).
Proof.
  intros Hwf Hrec Hk Hfind Hcur Hne.
  destruct (Hwf k rec Hfind) as (_ & (Hsq & Hsc & Hsp) & _).
  unfold SRC.patch_line. rewrite Hk. unfold dict_mem, dict_get.
  rewrite Hfind, Hcur. cbn [negb bind Ok].
  apply str_eqb_neq in Hne. rewrite Hne.
  change SRC.src_sub_re with RGS.src_sub_re.
  change (SRC.src_text (src rec)) with (RGS.src_text (src rec)).
  now rewrite src_sub_render.
Qed.

(** X19.  The ids and the paths of the table hold neither double
    quote, colon nor backslash, and no path is empty.  Variant A on a
    record line that is matched to an id, has the path of the id in its
    src field, no retrobat_rgs field and the text of a retrobat name: a
    retrobat_rgs field with the id is put after every retrobat field
    that is followed by a comma, not only after the first, and one
    addition is counted and printed, also when no field is put. *)
Theorem rgs_inserts_after_every_marker (m : mappings) (fs : list field)
        (tl k : str) (rec : system_record) :
  wf_table m -> record_line fs tl ->
  RGS.find_match m (dict_keys m) (render fs tl) = Ok (Some k) -> k <> [] ->
  dict_find k m = Some rec ->
  search_group1 RGS.src_re (render fs tl) = Some (src rec) ->
  search_group1 RGS.rgs_re (render fs tl) = None ->
  contains (txt "retrobat:") (render fs tl) = true ->
  RGS.patch_line m (render fs tl)
  = Ok (render (insert_rgs k fs tl) tl, 1, [RGS.Added k]).
Proof.
  intros Hwf Hrec Hf Hk Hfind Hsrc Hrgs Hc.
  destruct (Hwf k rec Hfind) as ((_ & _ & Hkp) & _).
  rewrite (rgs_patch_line_matched _ _ _ _ Hf Hk Hfind).
  rewrite Hsrc, str_eqb_refl. cbn [bind Ok]. rewrite Hrgs, Hc.
  now rewrite re_sub_insert_render.
Qed.

(** ** The example of the specification *)

Lemma sega_table_read : read_csv_mappings sega_rows = Ok sega_table.
Proof. reflexivity. Qed.

Lemma sega_table_find (k : str) (rec : system_record) :
  dict_find k sega_table = Some rec -> k = txt "sega32x" /\ rec = sega_record.
Proof.
  unfold sega_table. cbn [dict_find].
  destruct (str_eqb_spec k (txt "sega32x")) as [->|]; [|discriminate].
  intros H; injection H as <-. now split.
Qed.

Lemma sega_table_wf : wf_table sega_table.
Proof.
  intros k rec H. apply sega_table_find in H as [-> ->].
  repeat split; try reflexivity. discriminate.
Qed.

Lemma sega_table_paths : wf_paths sega_table.
Proof.
  intros k rec H. apply sega_table_find in H as [-> ->].
  repeat split; try reflexivity. discriminate.
Qed.

Lemma sega_table_lines : line_table sega_table.
Proof.
  intros k rec H. apply sega_table_find in H as [-> ->]. now split.
Qed.

Lemma sega_table_distinct : distinct_paths sega_table.
Proof.
  intros j k rj rk Hj Hk Hne.
  apply sega_table_find in Hj as [-> _]. apply sega_table_find in Hk as [-> _].
  now elim Hne.
Qed.

Lemma sega_fields_record : record_line sega_fields sega_tail.
Proof. split; [repeat constructor|reflexivity]. Qed.

Lemma sega_fields_src_record : record_line sega_fields_src sega_tail.
Proof. split; [repeat constructor|reflexivity]. Qed.

Lemma sega_line_record : is_record sega_line.
Proof. exists sega_fields, sega_tail. split; [reflexivity|apply sega_fields_record]. Qed.

Lemma patch_keeps_line_count_witness :
  (exists r, RGS.update_yaml_file sega_table [sega_line] = Ok r /\
             length (RGS.written r) = 1 /\ RGS.updated_count r <= 1) /\
  (exists r, SRC.update_yaml_file sega_table [sega_line] = Ok r /\
             length (SRC.written r) = 1 /\ SRC.updated_count r <= 1).
Proof.
  destruct (patch_keeps_line_count sega_table [sega_line]) as [HA HB]. split.
  - destruct (RGS.update_yaml_file sega_table [sega_line]) as [e|r] eqn:E;
      [vm_compute in E; discriminate E|].
    exists r. split; [reflexivity|]. exact (HA r eq_refl).
  - destruct (SRC.update_yaml_file sega_table [sega_line]) as [e|r] eqn:E;
      [vm_compute in E; discriminate E|].
    exists r. split; [reflexivity|]. exact (HB r eq_refl).
Defined.

Lemma printed_is_counted_witness :
  (exists r, RGS.update_yaml_file sega_table [sega_line] = Ok r /\
             length (RGS.printed r) = RGS.updated_count r) /\
  (exists r, SRC.update_yaml_file sega_table [sega_line] = Ok r /\
             length (filter is_updated (SRC.printed r)) = SRC.updated_count r).
Proof.
  destruct (printed_is_counted sega_table [sega_line]) as [HA HB]. split.
  - destruct (RGS.update_yaml_file sega_table [sega_line]) as [e|r] eqn:E;
      [vm_compute in E; discriminate E|].
    exists r. split; [reflexivity|]. exact (proj1 (HA r eq_refl)).
  - destruct (SRC.update_yaml_file sega_table [sega_line]) as [e|r] eqn:E;
      [vm_compute in E; discriminate E|].
    exists r. split; [reflexivity|]. exact (HB r eq_refl).
Defined.

Lemma src_warning_lines_witness :
  exists r,
    SRC.update_yaml_file sega_table [sega_line; sega_line_no_src] = Ok r /\
    In (SRC.Warning (txt "sega32x") 2) (SRC.printed r).
Proof.
  destruct (SRC.update_yaml_file sega_table [sega_line; sega_line_no_src])
    as [e|r] eqn:E; [vm_compute in E; discriminate E|].
  exists r. split; [reflexivity|].
  apply (src_warning_lines sega_table [sega_line; sega_line_no_src] r
           (txt "sega32x") 2 E).
  exists sega_line_no_src. repeat split; try reflexivity. lia.
Defined.

Lemma src_count_is_changes_witness :
  exists r,
    SRC.update_yaml_file sega_table [sega_line; sega_line_no_src] = Ok r /\
    SRC.updated_count r
    = changed_lines [sega_line; sega_line_no_src] (SRC.written r).
Proof.
  destruct (SRC.update_yaml_file sega_table [sega_line; sega_line_no_src])
    as [e|r] eqn:E; [vm_compute in E; discriminate E|].
  exists r. split; [reflexivity|].
  exact (proj2 (src_count_is_changes sega_table _ r E) sega_table_paths).
Defined.

Lemma src_written_path_witness :
  exists r line',
    SRC.update_yaml_file sega_table [sega_line] = Ok r /\
    nth_error (SRC.written r) 0 = Some line' /\
    search_group1 SRC.src_re line' = Some (txt "sega/sega32x").
Proof.
  destruct (SRC.update_yaml_file sega_table [sega_line]) as [e|r] eqn:E;
    [vm_compute in E; discriminate E|].
  destruct (src_written_path sega_table [sega_line] r 0 sega_line
              (txt "sega32x") sega_record sega_table_paths E eq_refl)
    as (line' & H1 & H2).
  - vm_compute. reflexivity.
  - reflexivity.
  - vm_compute. discriminate.
  - exists r, line'. split; [reflexivity|]. split; [exact H1|exact H2].
Defined.

Lemma rgs_written_fields_witness :
  exists r line',
    RGS.update_yaml_file sega_table [sega_line] = Ok r /\
    nth_error (RGS.written r) 0 = Some line' /\
    search_group1 RGS.src_re line' = Some (txt "sega/sega32x").
Proof.
  destruct (RGS.update_yaml_file sega_table [sega_line]) as [e|r] eqn:E;
    [vm_compute in E; discriminate E|].
  destruct (rgs_written_fields sega_table [sega_line] r 0 sega_line
              (txt "sega32x") sega_record sega_table_wf sega_line_record E eq_refl)
    as (line' & H1 & _ & H2 & _).
  - vm_compute. reflexivity.
  - discriminate.
  - reflexivity.
  - vm_compute. discriminate.
  - exists r, line'. split; [reflexivity|]. split; [exact H1|exact H2].
Defined.

Lemma marker_text_kept_witness :
  exists line' n ev,
    RGS.patch_line sega_table sega_line = Ok (line', n, ev) /\
    contains (RGS.marker_text (txt "sega32x")) line'
    = contains (RGS.marker_text (txt "sega32x")) sega_line.
Proof.
  destruct (RGS.patch_line sega_table sega_line) as [e|[[l n] ev]] eqn:E;
    [vm_compute in E; discriminate E|].
  exists l, n, ev. split; [reflexivity|].
  exact (proj1 (marker_text_kept sega_table sega_line (txt "sega32x")
                  sega_table_wf sega_line_record eq_refl) l n ev E).
Defined.

Lemma read_csv_sound_witness :
  NoDup (dict_keys sega_table) /\ length (dict_keys sega_table) <= 1.
Proof.
  destruct (read_csv_sound (txt "Full name" :: [txt "System"; txt "Retrobat";
                                                 txt "Retronas"])
              (tl sega_rows) sega_table sega_table_read) as (H1 & H2 & _).
  split; [exact H1|exact H2].
Defined.

Lemma read_csv_outcome_witness :
  let fs := {| csv_source := Some (sega_rows, Fails UnicodeDecodeError);
               yaml_file := Some sega_line;
               backup_file := None |} in
  RGS_IO.main fs = (inl (ReaderError UnicodeDecodeError), fs) /\
  SRC_IO.main fs = (inl (ReaderError UnicodeDecodeError), fs).
Proof.
  intros fs.
  exact (proj2 (proj2 (proj2 read_csv_outcome)) fs
           (sega_rows, Fails UnicodeDecodeError) sega_line
           (ReaderError UnicodeDecodeError) eq_refl eq_refl eq_refl).
Defined.

Lemma main_outcome_witness :
  let fs := {| csv_source := Some ([hd [] sega_rows], Fails CsvError);
               yaml_file := Some sega_line;
               backup_file := None |} in
  fst (RGS_IO.main fs) = inl (ReaderError CsvError) /\
  fst (SRC_IO.main fs) = inl (ReaderError CsvError).
Proof.
  intros fs. destruct (main_outcome fs) as (_ & H1 & H2).
  split; [apply H1|apply H2];
    exists ([hd [] sega_rows], Fails CsvError), sega_line;
    (split; [reflexivity|]); (split; [reflexivity|]);
    right; left; exists [hd [] sega_rows], CsvError; split; reflexivity.
Defined.



Lemma main_completes_witness :
  let fs := {| csv_source := Some (sega_rows, Exhausted);
               yaml_file := Some (sega_line ++ sega_line_no_src);
               backup_file := None |} in
  (exists status, fst (RGS_IO.main fs) = inr status) /\
  (exists status, fst (SRC_IO.main fs) = inr status).
Proof.
  intros fs.
  destruct (main_completes fs (sega_rows, Exhausted)
              (sega_line ++ sega_line_no_src) eq_refl eq_refl) as [H1 H2].
  - intros name k ext path more [H|[]]. injection H as <- <- <- <- <-.
    split; reflexivity.
  - split; [apply H1|apply H2];
      exists (hd [] sega_rows), (tl sega_rows); reflexivity.
Defined.

Lemma unchanged_file_line_ends_witness :
  let raw := txt "a" ++ [carriage_return; newline] ++ txt "b" ++ [newline] in
  let fs := {| csv_source := None; yaml_file := Some raw; backup_file := None |} in
  exists r ws,
    RGS_IO.update_yaml_file sega_table fs
    = (inr (r, ws), with_yaml fs (universal_newlines raw)) /\
    RGS.written r = readlines (universal_newlines raw) /\
    RGS.updated_count r = 0.
Proof.
  intros raw fs.
  apply (proj1 (unchanged_file_line_ends sega_table fs raw eq_refl)).
  replace (readlines (universal_newlines raw))
    with [txt "a" ++ [newline]; txt "b" ++ [newline]]
    by (vm_compute; reflexivity).
  repeat constructor; intros k [<-|[]]; vm_compute; reflexivity.
Defined.

Lemma src_main_twice_witness :
  let fs := {| csv_source := Some (sega_rows, Exhausted); yaml_file := Some sega_line;
               backup_file := None |} in
  exists status text,
    fst (SRC_IO.main fs) = inr status /\
    yaml_file (snd (SRC_IO.main fs)) = Some text /\
    backup_file (snd (SRC_IO.main fs)) = Some (universal_newlines sega_line) /\
    SRC_IO.main (snd (SRC_IO.main fs))
    = (inr status, with_backup (snd (SRC_IO.main fs)) text).
Proof.
  intros fs.
  apply (src_main_twice fs (txt "Full name" :: [txt "System"; txt "Retrobat";
                                                 txt "Retronas"])
           (tl sega_rows) sega_line sega_table).
  - reflexivity.
  - reflexivity.
  - exact sega_table_read.
  - exact sega_table_wf.
  - exact sega_table_lines.
  - replace (readlines (universal_newlines sega_line)) with [sega_line]
      by (vm_compute; reflexivity).
    constructor; [exact sega_line_record|constructor].
Defined.

Lemma rgs_main_twice_witness :
  let fs := {| csv_source := Some (sega_rows, Exhausted); yaml_file := Some sega_line;
               backup_file := None |} in
  exists status text,
    fst (RGS_IO.main fs) = inr status /\
    yaml_file (snd (RGS_IO.main fs)) = Some text /\
    backup_file (snd (RGS_IO.main fs)) = Some (universal_newlines sega_line) /\
    RGS_IO.main (snd (RGS_IO.main fs))
    = (inr status, with_backup (snd (RGS_IO.main fs)) text).
Proof.
  intros fs.
  apply (rgs_main_twice fs (txt "Full name" :: [txt "System"; txt "Retrobat";
                                                 txt "Retronas"])
           (tl sega_rows) sega_line sega_table).
  - reflexivity.
  - reflexivity.
  - exact sega_table_read.
  - exact sega_table_wf.
  - exact sega_table_lines.
  - exact sega_table_distinct.
  - replace (readlines (universal_newlines sega_line)) with [sega_line]
      by (vm_compute; reflexivity).
    constructor; [exact sega_line_record|constructor].
  - intros text H. vm_compute in H. injection H as <-.
    constructor; [vm_compute; reflexivity|constructor].
Defined.

Lemma field_search_iff_witness :
  exists pre ws rest,
    sega_line = pre ++ txt "src:" ++ ws ++ quoted (txt "sega/oldpath") ++ rest /\
    forallb is_space ws = true.
Proof.
  destruct (proj1 (field_search_iff (txt "src:") true sega_line
                     (txt "sega/oldpath")))
    as (pre & ws & rest & H1 & H2 & _).
  - vm_compute. reflexivity.
  - now exists pre, ws, rest.
Defined.

Lemma src_rewrites_every_field_witness :
  SRC.patch_line sega_table 0 sega_line
  = Ok (render sega_fields_src sega_tail, 1,
        [SRC.Updated (txt "sega32x") (txt "sega/oldpath") (txt "sega/sega32x")]).
Proof.
  apply (src_rewrites_every_field sega_table 0 sega_fields sega_tail
           (txt "sega32x") (txt "sega/oldpath") sega_record
           sega_table_wf sega_fields_record).
  - vm_compute. reflexivity.
  - reflexivity.
  - vm_compute. reflexivity.
  - discriminate.
Defined.

Lemma rgs_inserts_after_every_marker_witness :
  RGS.patch_line sega_table (render sega_fields_src sega_tail)
  = Ok (render (insert_rgs (txt "sega32x") sega_fields_src sega_tail) sega_tail,
        1, [RGS.Added (txt "sega32x")]).
Proof.
  apply (rgs_inserts_after_every_marker sega_table sega_fields_src sega_tail
           (txt "sega32x") sega_record sega_table_wf sega_fields_src_record).
  - vm_compute. reflexivity.
  - discriminate.
  - reflexivity.
  - vm_compute. reflexivity.
  - vm_compute. reflexivity.
  - vm_compute. reflexivity.
Defined.

(** ** The ids printed and the ids not found *)

Lemma contains_concat (p line : str) (ls : list str) :
  In line ls -> contains p line = true -> contains p (concat ls) = true.
Proof.
  induction ls as [|l ls IH]; [intros []|].
  intros [->|Hin] Hc; cbn [concat].
  - now apply contains_app_r.
  - apply contains_app_l. now apply IH.
Qed.

Lemma has_field_retarget_star (name v : str) (f : field) :
  is_some (split_name name (gap f)) = true ->
  has_field name v (retarget name false v f) = true.
Proof.
  unfold retarget. destruct (split_name name (gap f)) as [[pre ws]|];
    [|discriminate].
  intros _. cbn [negb andb]. unfold has_field. cbn [gap val].
  rewrite str_eqb_refl, andb_true_r. apply ends_with_iff. now exists pre.
Qed.

Lemma insert_rgs_new (k : str) (fs : list field) (tl : str) :
  insert_rgs k fs tl = fs \/ In (new_field k) (insert_rgs k fs tl).
Proof.
  induction fs as [|f fs IH]; [now left|]. cbn [insert_rgs].
  destruct (is_some (split_name (txt "retrobat:") (gap f))
            && starts_with (txt ",") (render fs tl)).
  - right. right. now left.
  - destruct IH as [->|IH]; [now left|right; now right].
Qed.

Lemma rgs_text_written (m : mappings) (fs : list field) (tl line' : str)
      (n : nat) (ev : list RGS.event) :
  wf_table m -> record_line fs tl ->
  RGS.patch_line m (render fs tl) = Ok (line', n, ev) ->
  (forall k cur, In (RGS.Updated k cur) ev ->
                 contains (RGS.rgs_text k) line' = true) /\
  (forall k, In (RGS.Added k) ev -> rgs_present line' = true ->
             contains (RGS.rgs_text k) line' = true).
Proof.
  intros Hwf Hrec H.
  destruct (rgs_patch_cases m fs tl line' n ev Hwf Hrec H)
    as (fs1 & fs2 & -> & Hrec1 & _ & H2).
  destruct H2 as [(_ & _ & ->)|(k & rec & Hk & H2)].
  { split; [intros k cur []|intros k []]. }
  destruct (Hwf k rec Hk) as ((Hkq & Hkc & Hkp) & _).
  change (RGS.rgs_text)
    with (fun k => (txt "retrobat_rgs:" ++ [" "%char]) ++ quoted k).
  cbv beta.
  destruct H2 as [(cur & Hs & -> & _ & ->)|(Hs & Hc & -> & _ & ->)].
  - split; [|intros k' [E|[]]; discriminate E].
    intros k' cur' [E|[]]. injection E as <- <-.
    rewrite contains_render; auto using field_name_rgs.
    2:{ apply record_line_retarget; auto using field_name_rgs. }
    rewrite rgs_search_render in Hs by assumption.
    destruct (find (qual (txt "retrobat_rgs:") false) fs1) as [f|] eqn:Ef;
      [|discriminate].
    apply find_some in Ef as [Hin Hq].
    apply existsb_exists.
    exists (retarget (txt "retrobat_rgs:") false k f). split.
    + now apply in_map.
    + apply has_field_retarget_star. unfold qual in Hq.
      now apply andb_true_iff in Hq as [Hq _].
  - split; [intros k' cur' [E|[]]; discriminate E|].
    intros k' [E|[]] Hp. injection E as <-.
    assert (Hrec2 : record_line (insert_rgs k fs1 tl) tl)
      by now apply record_line_insert.
    destruct (insert_rgs_new k fs1 tl) as [Hsame|Hnew].
    + exfalso. rewrite Hsame in Hp. unfold rgs_present in Hp.
      rewrite Hs, Hc in Hp. discriminate.
    + rewrite contains_render; auto using field_name_rgs.
      apply existsb_exists. exists (new_field k). split; [exact Hnew|].
      unfold has_field, new_field. cbn [gap val].
      now rewrite str_eqb_refl, andb_true_r.
Qed.

Lemma rgs_patch_lines_event (m : mappings) (lines : list str) :
  forall lines' n ev e,
    RGS.patch_lines m lines = Ok (lines', n, ev) -> In e ev ->
    exists line line' n' ev',
      In line lines /\ In line' lines' /\
      RGS.patch_line m line = Ok (line', n', ev') /\ In e ev'.
Proof.
  induction lines as [|l lines IH]; intros lines' n ev e H He.
  - injection H as _ _ <-. destruct He.
  - cbn [RGS.patch_lines] in H.
    destruct (RGS.patch_line m l) as [x|[[l' n1] ev1]] eqn:E1; [discriminate|].
    destruct (RGS.patch_lines m lines) as [x|[[ls' n2] ev2]] eqn:E2;
      [discriminate|].
    cbn in H. injection H as <- _ <-.
    apply in_app_or in He as [He|He].
    + exists l, l', n1, ev1. repeat split; auto; now left.
    + destruct (IH _ _ _ e eq_refl He) as (line & line' & n' & ev' & H1 & H2 & H3).
      exists line, line', n', ev'. repeat split; try tauto; now right.
Qed.

(** X20.  The ids and the paths of the table hold neither double
    quote, colon nor backslash, and no path is empty.  Variant A on a
    file of which every line is a record line: an id printed as Updated
    is not in the list of the ids not found; an id printed as Added is
    not in that list when every line written has a retrobat_rgs field or
    no retrobat text, that is, when the field was in fact added. *)
Theorem printed_is_resolved (m : mappings) (lines : list str) (r : RGS.report) :
  wf_table m -> Forall is_record lines ->
  RGS.update_yaml_file m lines = Ok r ->
  (forall k cur, In (RGS.Updated k cur) (RGS.printed r) ->
                 ~ In k (RGS.not_found r)) /\
  (Forall (fun line => rgs_present line = true) (RGS.written r) ->
   forall k, In (RGS.Added k) (RGS.printed r) -> ~ In k (RGS.not_found r)).
Proof.
  intros Hwf Hrec Hr. apply rgs_update_written in Hr as [Hr ->].
  assert (Hres : forall k, (exists line', In line' (RGS.written r) /\
                                          contains (RGS.rgs_text k) line' = true) ->
                           ~ In k (RGS.unresolved m (concat (RGS.written r)))).
  { intros k (line' & Hin & Hc) Hk. apply filter_In in Hk as [_ Hk].
    now rewrite (contains_concat _ _ _ Hin Hc) in Hk. }
  split.
  - intros k cur He. apply Hres.
    destruct (rgs_patch_lines_event _ _ _ _ _ _ Hr He)
      as (line & line' & n' & ev' & Hl & Hl' & Hp & He').
    exists line'. split; [exact Hl'|].
    rewrite Forall_forall in Hrec. destruct (Hrec line Hl) as (fs & tl & -> & Hfs).
    now apply (proj1 (rgs_text_written m fs tl line' n' ev' Hwf Hfs Hp) k cur).
  - intros Hpres k He. apply Hres.
    destruct (rgs_patch_lines_event _ _ _ _ _ _ Hr He)
      as (line & line' & n' & ev' & Hl & Hl' & Hp & He').
    exists line'. split; [exact Hl'|].
    rewrite Forall_forall in Hrec, Hpres.
    destruct (Hrec line Hl) as (fs & tl & -> & Hfs).
    now apply (proj2 (rgs_text_written m fs tl line' n' ev' Hwf Hfs Hp) k He'),
      Hpres.
Qed.

Lemma printed_is_resolved_witness :
  exists r,
    RGS.update_yaml_file sega_table [sega_line] = Ok r /\
    In (RGS.Added (txt "sega32x")) (RGS.printed r) /\
    ~ In (txt "sega32x") (RGS.not_found r).
Proof.
  destruct (RGS.update_yaml_file sega_table [sega_line]) as [e|r] eqn:E;
    [vm_compute in E; discriminate E|].
  exists r. split; [reflexivity|].
  assert (Hin : In (RGS.Added (txt "sega32x")) (RGS.printed r)).
  { vm_compute in E. injection E as <-. now left. }
  split; [exact Hin|].
  apply (proj2 (printed_is_resolved sega_table [sega_line] r sega_table_wf
                  (Forall_cons _ sega_line_record (Forall_nil _)) E)); [|exact Hin].
  vm_compute in E. injection E as <-.
  constructor; [vm_compute; reflexivity|constructor].
Defined.

